(** * CRIRES_RV / viper: the forward model and its fit orchestration

    A shallow embedding of [model.py] (the instrumental-profile kernels, the
    forward model evaluator, the generic fit wrapper, the band-matrix
    variant), of [viper.py] (the fit of one chunk, the chunk loop and the
    aggregation) and of the order numbering and column names of
    [inst/inst_CRIRES.py], followed by the properties proved about them.

    Conventions of the embedding.
    - A one-dimensional NumPy array of floats is a [list R]; arithmetic on
      its elements is exact real arithmetic.  Statements that the source
      makes "within floating-point tolerance" are therefore equalities here.
      Non-finite floats (inf, nan) only matter in the chunk aggregation of
      [viper.py], which is modelled over an extended value type of its own.
    - [np.log] and [**] are the real logarithm and power.  They are the
      source's on positive arguments; where NumPy would give nan or inf (the
      logarithm of a wavelength polynomial that is not positive at a pixel,
      of [1 + v/c] for a shift [v <= -c]) the embedding has no such value,
      and a property that rests on the value of a logarithm states that its
      argument is positive.
    - A Python exception is [None] in the pure functions, and an [Error]
      outcome that keeps the state in the store-passing semantics.
    - The methods of the model are read twice: as pure functions of the
      values of the arrays, and over a store in which arrays have identity
      and in-place operations write into them.  The two readings of the
      evaluator are proved to agree.
    - Library routines whose result depends on the data ([curve_fit],
      [np.linalg.lstsq]) and the files read by the script are parameters. *)

From Stdlib Require Import String Ascii Decimal DecimalString DecimalZ Sorted.
From Stdlib Require Import Reals Lra Lia List ZArith Bool.
Import ListNotations.
Open Scope R_scope.

(** ** NumPy primitives *)

Module Np.

(** [a.sum()] *)
Definition sum (a : list R) : R := fold_right Rplus 0 a.

(** [a /= s] for a scalar [s]: every element divided by [s]. *)
Definition idiv (a : list R) (s : R) : list R := map (fun x => x / s) a.

(** [np.dot(a, b)] for two one-dimensional arrays. *)
Definition dot (a b : list R) : R :=
  sum (map (fun p => fst p * snd p) (combine a b)).

(** [np.arange(n)] as floats. *)
Definition arange (n : nat) : list R := map INR (seq 0 n).

(** [x ** y] on floats, on the part of its domain where the result is a
    finite real: a positive base, a zero exponent, or a zero base with a
    positive exponent.  For a negative base and for a zero base with a
    negative exponent NumPy gives a signed power, nan or inf; the value
    here is not the source's there, and no property rests on it. *)
Definition power (x y : R) : R :=
  if Req_dec_T y 0 then 1
  else if Rlt_dec 0 x then Rpower x y
  else 0.

End Np.

(** ** scipy.special.erf

    [erf x = 2/sqrt(pi) * integral from 0 to x of exp(-t^2) dt]. *)

Definition erf_integrand (t : R) : R := exp (- t ^ 2).

Definition erf_integrand_continuous x : continuity_pt erf_integrand x.
Proof.
  apply derivable_continuous_pt. unfold erf_integrand. reg.
Qed.

Definition erf_integrable (x : R) : Riemann_integrable erf_integrand 0 x.
Proof.
  destruct (Rle_dec 0 x) as [H|H].
  - apply continuity_implies_RiemannInt; [exact H|].
    intros; apply erf_integrand_continuous.
  - apply RiemannInt_P1. apply continuity_implies_RiemannInt; [lra|].
    intros; apply erf_integrand_continuous.
Defined.

Definition erf (x : R) : R := 2 / sqrt PI * RiemannInt (erf_integrable x).

(** ** The kernel library ([model.py], lines 8-82) *)

(** [c = 3e5], speed of light in km/s. *)
Definition c : R := 300000.

(** [IP_k /= IP_k.sum()] *)
Definition normalise (IP_k : list R) : list R := Np.idiv IP_k (Np.sum IP_k).

(** Gaussian IP: the array before normalisation, and the kernel. *)
Definition IP_k_g (vk : list R) (s : R) : list R :=
  map (fun v => exp (- (v / s) ^ 2 / 2)) vk.

Definition IP (vk : list R) (s : R) : list R := normalise (IP_k_g vk s).

(** super Gaussian *)
Definition IP_k_sg (vk : list R) (s e : R) : list R :=
  map (fun v => exp (- Np.power (Rabs (v / s)) e)) vk.

Definition IP_sg (vk : list R) (s e : R) : list R := normalise (IP_k_sg vk s e).

(** Asymmetric (skewed) Gaussian. *)
Definition IP_k_ag (vk : list R) (s a : R) : list R :=
  let b := a / sqrt (1 + a ^ 2) * sqrt (2 / PI) in
  let ss := s / sqrt (1 - b ^ 2) in
  let vk := map (fun v => (v + ss * b) / ss) vk in
  map (fun v => exp (- v ^ 2 / 2) * (1 + erf (a / sqrt 2 * v))) vk.

Definition IP_ag (vk : list R) (s a : R) : list R := normalise (IP_k_ag vk s a).

(** BiGaussian *)
Definition IP_k_bg (vk : list R) (s1 s2 : R) : list R :=
  let xc := sqrt (2 / PI) * (- s1 ^ 2 + s2 ^ 2) / (s1 + s2) in
  let vck := map (fun v => v + xc) vk in
  map (fun v => exp (- 0.5 * (v / (if Rlt_dec v 0 then s1 else s2)) ^ 2)) vck.

Definition IP_bg (vk : list R) (s1 s2 : R) : list R := normalise (IP_k_bg vk s1 s2).

(** IP for multiple, central Gaussians. *)
Definition IP_k_mcg (vk : list R) (s0 a1 : R) : list R :=
  let s1 := 4 * s0 in
  let a1 := a1 / 10 in
  let IP_k := map (fun v => exp (- (v / s0) ^ 2) + a1 * exp (- (v / s1) ^ 2)) vk in
  map (fun x => Rmax 0 x) IP_k.

Definition IP_mcg (vk : list R) (s0 a1 : R) : list R := normalise (IP_k_mcg vk s0 a1).

(** IP for multiple uniformly spaced Gaussians ("Gaussian spline"). *)
Definition IP_k_mg (vk : list R) (a : list R) : list R :=
  let s := 0.9 in
  let dx := s in
  let na := S (length a) in
  let mid := Nat.div (length a) 2 in
  let a := map tanh a in
  let a := firstn mid a ++ 1 :: skipn mid a in
  let xl := Np.arange na in
  let xm := Np.dot xl a / fold_left Rplus a 0 in
  let xc := map (fun x => dx * (x - xm)) xl in
  map (fun v => Np.dot a (map (fun xci => exp (- ((v - xci) / s) ^ 2)) xc)) vk.

Definition IP_mg (vk : list R) (a : list R) : list R := normalise (IP_k_mg vk a).

(** A call [f(vk, *coeff)] of one of the kernels with its shape parameters. *)
Inductive kernel_call : Type :=
| Call_IP (s : R)
| Call_IP_sg (s e : R)
| Call_IP_ag (s a : R)
| Call_IP_bg (s1 s2 : R)
| Call_IP_mcg (s0 a1 : R)
| Call_IP_mg (a : list R).

(** The array the kernel holds just before its [IP_k /= IP_k.sum()]. *)
Definition unnormalised (k : kernel_call) (vk : list R) : list R :=
  match k with
  | Call_IP s => IP_k_g vk s
  | Call_IP_sg s e => IP_k_sg vk s e
  | Call_IP_ag s a => IP_k_ag vk s a
  | Call_IP_bg s1 s2 => IP_k_bg vk s1 s2
  | Call_IP_mcg s0 a1 => IP_k_mcg vk s0 a1
  | Call_IP_mg a => IP_k_mg vk a
  end.

Definition run_kernel (k : kernel_call) (vk : list R) : list R :=
  match k with
  | Call_IP s => IP vk s
  | Call_IP_sg s e => IP_sg vk s e
  | Call_IP_ag s a => IP_ag vk s a
  | Call_IP_bg s1 s2 => IP_bg vk s1 s2
  | Call_IP_mcg s0 a1 => IP_mcg vk s0 a1
  | Call_IP_mg a => IP_mg vk a
  end.

(** ** More NumPy and Python primitives, used by the forward model *)

(** Exceptions of the pure functions: [None] stands for a raised exception. *)
Definition bind {A B : Type} (x : option A) (f : A -> option B) : option B :=
  match x with
  | Some a => f a
  | None => None
  end.

Notation "x <- e ;; k" := (bind e (fun x => k))
  (at level 61, e at next level, right associativity).

(** Applying a function that may raise to every element of an array. *)
Fixpoint mapM {A B : Type} (f : A -> option B) (l : list A) : option (list B) :=
  match l with
  | [] => Some []
  | x :: l' => y <- f x ;; ys <- mapM f l' ;; Some (y :: ys)
  end.

Module Py.

(** A Python index or slice bound [i] on a sequence of length [n]:
    negative bounds count from the end, and all bounds are clipped. *)
Definition clip_bound (n : nat) (i : Z) : nat :=
  if (i <? 0)%Z then Z.to_nat (Z.of_nat n + i) else Nat.min (Z.to_nat i) n.

(** [l[start:stop]] *)
Definition slice {A : Type} (start stop : Z) (l : list A) : list A :=
  let i := clip_bound (length l) start in
  let j := clip_bound (length l) stop in
  firstn (j - i) (skipn i l).

(** [l[i]] for a non-negative index [i]; IndexError when out of range. *)
Definition index {A : Type} (l : list A) (i : nat) : option A := nth_error l i.

(** [l[-1]] *)
Definition last {A : Type} (l : list A) : option A := nth_error (rev l) 0.

End Py.

Module NpArr.

(** [np.arange(lo, hi)] on integers. *)
Definition arange (lo hi : Z) : list Z :=
  map (fun k => (lo + Z.of_nat k)%Z) (seq 0 (Z.to_nat (hi - lo))).

(** [np.ones(n)] *)
Definition ones (n : nat) : list R := repeat 1 n.

(** [a op b] with broadcasting of one-dimensional arrays: equal lengths,
    or one operand of length one; ValueError otherwise. *)
Definition binop (f : R -> R -> R) (a b : list R) : option (list R) :=
  if Nat.eqb (length a) (length b) then
    Some (map (fun p => f (fst p) (snd p)) (combine a b))
  else match a, b with
       | [x], _ => Some (map (fun y => f x y) b)
       | _, [y] => Some (map (fun x => f x y) a)
       | _, _ => None
       end.

(** [a op= b]: in place, so the result keeps the shape of [a]. *)
Definition iop (f : R -> R -> R) (a b : list R) : option (list R) :=
  if Nat.eqb (length a) (length b) then
    Some (map (fun p => f (fst p) (snd p)) (combine a b))
  else match b with
       | [y] => Some (map (fun x => f x y) a)
       | _ => None
       end.

(** [np.polyval(p, x)] at one point: Horner's scheme, highest degree first. *)
Definition polyval (p : list R) (x : R) : R :=
  fold_left (fun y pv => y * x + pv) p 0.

(** [np.interp(x, xp, fp)] at one point [x], for increasing sample points
    [xp]: constant extrapolation on both sides, linear in between. *)
Fixpoint interp_scan (xp fp : list R) (x : R) : R :=
  match xp, fp with
  | x0 :: ((x1 :: _) as xp'), f0 :: ((f1 :: _) as fp') =>
      if Rlt_dec x x1 then (f1 - f0) / (x1 - x0) * (x - x0) + f0
      else interp_scan xp' fp' x
  | _ :: _, f0 :: _ => f0
  | _, _ => 0
  end.

Definition interp1 (xp fp : list R) (x : R) : R :=
  match xp, fp with
  | x0 :: _, f0 :: _ => if Rlt_dec x x0 then f0 else interp_scan xp fp x
  | _, _ => 0
  end.

(** [np.interp(x, xp, fp)]: ValueError when [xp] is empty or [fp] has
    another length. *)
Definition interp (x xp fp : list R) : option (list R) :=
  match xp with
  | [] => None
  | _ :: _ =>
      if Nat.eqb (length xp) (length fp) then Some (map (interp1 xp fp) x)
      else None
  end.

(** [np.correlate(a, w, mode='valid')] for [len(w) <= len(a)]. *)
Definition correlate_valid (a w : list R) : list R :=
  map (fun k => Np.dot (firstn (length w) (skipn k a)) w)
      (seq 0 (length a - length w + 1)).

(** [np.convolve(a, v, mode='valid')]: ValueError on an empty operand; the
    longer operand is slid over the reversed shorter one. *)
Definition convolve_valid (a v : list R) : option (list R) :=
  match a, v with
  | [], _ | _, [] => None
  | _, _ =>
      if Nat.ltb (length a) (length v) then Some (correlate_valid v (rev a))
      else Some (correlate_valid a (rev v))
  end.

End NpArr.

(** [poly(x, a)]: the polynomial with adjacent coefficients [a0, a1, ...]. *)
Definition poly (x : R) (a : list R) : R := NpArr.polyval (rev a) x.

(** [pade(x, a, b)]: rational polynomial, denominator constant fixed to 1. *)
Definition pade (x : R) (a b : list R) : R := poly x a / (1 + x * poly x b).

(** The keys of the dictionary [IPs] that name a kernel function. *)
Inductive ip_name : Type := ip_g | ip_sg | ip_ag | ip_bg | ip_mg | ip_mcg.

(** Binding of the positional arguments [*coeff_ip] to a kernel's parameters,
    with the defaults of its signature; TypeError on too many arguments. *)
Definition bind_kernel (f : ip_name) (coeff_ip : list R) : option kernel_call :=
  match f, coeff_ip with
  | ip_g, [] => Some (Call_IP 2.2)
  | ip_g, [s] => Some (Call_IP s)
  | ip_sg, [] => Some (Call_IP_sg 2.2 2)
  | ip_sg, [s] => Some (Call_IP_sg s 2)
  | ip_sg, [s; e] => Some (Call_IP_sg s e)
  | ip_ag, [] => Some (Call_IP_ag 2.2 0)
  | ip_ag, [s] => Some (Call_IP_ag s 0)
  | ip_ag, [s; a] => Some (Call_IP_ag s a)
  | ip_bg, [] => Some (Call_IP_bg 2 2)
  | ip_bg, [s1] => Some (Call_IP_bg s1 2)
  | ip_bg, [s1; s2] => Some (Call_IP_bg s1 s2)
  | ip_mcg, [] => Some (Call_IP_mcg 2 0.1)
  | ip_mcg, [s0] => Some (Call_IP_mcg s0 0.1)
  | ip_mcg, [s0; a1] => Some (Call_IP_mcg s0 a1)
  | ip_mg, a => Some (Call_IP_mg a)
  | _, _ => None
  end.

(** [IPs[f](vk, *coeff_ip)] *)
Definition call_IP (f : ip_name) (vk coeff_ip : list R) : option (list R) :=
  k <- bind_kernel f coeff_ip ;; Some (run_kernel k vk).

(** What the attribute [self.IP] may hold: a kernel function ([model]) or
    the coefficients of a trial wavelength solution ([model_bnd]). *)
Inductive ip_attr : Type :=
| IP_function (f : ip_name)
| IP_array (bg : list R).

(** ** The forward model ([class model], pure reading of its methods) *)

Module model.

(** The attributes of a model object. *)
Record t : Type := Build {
  xcen : R;
  S_star : R -> option R;
  lnwave_j : list R;
  spec_cell_j : list R;
  fluxes_molec : list (list R);
  IP : ip_attr;
  dx : R;
  IP_hs : Z;
  vk : list R;
  lnwave_j_eff : list R;
  func_norm : R -> list R -> R
}.

(** [__init__(self, *args, func_norm=poly, IP_hs=50, xcen=0)] with
    [args = (S_star, lnwave_j, spec_cell_j, fluxes_molec, IP)]. *)
Definition init (S_star : R -> option R) (lnwave_j spec_cell_j : list R)
    (fluxes_molec : list (list R)) (IP : ip_attr)
    (func_norm : R -> list R -> R) (IP_hs : Z) (xcen : R) : option t :=
  x1 <- Py.index lnwave_j 1 ;;
  x0 <- Py.index lnwave_j 0 ;;
  let dx := x1 - x0 in
  Some {| xcen := xcen;
          S_star := S_star;
          lnwave_j := lnwave_j;
          spec_cell_j := spec_cell_j;
          fluxes_molec := fluxes_molec;
          IP := IP;
          dx := dx;
          IP_hs := IP_hs;
          vk := map (fun k => IZR k * dx * c) (NpArr.arange (- IP_hs) (IP_hs + 1));
          lnwave_j_eff := Py.slice IP_hs (- IP_hs) lnwave_j;
          func_norm := func_norm |}.

(** One turn of the loop over [zip(coeff_atm, self.fluxes_molec)]:
    [flux_atm *= flux_mol**np.abs(coeff_mol)]. *)
Definition flux_atm_step (flux_atm : option (list R)) (p : R * list R)
    : option (list R) :=
  acc <- flux_atm ;;
  NpArr.iop Rmult acc (map (fun x => Np.power x (Rabs (fst p))) (snd p)).

(** [flux_atm] after the loop (lines 123-125); [first] is
    [self.fluxes_molec[0]]. *)
Definition flux_atm_loop (self : t) (first : list R) (coeff_atm : list R)
    : option (list R) :=
  fold_left flux_atm_step (combine coeff_atm (fluxes_molec self))
    (Some (NpArr.ones (length first))).

(** [flux_atm] after the optional telluric wavelength shift (lines 127-129). *)
Definition flux_atm_shifted (self : t) (first : list R) (coeff_atm : list R)
    : option (list R) :=
  flux_atm <- flux_atm_loop self first coeff_atm ;;
  if Nat.eqb (length coeff_atm) (length (fluxes_molec self) + 1) then
    v <- Py.last coeff_atm ;;
    NpArr.interp (lnwave_j self)
      (map (fun x => x - ln (1 + v / c)) (lnwave_j self)) flux_atm
  else Some flux_atm.

(** [spec_gas] as it enters the convolution (lines 119-131). *)
Definition spec_gas (self : t) (coeff_atm : list R) : option (list R) :=
  let spec_gas := map (fun x => 1 * x) (spec_cell_j self) in
  match fluxes_molec self with
  | [] => Some spec_gas
  | first :: _ =>
      flux_atm <- flux_atm_shifted self first coeff_atm ;;
      NpArr.iop Rmult spec_gas flux_atm
  end.

(** [self.IP(self.vk, *coeff_ip)]; TypeError when [self.IP] is no function. *)
Definition kernel (self : t) (coeff_ip : list R) : option (list R) :=
  match IP self with
  | IP_function f => call_IP f (vk self) coeff_ip
  | IP_array _ => None
  end.

(** The IP convolution (line 134). *)
Definition Sj_eff (self : t) (rv : R) (coeff_ip coeff_atm coeff_bkg : list R)
    : option (list R) :=
  spec_gas <- spec_gas self coeff_atm ;;
  IP_k <- kernel self coeff_ip ;;
  star <- mapM (S_star self) (map (fun x => x - rv / c) (lnwave_j self)) ;;
  bkg0 <- Py.index coeff_bkg 0 ;;
  signal <- NpArr.binop Rmult star (map (fun x => x + bkg0) spec_gas) ;;
  NpArr.convolve_valid IP_k signal.

(** [__call__(self, pixel, rv, coeff_norm, coeff_wave, coeff_ip, coeff_atm,
    coeff_bkg=[0])].  [lnwave_obs] is the source's where the wavelength
    polynomial is positive at the pixel; elsewhere [np.log] gives nan or
    -inf (with a warning, no exception), which the real logarithm does not
    show. *)
Definition call (self : t) (pixel : list R) (rv : R)
    (coeff_norm coeff_wave coeff_ip coeff_atm coeff_bkg : list R)
    : option (list R) :=
  Sj_eff <- Sj_eff self rv coeff_ip coeff_atm coeff_bkg ;;
  let lnwave_obs := map (fun x => ln (poly (x - xcen self) coeff_wave)) pixel in
  Si_eff <- NpArr.interp lnwave_obs (lnwave_j_eff self) Sj_eff ;;
  NpArr.binop Rmult
    (map (fun x => func_norm self (x - xcen self) coeff_norm) pixel) Si_eff.

End model.

(** ** Example models *)

(** A model on a two-knot grid with a flat template, a flat cell spectrum,
    no absorber template, the Gaussian kernel and [IP_hs=0]. *)
Definition model_hs0 : option model.t :=
  model.init (fun _ => Some 1) [0; 1] [1; 1] [] (IP_function ip_g) poly 0 0.

(** ** The absorber spectrum as the design states it

    "Start from all-ones; for each absorber template multiply in
    [template_flux ** |absorber_coeff|]": knot [j] of the combined absorber
    spectrum is the product, over the paired coefficients and templates, of
    the template's flux at [j] raised to the absolute value of its
    coefficient. *)
Fixpoint absorber_factor (pairs : list (R * list R)) (j : nat) : R :=
  match pairs with
  | [] => 1
  | (coeff, flux) :: pairs' =>
      Np.power (nth j flux 0) (Rabs coeff) * absorber_factor pairs' j
  end.

Definition combined_absorber (coeff_atm : list R) (fluxes_molec : list (list R))
    (n : nat) : list R :=
  map (absorber_factor (combine coeff_atm fluxes_molec)) (seq 0 n).

(** The model [self] with its absorber templates taken out and [gas] for
    its cell spectrum. *)
Definition with_gas (self : model.t) (gas : list R) : model.t :=
  model.Build (model.xcen self) (model.S_star self) (model.lnwave_j self) gas []
    (model.IP self) (model.dx self) (model.IP_hs self) (model.vk self)
    (model.lnwave_j_eff self) (model.func_norm self).

(** The predicted spectrum for the gas spectrum [spec_cell_j * flux_atm]:
    the evaluator on the model without templates whose cell spectrum is the
    product, for the other arguments of the call. *)
Definition call_absorbed (self : model.t) (flux_atm : list R) (pixel : list R)
    (rv : R) (coeff_norm coeff_wave coeff_ip coeff_bkg : list R) : option (list R) :=
  gas <- NpArr.iop Rmult (model.spec_cell_j self) flux_atm ;;
  model.call (with_gas self gas) pixel rv coeff_norm coeff_wave coeff_ip [] coeff_bkg.

(** The coefficient list with the sign of entry [i] flipped. *)
Fixpoint flip_sign (i : nat) (l : list R) : list R :=
  match l, i with
  | [], _ => []
  | x :: l', O => - x :: l'
  | x :: l', S i' => x :: flip_sign i' l'
  end.

(** A model on a four-knot grid with one absorber template, the Gaussian
    kernel and [IP_hs=1], as [__init__] builds it. *)
Definition model_one_absorber : model.t :=
  model.Build 0 (fun _ => Some 1) [0; 1; 2; 3] [1; 1; 1; 1]
    [[0.5; 0.5; 0.5; 0.5]] (IP_function ip_g) (1 - 0) 1
    (map (fun k => IZR k * (1 - 0) * c) (NpArr.arange (- (1)) (1 + 1)))
    (Py.slice 1 (- (1)) [0; 1; 2; 3]) poly.

(** The same with a second absorber template. *)
Definition model_two_absorbers : model.t :=
  model.Build 0 (fun _ => Some 1) [0; 1; 2; 3] [1; 1; 1; 1]
    [[0.5; 0.5; 0.5; 0.5]; [0.25; 0.25; 0.25; 0.25]] (IP_function ip_g) (1 - 0) 1
    (map (fun k => IZR k * (1 - 0) * c) (NpArr.arange (- (1)) (1 + 1)))
    (Py.slice 1 (- (1)) [0; 1; 2; 3]) poly.

(** ** The generic fit wrapper: parameter partitioning ([model.fit]) *)

(** A positional argument of the evaluator: a float or a tuple of floats. *)
Inductive pyarg : Type :=
| Scalar (x : R)
| Tuple (xs : list R).

(** The keyword arguments [par_*] (free) and [parfix_*] (fixed) of [fit];
    [None] for the radial velocity is Python's [None]. *)
Record fit_pars : Type := {
  par_rv : option R;
  par_norm : list R;
  par_wave : list R;
  par_ip : list R;
  par_atm : list R;
  par_bkg : list R;
  parfix_rv : option R;
  parfix_norm : list R;
  parfix_wave : list R;
  parfix_ip : list R;
  parfix_atm : list R;
  parfix_bkg : list R
}.

(** [() if x is None else (x,)] *)
Definition opt_tuple (x : option R) : list R :=
  match x with
  | None => []
  | Some v => [v]
  end.

(** [slice(start, stop)] with non-negative bounds. *)
Record pyslice : Type := { start : nat; stop : nat }.

Definition getslice (s : pyslice) (l : list R) : list R :=
  Py.slice (Z.of_nat (start s)) (Z.of_nat (stop s)) l.

(** The slices [sv, sa, sb, ss, st, sc] of lines 154-159. *)
Definition sv (p : fit_pars) : pyslice :=
  {| start := 0; stop := length (opt_tuple (par_rv p)) |}.
Definition sa (p : fit_pars) : pyslice :=
  {| start := stop (sv p); stop := stop (sv p) + length (par_norm p) |}.
Definition sb (p : fit_pars) : pyslice :=
  {| start := stop (sa p); stop := stop (sa p) + length (par_wave p) |}.
Definition ss (p : fit_pars) : pyslice :=
  {| start := stop (sb p); stop := stop (sb p) + length (par_ip p) |}.
Definition st (p : fit_pars) : pyslice :=
  {| start := stop (ss p); stop := stop (ss p) + length (par_atm p) |}.
Definition sc (p : fit_pars) : pyslice :=
  {| start := stop (st p); stop := stop (st p) + length (par_bkg p) |}.

(** [p0=[*par_rv, *par_norm, *par_wave, *par_ip, *par_atm, *par_bkg]] *)
Definition p0 (p : fit_pars) : list R :=
  opt_tuple (par_rv p) ++ par_norm p ++ par_wave p ++ par_ip p ++ par_atm p
  ++ par_bkg p.

(** The positional arguments
    [*params[sv]+parfix_rv, params[sa]+parfix_norm, ..., params[sc]+parfix_bkg]
    of lines 166 and 172: the radial-velocity tuple is unpacked, the other
    groups are passed as tuples. *)
Definition grouped (p : fit_pars) (params : list R) : list pyarg :=
  map Scalar (getslice (sv p) params ++ opt_tuple (parfix_rv p)) ++
  [ Tuple (getslice (sa p) params ++ parfix_norm p);
    Tuple (getslice (sb p) params ++ parfix_wave p);
    Tuple (getslice (ss p) params ++ parfix_ip p);
    Tuple (getslice (st p) params ++ parfix_atm p);
    Tuple (getslice (sc p) params ++ parfix_bkg p) ].

(** The parameters of [__call__] after [pixel], as bound by a call. *)
Record call_args : Type := {
  rv : pyarg;
  coeff_norm : pyarg;
  coeff_wave : pyarg;
  coeff_ip : pyarg;
  coeff_atm : pyarg;
  coeff_bkg : pyarg
}.

(** Binding of positional arguments to
    [(rv, coeff_norm, coeff_wave, coeff_ip, coeff_atm, coeff_bkg=[0])];
    TypeError on too few or too many. *)
Definition bind_call (args : list pyarg) : option call_args :=
  match args with
  | [a1; a2; a3; a4; a5] =>
      Some {| rv := a1; coeff_norm := a2; coeff_wave := a3; coeff_ip := a4;
              coeff_atm := a5; coeff_bkg := Tuple [0] |}
  | [a1; a2; a3; a4; a5; a6] =>
      Some {| rv := a1; coeff_norm := a2; coeff_wave := a3; coeff_ip := a4;
              coeff_atm := a5; coeff_bkg := a6 |}
  | _ => None
  end.

(** The evaluator on bound arguments: [rv/c] needs a float, the coefficient
    groups are sequences. *)
Definition call_bound (self : model.t) (pixel : list R) (a : call_args)
    : option (list R) :=
  match rv a, coeff_norm a, coeff_wave a, coeff_ip a, coeff_atm a, coeff_bkg a with
  | Scalar v, Tuple cn, Tuple cw, Tuple ci, Tuple ca, Tuple cb =>
      model.call self pixel v cn cw ci ca cb
  | _, _, _, _, _, _ => None
  end.

(** [S_model = lambda x, *params: self(x, ...)] of line 166. *)
Definition S_model (self : model.t) (p : fit_pars) (x : list R) (params : list R)
    : option (list R) :=
  a <- bind_call (grouped p params) ;; call_bound self x a.

(** The partitioning contract of the design, for a flat solver vector
    [params]: it splits, in the order RV, continuum, wavelength, IP,
    absorber, background, into one block per group, each as long as the
    group's free sub-vector, and the evaluator receives for every group its
    block followed by the group's fixed values (the radial velocity being the
    single value of its group). *)
Definition partition_contract (p : fit_pars) (params : list R) : Prop :=
  exists v av bv sv' tv cv r,
    params = v ++ av ++ bv ++ sv' ++ tv ++ cv /\
    length v = length (opt_tuple (par_rv p)) /\
    length av = length (par_norm p) /\
    length bv = length (par_wave p) /\
    length sv' = length (par_ip p) /\
    length tv = length (par_atm p) /\
    length cv = length (par_bkg p) /\
    v ++ opt_tuple (parfix_rv p) = [r] /\
    bind_call (grouped p params) =
    Some {| rv := Scalar r;
            coeff_norm := Tuple (av ++ parfix_norm p);
            coeff_wave := Tuple (bv ++ parfix_wave p);
            coeff_ip := Tuple (sv' ++ parfix_ip p);
            coeff_atm := Tuple (tv ++ parfix_atm p);
            coeff_bkg := Tuple (cv ++ parfix_bkg p) |}.

(** A call of [fit] that names no radial velocity at all, with one free
    continuum coefficient. *)
Definition pars_without_rv : fit_pars :=
  {| par_rv := None; par_norm := [1]; par_wave := []; par_ip := [];
     par_atm := []; par_bkg := [];
     parfix_rv := None; parfix_norm := []; parfix_wave := [6000; 0.05];
     parfix_ip := [2.2]; parfix_atm := []; parfix_bkg := [0] |}.

(** A call of [fit] with a free radial velocity and continuum, the other
    groups fixed. *)
Definition pars_free_rv : fit_pars :=
  {| par_rv := Some 5; par_norm := [1]; par_wave := []; par_ip := [];
     par_atm := []; par_bkg := [];
     parfix_rv := None; parfix_norm := []; parfix_wave := [6000; 0.05];
     parfix_ip := [2.2]; parfix_atm := []; parfix_bkg := [0] |}.

(** ** Floats that may be non-finite

    The chunk aggregation of [viper.py] tests [np.isfinite], so its values
    are modelled with the non-finite floats made explicit; finite values are
    real numbers with exact arithmetic, and zero stands for [+0.0]. *)

Module Float.

Inductive t : Type :=
| Fin (x : R)
| PInf
| NInf
| NaN.

(** [np.isfinite] *)
Definition isfinite (a : t) : bool :=
  match a with
  | Fin _ => true
  | _ => false
  end.

Definition neg (a : t) : t :=
  match a with
  | Fin x => Fin (- x)
  | PInf => NInf
  | NInf => PInf
  | NaN => NaN
  end.

Definition abs (a : t) : t :=
  match a with
  | Fin x => Fin (Rabs x)
  | PInf | NInf => PInf
  | NaN => NaN
  end.

Definition add (a b : t) : t :=
  match a, b with
  | NaN, _ | _, NaN => NaN
  | Fin x, Fin y => Fin (x + y)
  | PInf, NInf | NInf, PInf => NaN
  | PInf, _ | _, PInf => PInf
  | NInf, _ | _, NInf => NInf
  end.

Definition sub (a b : t) : t := add a (neg b).

(** The infinity with the sign of [x], for [x] not zero. *)
Definition inf_signed (x : R) (positive : bool) : t :=
  if Rlt_dec 0 x then (if positive then PInf else NInf)
  else (if positive then NInf else PInf).

Definition mul (a b : t) : t :=
  match a, b with
  | NaN, _ | _, NaN => NaN
  | Fin x, Fin y => Fin (x * y)
  | Fin x, PInf | PInf, Fin x => if Req_dec_T x 0 then NaN else inf_signed x true
  | Fin x, NInf | NInf, Fin x => if Req_dec_T x 0 then NaN else inf_signed x false
  | PInf, PInf | NInf, NInf => PInf
  | PInf, NInf | NInf, PInf => NInf
  end.

Definition div (a b : t) : t :=
  match a, b with
  | NaN, _ | _, NaN => NaN
  | Fin x, Fin y =>
      if Req_dec_T y 0 then
        if Req_dec_T x 0 then NaN else inf_signed x true
      else Fin (x / y)
  | Fin _, _ => Fin 0
  | PInf, Fin y => if Rlt_dec y 0 then NInf else PInf
  | NInf, Fin y => if Rlt_dec y 0 then PInf else NInf
  | _, _ => NaN
  end.

(** [np.sqrt] *)
Definition sqrt (a : t) : t :=
  match a with
  | Fin x => if Rlt_dec x 0 then NaN else Fin (R_sqrt.sqrt x)
  | PInf => PInf
  | _ => NaN
  end.

(** [a ** 0.5] *)
Definition pow_half (a : t) : t :=
  match a with
  | Fin x => if Rlt_dec x 0 then NaN else Fin (R_sqrt.sqrt x)
  | PInf | NInf => PInf
  | NaN => NaN
  end.

(** An integer count as a float. *)
Definition of_Z (n : Z) : t := Fin (IZR n).

(** [a.sum()] *)
Definition sum (a : list t) : t := fold_right add (Fin 0) a.

(** [np.mean(a)]: the sum over the number of elements (nan when empty). *)
Definition mean (a : list t) : t := div (sum a) (of_Z (Z.of_nat (length a))).

(** [np.std(a)]: [sqrt(mean(abs(a - mean(a))**2))]. *)
Definition std (a : list t) : t :=
  let m := mean a in
  sqrt (mean (map (fun x => mul (abs (sub x m)) (abs (sub x m))) a)).

(** [a[mask]] for a boolean mask of the same length. *)
Fixpoint select (a : list t) (mask : list bool) : list t :=
  match a, mask with
  | x :: a', true :: mask' => x :: select a' mask'
  | _ :: a', false :: mask' => select a' mask'
  | _, _ => []
  end.

End Float.

(** ** The script [viper.py] *)

Module viper.

(** *** The fit of one chunk ([fit_chunk], lines 57-182) *)

(** [v0 = -2]: the guess for the stellar RV. *)
Definition v0 : R := -2.

(** A positional argument of [model(...)]: the interpolant of the stellar
    template, an array, a list of arrays, or what [self.IP] may hold. *)
Inductive init_value : Type :=
| Interpolant (f : R -> option R)
| Array (a : list R)
| Arrays (l : list (list R))
| Kernel (ip : ip_attr).

(** [model(...)] with the defaults [func_norm=poly, IP_hs=50, xcen=0].
    Line 108 of [model.py],
    [self.S_star, self.lnwave_j, self.spec_cell_j, self.fluxes_molec, self.IP = args],
    unpacks exactly five values and raises ValueError on any other number.
    Five values are read as an interpolant, two arrays, a list of arrays and
    a kernel, in this order. *)
Definition new_model (args : list init_value) : option model.t :=
  match args with
  | [Interpolant S_star; Array lnwave_j; Array spec_cell_j; Arrays fluxes_molec;
     Kernel IP] =>
      model.init S_star lnwave_j spec_cell_j fluxes_molec IP poly 50 0
  | _ => None
  end.

(** The names of the parameters of [model.__call__] after [pixel]. *)
Definition call_parameters : list string :=
  ["rv"; "coeff_norm"; "coeff_wave"; "coeff_ip"; "coeff_atm"; "coeff_bkg"]%string.

Fixpoint keyword (name : string) (kw : list (string * pyarg)) : option pyarg :=
  match kw with
  | [] => None
  | (n, a) :: kw' => if String.eqb n name then Some a else keyword name kw'
  end.

(** [S_mod(x, name=value, ...)]: the pixels by position, the other
    arguments by keyword.  TypeError on a keyword that names no parameter
    and on a parameter without default that no keyword fills. *)
Definition call_keywords (S_mod : model.t) (x : list R) (kw : list (string * pyarg))
    : option (list R) :=
  if forallb (fun p => existsb (String.eqb (fst p)) call_parameters) kw then
    a1 <- keyword "rv" kw ;;
    a2 <- keyword "coeff_norm" kw ;;
    a3 <- keyword "coeff_wave" kw ;;
    a4 <- keyword "coeff_ip" kw ;;
    a5 <- keyword "coeff_atm" kw ;;
    let a6 := match keyword "coeff_bkg" kw with
              | Some a => a
              | None => Tuple [0]
              end in
    call_bound S_mod x
      {| rv := a1; coeff_norm := a2; coeff_wave := a3; coeff_ip := a4;
         coeff_atm := a5; coeff_bkg := a6 |}
  else None.

(** [S_mod(x, v, a, b, s)]: the call every wrapper of [fit_chunk] makes,
    with four positional arguments after the pixels. *)
Definition S_mod_call (S_mod : model.t) (x : list R) (v : R) (a b : list R) (s : R)
    : option (list R) :=
  args <- bind_call [Scalar v; Tuple a; Tuple b; Scalar s] ;;
  call_bound S_mod x args.

(** A wrapper [lambda x, p1, ..., pn: S_mod(x, ...)]: the number of its
    parameters after [x], and its value at [x] and a parameter vector
    (TypeError on another number of parameters). *)
Record closure : Type := {
  arity : nat;
  body : list R -> list R -> option (list R)
}.

(** [S_a = lambda x, a0: S_mod(x, v, [a0], b, s)] *)
Definition S_a (S_mod : model.t) (v : R) (b : list R) (s : R) : closure :=
  {| arity := 1;
     body := fun x p => match p with
                        | [a0] => S_mod_call S_mod x v [a0] b s
                        | _ => None
                        end |}.

(** [S_b = lambda x, b0,b1,b2,b3: S_mod(x, v, a, [b0,b1,b2,b3], s)] *)
Definition S_b (S_mod : model.t) (v : R) (a : list R) (s : R) : closure :=
  {| arity := 4;
     body := fun x p => match p with
                        | [b0; b1; b2; b3] => S_mod_call S_mod x v a [b0; b1; b2; b3] s
                        | _ => None
                        end |}.

(** [S_vab = lambda x, v, a, b0,b1,b2,b3: S_mod(x, v, [a], [b0,b1,b2,b3], 2.2)];
    [S_va] has the same text. *)
Definition S_vab (S_mod : model.t) : closure :=
  {| arity := 6;
     body := fun x p => match p with
                        | [v; a; b0; b1; b2; b3] =>
                            S_mod_call S_mod x v [a] [b0; b1; b2; b3] 2.2
                        | _ => None
                        end |}.

Definition S_va (S_mod : model.t) : closure := S_vab S_mod.

(** [S_vabs = lambda x, v, a, b0,b1,b2,b3, s: S_mod(x, v, [a], [b0,b1,b2,b3], s)] *)
Definition S_vabs (S_mod : model.t) : closure :=
  {| arity := 7;
     body := fun x p => match p with
                        | [v; a; b0; b1; b2; b3; s] =>
                            S_mod_call S_mod x v [a] [b0; b1; b2; b3] s
                        | _ => None
                        end |}.

(** [S = lambda x, v, a0,a1,a2,a3, b0,b1,b2,b3, s:
         S_mod(x, v, [a0,a1,a2,a3], [b0,b1,b2,b3], s)] *)
Definition S_full (S_mod : model.t) : closure :=
  {| arity := 10;
     body := fun x p => match p with
                        | [v; a0; a1; a2; a3; b0; b1; b2; b3; s] =>
                            S_mod_call S_mod x v [a0; a1; a2; a3] [b0; b1; b2; b3] s
                        | _ => None
                        end |}.

(** Observed data [(xdata, ydata)] handed to the solver. *)
Definition obs : Type := (list R * list R)%type.

(** What [fit_chunk] takes from the files of one order (lines 59-111): the
    interpolant [S_star] of the stellar template, the grid [xj] and the
    cell spectrum [iod_j] on it, the first wavelength [w_i[0]] and the mean
    dispersion [(w_i[-1]-w_i[0])/w_i.size] of the observation, the cubic
    [np.polyfit(...)[::-1]] of its wavelength scale, and the observation on
    the pixel range valid for the model and on [slice(400,1700)]. *)
Record chunk : Type := {
  S_star : R -> option R;
  xj : list R;
  iod_j : list R;
  w_first : R;
  w_step : R;
  bg : list R;
  obs_valid : obs;
  obs_400_1700 : obs
}.

(** [np.diag(e)[0]] *)
Definition diag0 (e : list (list Float.t)) : option Float.t :=
  row <- nth_error e 0 ;; nth_error row 0.

Section Chunk.

(** [scipy.optimize.curve_fit(f, xdata, ydata, p0=...)]: the best-fit
    parameters and their covariance, or [None] when it raises. *)
Variable curve_fit :
  closure -> obs -> option (list R) -> option (list R * list (list Float.t)).

(** [fit_chunk(o)] from line 92 on: the model is set up and called once,
    then come the six fits, each followed by [show_model], which evaluates
    the wrapper at the fitted parameters.  The wrappers read [v], [a], [b],
    [s] when they are called.  What is returned is [(rvo, e_rvo)].  The
    plotting itself, [print] and [pause] change no variable and are left
    out, as is the plot of the kernel on line 95, which evaluates
    [S_mod.IP(S_mod.vk)] with the default width. *)
Definition fit_chunk (ch : chunk) : option (Float.t * Float.t) :=
  S_mod <- new_model [Interpolant (S_star ch); Array (xj ch); Array (iod_j ch);
                      Kernel (IP_function ip_g)] ;;
  let v := 0 in
  let b := [w_first ch; w_step ch] in
  let s := 2.5 in
  let x := fst (obs_valid ch) in
  _ <- call_keywords S_mod x
         [("v", Scalar 0); ("a", Tuple [1]); ("b", Tuple b); ("s", Scalar s)]%string ;;
  r <- curve_fit (S_a S_mod v b s) (obs_valid ch) None ;;
  let a := fst r in
  _ <- body (S_a S_mod v b s) x a ;;
  let v := v0 in
  r <- curve_fit (S_b S_mod v a s) (obs_valid ch) (Some (bg ch)) ;;
  r <- curve_fit (S_vab S_mod) (obs_valid ch) (Some ([v; 1] ++ bg ch)) ;;
  let p_vab := fst r in
  _ <- body (S_vab S_mod) x p_vab ;;
  let x := fst (obs_400_1700 ch) in
  r <- curve_fit (S_va S_mod) (obs_400_1700 ch)
         (Some ([v; 1] ++ Py.slice 2 6 p_vab)) ;;
  let p_va := fst r in
  _ <- Py.index p_va 0 ;;
  _ <- diag0 (snd r) ;;
  _ <- body (S_va S_mod) x p_va ;;
  r <- curve_fit (S_vabs S_mod) (obs_400_1700 ch) (Some (p_va ++ [2.2])) ;;
  let p_vabs := fst r in
  _ <- Py.index p_vabs 0 ;;
  _ <- diag0 (snd r) ;;
  _ <- body (S_vabs S_mod) x p_vabs ;;
  r <- curve_fit (S_full S_mod) (obs_400_1700 ch)
         (Some (firstn 2 p_vabs ++ [0; 0; 0] ++ skipn 2 p_vabs)) ;;
  rvo <- Py.index (fst r) 0 ;;
  e <- diag0 (snd r) ;;
  _ <- body (S_full S_mod) x (fst r) ;;
  Some (Float.Fin rvo, Float.pow_half e).

End Chunk.

(** *** The chunk loop and the aggregation (lines 184-190) *)

(** What the script prints and writes: the aggregate and the per-chunk
    arrays. *)
Record result : Type := {
  RV : Float.t;
  e_RV : Float.t;
  rv : list Float.t;
  e_rv : list Float.t
}.

(** [for i_o, o in enumerate(orders): rv[i_o], e_rv[i_o] = fit_chunk(o)].
    [fit_chunk o = None] stands for an exception raised in the chunk's fit;
    nothing catches it, so it ends the loop and the script. *)
Fixpoint chunk_loop (fit_chunk : Z -> option (Float.t * Float.t))
    (orders : list Z) : option (list Float.t * list Float.t) :=
  match orders with
  | [] => Some ([], [])
  | o :: orders' =>
      r <- fit_chunk o ;;
      rest <- chunk_loop fit_chunk orders' ;;
      Some (fst r :: fst rest, snd r :: snd rest)
  end.

(** Lines 187-189:
    [ii = np.isfinite(e_rv); RV = np.mean(rv[ii]);
     e_RV = np.std(rv[ii])/(ii.sum()-1)**0.5]. *)
Definition aggregate (rv e_rv : list Float.t) : Float.t * Float.t :=
  let ii := map Float.isfinite e_rv in
  let RV := Float.mean (Float.select rv ii) in
  let count := Z.of_nat (length (filter (fun b => b) ii)) in
  let e_RV := Float.div (Float.std (Float.select rv ii))
                        (Float.pow_half (Float.of_Z (count - 1))) in
  (RV, e_RV).

Definition main (fit_chunk : Z -> option (Float.t * Float.t)) (orders : list Z)
    : option result :=
  arrays <- chunk_loop fit_chunk orders ;;
  let agg := aggregate (fst arrays) (snd arrays) in
  Some {| RV := fst agg; e_RV := snd agg;
          rv := fst arrays; e_rv := snd arrays |}.

(** [orders = np.arange(18,30)] *)
Definition orders : list Z := NpArr.arange 18 30.


End viper.


Definition valid_rvs (outcomes : list (option (Float.t * Float.t))) : list Float.t :=
  flat_map (fun o => match o with
                     | Some (v, e) => if Float.isfinite e then [v] else []
                     | None => []
                     end) outcomes.



(** Two chunks: order 18 comes back with an infinite covariance (and the
    value 7.0 the solver stopped at), order 19 gives 3.0 +- 0.2. *)
Definition chunks_one_singular (o : Z) : option (Float.t * Float.t) :=
  if (o =? 18)%Z then Some (Float.Fin 7, Float.PInf)
  else Some (Float.Fin 3, Float.Fin 0.2).

(** ** Store-passing semantics of the model's methods

    NumPy arrays are objects with identity: [a *= b] and [a /= b] write into
    the array [a] itself, and two names may refer to one array.  To follow
    what a method does to the model object, the methods are read a second
    time over a store: a heap of one-dimensional arrays addressed by location
    and the attribute dictionary of [self].  An exception leaves the state as
    it was when it was raised. *)

Module St.

Definition loc : Type := nat.

(** The attributes of a [model] or [model_bnd] object.  Array attributes
    hold references; [lnwave_j_eff] is the view [lnwave_j[start:stop]] of
    the grid; [x], [bnd], [BBxjl] and [Bxk] exist once [model_bnd.base] ran. *)
Record object : Type := {
  xcen : R;
  S_star : R -> option R;
  lnwave_j : loc;
  spec_cell_j : loc;
  fluxes_molec : list loc;
  IP : ip_attr;
  dx : R;
  IP_hs : Z;
  vk : loc;
  lnwave_j_eff : loc * Z * Z;
  func_norm : R -> list R -> R;
  x : option loc;
  bnd : option (list (list Z));
  BBxjl : option (list (list (list R)));
  Bxk : option (list (list R))
}.

Record state : Type := {
  heap : list (list R);
  self : object
}.

Inductive outcome (A : Type) : Type :=
| Ok (a : A)
| Error.

Arguments Ok {A} a.
Arguments Error {A}.

(** Computations over the store. *)
Definition M (A : Type) : Type := state -> outcome A * state.

Definition ret {A : Type} (a : A) : M A := fun s => (Ok a, s).

Definition raise {A : Type} : M A := fun s => (Error, s).

Definition sbind {A B : Type} (m : M A) (k : A -> M B) : M B :=
  fun s => match m s with
           | (Ok a, s') => k a s'
           | (Error, s') => (Error, s')
           end.

Notation "x <~ e ;; k" := (sbind e (fun x => k))
  (at level 61, e at next level, right associativity).

(** A pure step that may raise. *)
Definition lift {A : Type} (o : option A) : M A :=
  match o with
  | Some a => ret a
  | None => raise
  end.

(** A new array object. *)
Definition alloc (v : list R) : M loc :=
  fun s => (Ok (length (heap s)), {| heap := heap s ++ [v]; self := self s |}).

Definition read (l : loc) : M (list R) :=
  fun s => match nth_error (heap s) l with
           | Some v => (Ok v, s)
           | None => (Error, s)
           end.

(** Overwriting the contents of the array at [l]. *)
Definition write (l : loc) (v : list R) : M unit :=
  fun s => if Nat.ltb l (length (heap s)) then
             (Ok tt, {| heap := firstn l (heap s) ++ v :: skipn (S l) (heap s);
                        self := self s |})
           else (Error, s).

Definition get_self : M object := fun s => (Ok (self s), s).

Definition set_self (o : object) : M unit :=
  fun s => (Ok tt, {| heap := heap s; self := o |}).

(** [a *= b] on the array at [a]. *)
Definition imul (a : loc) (b : list R) : M unit :=
  cur <~ read a ;;
  r <~ lift (NpArr.iop Rmult cur b) ;;
  write a r.

(** One of the kernel functions run on the array at [vk]: the array before
    normalisation is a new array, and [IP_k /= IP_k.sum()] writes into it. *)
Definition kernel (f : ip_name) (vk : loc) (coeff_ip : list R) : M loc :=
  k <~ lift (bind_kernel f coeff_ip) ;;
  v <~ read vk ;;
  IP_k <~ alloc (unnormalised k v) ;;
  cur <~ read IP_k ;;
  _ <~ write IP_k (Np.idiv cur (Np.sum cur)) ;;
  ret IP_k.

(** The loop of lines 124-125 on the array at [flux_atm]. *)
Fixpoint flux_atm_loop (flux_atm : loc) (pairs : list (R * loc)) : M unit :=
  match pairs with
  | [] => ret tt
  | (coeff_mol, flux_mol) :: pairs' =>
      t <~ read flux_mol ;;
      _ <~ imul flux_atm (map (fun v => Np.power v (Rabs coeff_mol)) t) ;;
      flux_atm_loop flux_atm pairs'
  end.

(** Lines 119-131: the array [spec_gas]. *)
Definition spec_gas (coeff_atm : list R) : M loc :=
  o <~ get_self ;;
  cell <~ read (spec_cell_j o) ;;
  spec_gas <~ alloc (map (fun v => 1 * v) cell) ;;
  match fluxes_molec o with
  | [] => ret spec_gas
  | first :: _ =>
      f <~ read first ;;
      flux_atm <~ alloc (NpArr.ones (length f)) ;;
      _ <~ flux_atm_loop flux_atm (combine coeff_atm (fluxes_molec o)) ;;
      flux_atm <~
        (if Nat.eqb (length coeff_atm) (length (fluxes_molec o) + 1) then
           v <~ lift (Py.last coeff_atm) ;;
           grid <~ read (lnwave_j o) ;;
           cur <~ read flux_atm ;;
           r <~ lift (NpArr.interp grid
                        (map (fun g => g - ln (1 + v / c)) grid) cur) ;;
           alloc r
         else ret flux_atm) ;;
      fa <~ read flux_atm ;;
      _ <~ imul spec_gas fa ;;
      ret spec_gas
  end.

(** [__call__]: the predicted spectrum, as a new array. *)
Definition call (pixel : loc) (rv : R)
    (coeff_norm coeff_wave coeff_ip coeff_atm coeff_bkg : list R) : M loc :=
  o <~ get_self ;;
  spec_gas <~ spec_gas coeff_atm ;;
  IP_k <~ match IP o with
          | IP_function f => kernel f (vk o) coeff_ip
          | IP_array _ => raise
          end ;;
  kern <~ read IP_k ;;
  grid <~ read (lnwave_j o) ;;
  star <~ lift (mapM (S_star o) (map (fun g => g - rv / c) grid)) ;;
  gas <~ read spec_gas ;;
  bkg0 <~ lift (Py.index coeff_bkg 0) ;;
  signal <~ lift (NpArr.binop Rmult star (map (fun g => g + bkg0) gas)) ;;
  Sj_eff <~ lift (NpArr.convolve_valid kern signal) ;;
  px <~ read pixel ;;
  let lnwave_obs := map (fun p => ln (poly (p - xcen o) coeff_wave)) px in
  base <~ read (fst (fst (lnwave_j_eff o))) ;;
  let eff := Py.slice (snd (fst (lnwave_j_eff o))) (snd (lnwave_j_eff o)) base in
  Si_eff <~ lift (NpArr.interp lnwave_obs eff Sj_eff) ;;
  Si_mod <~ lift (NpArr.binop Rmult
                    (map (fun p => func_norm o (p - xcen o) coeff_norm) px) Si_eff) ;;
  alloc Si_mod.

(** The evaluator on the positional arguments of a call. *)
Definition call_positional (pixel : loc) (args : list pyarg) : M loc :=
  a <~ lift (bind_call args) ;;
  match rv a, coeff_norm a, coeff_wave a, coeff_ip a, coeff_atm a, coeff_bkg a with
  | Scalar v, Tuple cn, Tuple cw, Tuple ci, Tuple ca, Tuple cb =>
      call pixel v cn cw ci ca cb
  | _, _, _, _, _, _ => raise
  end.

(** [scipy.optimize.curve_fit] seen from the model: a strategy that asks
    for the model at parameter vectors of its choice, each answer deciding
    how it goes on, until it returns the best-fit parameters with their
    covariance or raises. *)
Inductive solver : Type :=
| Converged (params : list R) (e_params : list (list Float.t))
| Failed
| Evaluate (params : list R) (k : list R -> solver).

Fixpoint run_solver (f : list R -> M loc) (s : solver)
    : M (list R * list (list Float.t)) :=
  match s with
  | Converged params e_params => ret (params, e_params)
  | Failed => raise
  | Evaluate params k =>
      y <~ f params ;;
      v <~ read y ;;
      run_solver f (k v)
  end.

(** The keyword arguments of [show] that [fit] passes on. *)
Record show_kwargs : Type := {
  res : option bool;
  x2 : option (list R);
  show_dx : option R;
  rel_fac : option R
}.

(** [np.arange(lo, hi, step)] on floats: [ceil((hi - lo)/step)] values. *)
Definition arange_step (lo hi step : R) : list R :=
  map (fun k => lo + INR k * step)
      (seq 0 (Z.to_nat (1 - up (- ((hi - lo) / step))))).

(** [x.min()] and [x.max()]; ValueError on an empty array. *)
Definition amin (a : list R) : option R :=
  match a with
  | [] => None
  | v :: a' => Some (fold_left Rmin a' v)
  end.

Definition amax (a : list R) : option R :=
  match a with
  | [] => None
  | v :: a' => Some (fold_left Rmax a' v)
  end.

(** [show]: the model is evaluated at the pixels, and on a finer grid when
    [dx] is given; residuals are formed when asked for.  The plotting
    commands receive copies of the numbers and are left out. *)
Definition show (params : list pyarg) (x y : loc) (kw : show_kwargs) : M unit :=
  ymod <~ call_positional x params ;;
  _ <~ match show_dx kw with
       | Some dx =>
           if Req_dec_T dx 0 then ret tt
           else
             xv <~ read x ;;
             lo <~ lift (amin xv) ;;
             hi <~ lift (amax xv) ;;
             xx <~ alloc (arange_step lo hi dx) ;;
             _ <~ call_positional xx params ;;
             ret tt
       | None => ret tt
       end ;;
  let res := match res kw with Some b => b | None => true end in
  let rel := match rel_fac kw with
             | Some r => if Req_dec_T r 0 then false else true
             | None => false
             end in
  if orb res rel then
    yv <~ read y ;;
    ym <~ read ymod ;;
    _ <~ lift (NpArr.binop (if rel then Rdiv else Rminus) yv ym) ;;
    ret tt
  else ret tt.

Section Fit.

(** [curve_fit(S_model, pixel, spec_obs, p0=..., sigma=sig, ...)]: the
    strategy the solver follows on these data. *)
Variable curve_fit : list R -> list R -> list R -> list R -> solver.

(** [fit]: [kwargs] is [None] when no further keyword is given. *)
Definition fit (pixel spec_obs : loc) (p : fit_pars) (sig : list R)
    (kwargs : option show_kwargs) : M (list pyarg * list (list Float.t)) :=
  let S_model := fun params => call_positional pixel (grouped p params) in
  xdata <~ read pixel ;;
  ydata <~ read spec_obs ;;
  r <~ run_solver S_model (curve_fit xdata ydata (p0 p) sig) ;;
  let params := grouped p (fst r) in
  _ <~ match kwargs with
       | Some kw => show params pixel spec_obs kw
       | None => ret tt
       end ;;
  ret (params, snd r).

End Fit.

(** *** The forward model with band matrix ([class model_bnd]) *)

(** [a[i]] for an integer index: negative indices count from the end,
    IndexError out of range. *)
Definition take1 (a : list R) (i : Z) : option R :=
  let n := Z.of_nat (length a) in
  if ((0 <=? i) && (i <? n))%Z then nth_error a (Z.to_nat i)
  else if ((- n <=? i) && (i <? 0))%Z then nth_error a (Z.to_nat (i + n))
  else None.

(** [a[idx]] for a two-dimensional index array. *)
Definition take2 (a : list R) (idx : list (list Z)) : option (list (list R)) :=
  mapM (mapM (take1 a)) idx.

(** [astype(int)]: truncation towards zero. *)
Definition trunc (r : R) : Z :=
  if Rle_dec 0 r then Int_part r else (- Int_part (- r))%Z.

(** [np.vander(v, n)[:,::-1]]: the powers [v**0 .. v**(n-1)] row by row. *)
Definition vander_rev (v : list R) (n : nat) : list (list R) :=
  map (fun vi => map (fun k => vi ^ k) (seq 0 n)) v.

(** [np.einsum('xj,xjl,xk->xkl', A, BB, B)]; ValueError when the [x] or
    [j] axes disagree. *)
Definition einsum_row (A_x : list R) (BB_x : list (list R)) (B_x : list R)
    : option (list (list R)) :=
  if Nat.eqb (length A_x) (length BB_x) then
    Some (map (fun bk =>
                 map (fun l => Np.sum (map (fun p => fst p * nth l (snd p) 0 * bk)
                                         (combine A_x BB_x)))
                     (seq 0 (length (hd [] BB_x))))
              B_x)
  else None.

Fixpoint einsum (A : list (list R)) (BB : list (list (list R)))
    (B : list (list R)) : option (list (list (list R))) :=
  match A, BB, B with
  | [], [], [] => Some []
  | A_x :: A', BB_x :: BB', B_x :: B' =>
      r <- einsum_row A_x BB_x B_x ;;
      rs <- einsum A' BB' B' ;;
      Some (r :: rs)
  | _, _, _ => None
  end.

(** [Axkl.reshape((len(Axkl), -1))]: one row for every [x]; ValueError
    when there is no [x] at all, the length of the rows being unknown then. *)
Definition reshape_rows (Axkl : list (list (list R))) : option (list (list R)) :=
  match Axkl with
  | [] => None
  | _ :: _ => Some (map (@concat R) Axkl)
  end.

(** [M @ ak]; ValueError when a row and [ak] differ in length. *)
Definition matvec (m : list (list R)) (ak : list R) : option (list R) :=
  mapM (fun row => if Nat.eqb (length row) (length ak) then Some (Np.dot row ak)
                   else None) m.

(** The keyword arguments of [base]; a missing one is [None]. *)
Record base_kwargs : Type := {
  kw_x : option loc;
  kw_degk : option nat;
  kw_sig_k : option R
}.

(** [if kwargs:] *)
Definition given (kw : base_kwargs) : bool :=
  match kw_x kw, kw_degk kw, kw_sig_k kw with
  | None, None, None => false
  | _, _, _ => true
  end.

Definition set_x (v : option loc) : M unit :=
  o <~ get_self ;;
  set_self {| xcen := xcen o; S_star := S_star o; lnwave_j := lnwave_j o;
              spec_cell_j := spec_cell_j o; fluxes_molec := fluxes_molec o;
              IP := IP o; dx := dx o; IP_hs := IP_hs o; vk := vk o;
              lnwave_j_eff := lnwave_j_eff o; func_norm := func_norm o;
              x := v; bnd := bnd o; BBxjl := BBxjl o; Bxk := Bxk o |}.

Definition set_bnd (v : list (list Z)) : M unit :=
  o <~ get_self ;;
  set_self {| xcen := xcen o; S_star := S_star o; lnwave_j := lnwave_j o;
              spec_cell_j := spec_cell_j o; fluxes_molec := fluxes_molec o;
              IP := IP o; dx := dx o; IP_hs := IP_hs o; vk := vk o;
              lnwave_j_eff := lnwave_j_eff o; func_norm := func_norm o;
              x := x o; bnd := Some v; BBxjl := BBxjl o; Bxk := Bxk o |}.

Definition set_BBxjl (v : list (list (list R))) : M unit :=
  o <~ get_self ;;
  set_self {| xcen := xcen o; S_star := S_star o; lnwave_j := lnwave_j o;
              spec_cell_j := spec_cell_j o; fluxes_molec := fluxes_molec o;
              IP := IP o; dx := dx o; IP_hs := IP_hs o; vk := vk o;
              lnwave_j_eff := lnwave_j_eff o; func_norm := func_norm o;
              x := x o; bnd := bnd o; BBxjl := Some v; Bxk := Bxk o |}.

Definition set_Bxk (v : list (list R)) : M unit :=
  o <~ get_self ;;
  set_self {| xcen := xcen o; S_star := S_star o; lnwave_j := lnwave_j o;
              spec_cell_j := spec_cell_j o; fluxes_molec := fluxes_molec o;
              IP := IP o; dx := dx o; IP_hs := IP_hs o; vk := vk o;
              lnwave_j_eff := lnwave_j_eff o; func_norm := func_norm o;
              x := x o; bnd := bnd o; BBxjl := BBxjl o; Bxk := Some v |}.

(** [base(self, x=None, degk=3, sig_k=1)]: setup of the base functions. *)
Definition base (kw : base_kwargs) : M unit :=
  let degk := match kw_degk kw with Some n => n | None => 3%nat end in
  let sig_k := match kw_sig_k kw with Some v => v | None => 1 end in
  _ <~ set_x (kw_x kw) ;;
  o <~ get_self ;;
  bg <~ match IP o with
        | IP_array bg => ret bg
        | IP_function _ => raise
        end ;;
  xl <~ lift (kw_x kw) ;;
  xv <~ read xl ;;
  let lnwave_obs := map (fun p => ln (NpArr.polyval (rev bg) (p - xcen o))) xv in
  grid <~ read (lnwave_j o) ;;
  let j := Np.arange (length grid) in
  jx <~ lift (NpArr.interp lnwave_obs grid j) ;;
  let vl := [-1.4; -0.7; 0; 0.7; 1.4] in
  let bnd := map (fun v => map (fun k => (trunc v + k)%Z)
                             (NpArr.arange (- IP_hs o) (IP_hs o + 1))) jx in
  _ <~ set_bnd bnd ;;
  gb <~ lift (take2 grid bnd) ;;
  _ <~ set_BBxjl
         (map (fun p =>
                 map (fun g =>
                        map (fun v => exp (- (g - snd p + sig_k * v) ^ 2 / sig_k ^ 2)) vl)
                     (fst p))
              (combine gb lnwave_obs)) ;;
  let mean := Np.sum xv / INR (length xv) in
  set_Bxk (vander_rev (map (fun p => p - mean) xv) degk).

(** [Axk(self, v, **kwargs)] *)
Definition Axk (v : R) (kw : base_kwargs) : M (list (list (list R))) :=
  _ <~ (if given kw then base kw else ret tt) ;;
  o <~ get_self ;;
  grid <~ read (lnwave_j o) ;;
  starj <~ lift (mapM (S_star o) (map (fun g => g - v / c) grid)) ;;
  cell <~ read (spec_cell_j o) ;;
  prod <~ lift (NpArr.binop Rmult starj cell) ;;
  idx <~ lift (bnd o) ;;
  A <~ lift (take2 prod idx) ;;
  BB <~ lift (BBxjl o) ;;
  B <~ lift (Bxk o) ;;
  lift (einsum A BB B).

Section Lstsq.

(** [np.linalg.lstsq(a, b, rcond=1e-32)] *)
Variable lstsq_result : Type.
Variable lstsq : list (list R) -> list R -> option lstsq_result.

(** [model_bnd.fit(self, f, v, **kwargs)] *)
Definition fit_bnd (f : loc) (v : R) (kw : base_kwargs) : M lstsq_result :=
  Axkl <~ Axk v kw ;;
  rows <~ lift (reshape_rows Axkl) ;;
  fv <~ read f ;;
  lift (lstsq rows fv).

End Lstsq.

(** [model_bnd.__call__(self, x, v, ak, **kwargs)].  The parameter [x] is
    filled by the caller's first argument, so a further keyword argument
    [x=...] is a TypeError (two values for [x]) raised before the body
    runs; [kwargs] can hold [degk] and [sig_k] only, and [base] then gets
    no [x]. *)
Definition call_bnd (x : loc) (v : R) (ak : list R) (kw : base_kwargs) : M loc :=
  match kw_x kw with
  | Some _ => raise
  | None =>
      Axkl <~ Axk v kw ;;
      rows <~ lift (reshape_rows Axkl) ;;
      fx <~ lift (matvec rows ak) ;;
      alloc fx
  end.

End St.

(** ** What a method leaves unchanged *)

(** The model object has the same attributes after as before, and every
    array that existed before holds the same values. *)
Definition unchanged (s s' : St.state) : Prop :=
  St.self s' = St.self s /\
  forall l v, nth_error (St.heap s) l = Some v -> nth_error (St.heap s') l = Some v.

(** The attributes set by [model.__init__] are the same after as before. *)
Definition same_model_attributes (o o' : St.object) : Prop :=
  St.xcen o' = St.xcen o /\ St.S_star o' = St.S_star o /\
  St.lnwave_j o' = St.lnwave_j o /\ St.spec_cell_j o' = St.spec_cell_j o /\
  St.fluxes_molec o' = St.fluxes_molec o /\ St.IP o' = St.IP o /\
  St.dx o' = St.dx o /\ St.IP_hs o' = St.IP_hs o /\ St.vk o' = St.vk o /\
  St.lnwave_j_eff o' = St.lnwave_j_eff o /\ St.func_norm o' = St.func_norm o.

(** The same, and every array that existed before holds the same values. *)
Definition model_unchanged (s s' : St.state) : Prop :=
  same_model_attributes (St.self s) (St.self s') /\
  forall l v, nth_error (St.heap s) l = Some v -> nth_error (St.heap s') l = Some v.

(** From any state with at least [n0] arrays, [m] keeps the attributes of
    [self] within the relation [Robj], keeps the first [n0] arrays as they
    are, frees none, and a value it returns satisfies [Q]. *)
Definition safe (Robj : St.object -> St.object -> Prop) {A : Type} (n0 : nat)
    (m : St.M A) (Q : A -> Prop) : Prop :=
  forall s, (n0 <= length (St.heap s))%nat ->
    Robj (St.self s) (St.self (snd (m s))) /\
    (n0 <= length (St.heap (snd (m s))))%nat /\
    firstn n0 (St.heap (snd (m s))) = firstn n0 (St.heap s) /\
    forall a, fst (m s) = St.Ok a -> Q a.

(** A [model_bnd] object on a three-knot grid (array 0) with a flat cell
    spectrum (array 1) and [IP_hs=0] (array 3 is [vk]), before [base] has
    run; array 2 holds two pixels. *)
Definition bnd_state : St.state :=
  {| St.heap := [[0; 1; 2]; [1; 1; 1]; [0; 1]; [0]];
     St.self := {| St.xcen := 0; St.S_star := fun _ => Some 1;
                   St.lnwave_j := 0%nat; St.spec_cell_j := 1%nat;
                   St.fluxes_molec := [];
                   St.IP := IP_array [1; 1]; St.dx := 1; St.IP_hs := 0;
                   St.vk := 3%nat; St.lnwave_j_eff := (0%nat, 0%Z, 0%Z);
                   St.func_norm := poly;
                   St.x := None; St.bnd := None; St.BBxjl := None;
                   St.Bxk := None |} |}.

(** The keyword arguments [x=<array 2>]. *)
Definition kwargs_x : St.base_kwargs :=
  {| St.kw_x := Some 2%nat; St.kw_degk := None; St.kw_sig_k := None |}.

(** No keyword argument. *)
Definition no_kwargs : St.base_kwargs :=
  {| St.kw_x := None; St.kw_degk := None; St.kw_sig_k := None |}.

(** ** The model object read out of the store *)

(** The pure model whose arrays are the contents of the arrays [self]
    refers to. *)
Definition snapshot (s : St.state) : option model.t :=
  let o := St.self s in
  let h := St.heap s in
  grid <- nth_error h (St.lnwave_j o) ;;
  cell <- nth_error h (St.spec_cell_j o) ;;
  fluxes <- mapM (nth_error h) (St.fluxes_molec o) ;;
  vk <- nth_error h (St.vk o) ;;
  base <- nth_error h (fst (fst (St.lnwave_j_eff o))) ;;
  Some (model.Build (St.xcen o) (St.S_star o) grid cell fluxes (St.IP o)
          (St.dx o) (St.IP_hs o) vk
          (Py.slice (snd (fst (St.lnwave_j_eff o))) (snd (St.lnwave_j_eff o)) base)
          (St.func_norm o)).

(** [s'] has the attributes of [s] and, below location [n], its arrays. *)
Definition same_below (n : nat) (s s' : St.state) : Prop :=
  St.self s' = St.self s /\
  (n <= length (St.heap s'))%nat /\
  forall l, (l < n)%nat -> nth_error (St.heap s') l = nth_error (St.heap s) l.

(** [m] run from [s] does what the pure step [pure] does: it raises when
    [pure] does, and otherwise returns a value and a state that [post]
    relates to the pure result. *)
Definition refines {A V : Type} (m : St.M A) (s : St.state) (pure : option V)
    (post : V -> A -> St.state -> Prop) : Prop :=
  match pure with
  | Some v => exists a s', m s = (St.Ok a, s') /\ post v a s'
  | None => fst (m s) = St.Error
  end.

(** [s'] is [s] with the array at [a] overwritten by [r]. *)
Definition overwritten (a : St.loc) (r : list R) (s s' : St.state) : Prop :=
  St.self s' = St.self s /\
  length (St.heap s') = length (St.heap s) /\
  nth_error (St.heap s') a = Some r /\
  forall l, l <> a -> nth_error (St.heap s') l = nth_error (St.heap s) l.

(** *** [model_bnd.IPxj] *)

(** [a.reshape(K, -1)] of an array read in C order: [K] rows of [size/K]
    values; ValueError when [K] is zero or does not divide the size. *)
Fixpoint rows_of (L n : nat) (a : list R) : list (list R) :=
  match n with
  | O => []
  | S n' => firstn L a :: rows_of L n' (skipn L a)
  end.

Definition reshape (K : nat) (a : list R) : option (list (list R)) :=
  if Nat.eqb K 0 then None
  else if Nat.eqb (Nat.modulo (length a) K) 0
       then Some (rows_of (Nat.div (length a) K) K a)
       else None.

(** [np.einsum('xjl,xk,kl->xj', BB, B, akl)] for one [x]: for every [j] the
    sum over [l] and [k] of [BB[x,j,l] * B[x,k] * akl[k,l]]; ValueError
    when the [k] or [l] axes disagree. *)
Definition einsum_xj_row (BB_x : list (list R)) (B_x : list R)
    (akl : list (list R)) : option (list R) :=
  let L := length (hd [] akl) in
  if Nat.eqb (length B_x) (length akl)
     && forallb (fun bb => Nat.eqb (length bb) L) BB_x then
    Some (map (fun bb =>
                 Np.sum (map (fun l =>
                                Np.sum (map (fun k => nth l bb 0 * nth k B_x 0
                                                      * nth l (nth k akl []) 0)
                                            (seq 0 (length akl))))
                             (seq 0 L)))
              BB_x)
  else None.

Fixpoint einsum_xj (BB : list (list (list R))) (B : list (list R))
    (akl : list (list R)) : option (list (list R)) :=
  match BB, B with
  | [], [] => Some []
  | BB_x :: BB', B_x :: B' =>
      r <- einsum_xj_row BB_x B_x akl ;;
      rs <- einsum_xj BB' B' akl ;;
      Some (r :: rs)
  | _, _ => None
  end.

(** [IPxj(self, akl, **kwargs)]: the kernel of every pixel on its band,
    summed over the Gaussians.  [self.Bxk.shape[1]] is read off the first
    row of the basis, so the method is modelled for a basis of at least one
    pixel. *)
Definition IPxj (akl : list R) (kw : St.base_kwargs) : St.M (list (list R)) :=
  St.sbind (if St.given kw then St.base kw else St.ret tt) (fun _ =>
  St.sbind St.get_self (fun o =>
  St.sbind (St.lift (St.BBxjl o)) (fun BB =>
  St.sbind (St.lift (St.Bxk o)) (fun B =>
  St.sbind (St.lift (reshape (length (hd [] B)) akl)) (fun a =>
  St.lift (einsum_xj BB B a)))))).

(** ** The CRIRES+ instrument module ([inst/inst_CRIRES.py])

    The orders of the three detectors are numbered 1, 2, 3, ... across the
    detectors; the pipeline's FITS files hold one table per detector, with
    columns named after the pipeline's own order number. *)

Module Python.

(** [str(n)] for an integer. *)
Definition str (n : Z) : string := NilZero.string_of_int (Z.to_int n).

(** [s.split(sep)] for a separator of one character. *)
Fixpoint split (sep : ascii) (s : string) : list string :=
  match s with
  | EmptyString => [EmptyString]
  | String a s' =>
      if Ascii.eqb a sep then EmptyString :: split sep s'
      else match split sep s' with
           | p :: ps => String a p :: ps
           | [] => [String a EmptyString]
           end
  end.

(** [int(s)] for a string of decimal digits with an optional leading minus
    sign.  [None] is the ValueError of a string that is no number; strings
    with white space, a plus sign or underscores between digits are outside
    the part of [int] that is modelled, and are [None] too. *)
Definition int (s : string) : option Z :=
  option_map Z.of_int (NilZero.int_of_string s).

End Python.

Module inst_CRIRES.

(** Lines 44-46 of [Spectrum] and 147-149 of [Tpl]:
    [order_drs, detector = divmod(order-1, 3); order_drs = 7 - order_drs;
     detector += 1]. *)
Definition drs_detector (order : Z) : Z * Z :=
  let order_drs := ((order - 1) / 3)%Z in
  let detector := ((order - 1) mod 3)%Z in
  let order_drs := (7 - order_drs)%Z in
  let detector := (detector + 1)%Z in
  (order_drs, detector).

(** The column names ["0"+str(order_drs)+"_01_SPEC"], [..."_01_ERR"] and
    [..."_01_WL"]. *)
Definition column (order_drs : Z) (suffix : string) : string :=
  ("0" ++ Python.str order_drs ++ suffix)%string.

(** Lines 232-233 and 303-304 of [write_fits_cpl] and [write_fits_nocpl]:
    [odrs = int(cc.split('_')[0]); o = (7-odrs)*3 + detector]. *)
Definition odrs_of_column (cc : string) : option Z :=
  piece <- nth_error (Python.split "_"%char cc) 0 ;; Python.int piece.

Definition order_of (odrs detector : Z) : Z := ((7 - odrs) * 3 + detector)%Z.

End inst_CRIRES.

(** ** Further states used as examples *)

(** The [model_bnd] object of [bnd_state] with a single pixel (array 2). *)
Definition bnd_state_one_pixel : St.state :=
  {| St.heap := [[0; 1; 2]; [1; 1; 1]; [0]; [0]];
     St.self := St.self bnd_state |}.

(** The model [model_one_absorber] laid out in a store: the grid (array 0),
    the cell spectrum (1), the absorber template (2), [vk] (3) and an array
    of two pixels (4). *)
Definition one_absorber_state : St.state :=
  {| St.heap := [[0; 1; 2; 3]; [1; 1; 1; 1]; [0.5; 0.5; 0.5; 0.5];
                 map (fun k => IZR k * (1 - 0) * c) (NpArr.arange (- (1)) (1 + 1));
                 [1; 2]];
     St.self := {| St.xcen := 0; St.S_star := fun _ => Some 1;
                   St.lnwave_j := 0%nat; St.spec_cell_j := 1%nat;
                   St.fluxes_molec := [2%nat];
                   St.IP := IP_function ip_g; St.dx := 1 - 0; St.IP_hs := 1;
                   St.vk := 3%nat; St.lnwave_j_eff := (0%nat, 1%Z, (- (1))%Z);
                   St.func_norm := poly;
                   St.x := None; St.bnd := None; St.BBxjl := None;
                   St.Bxk := None |} |}.

(** * Part II: properties *)

(** ** Sums and normalisation *)

Lemma sum_app a b : Np.sum (a ++ b) = Np.sum a + Np.sum b.
Proof.
  induction a as [|x a IH]; simpl; [lra|]. rewrite IH. lra.
Qed.

Lemma sum_idiv a s : Np.sum (Np.idiv a s) = Np.sum a / s.
Proof.
  unfold Np.idiv. induction a as [|x a IH]; simpl.
  - unfold Rdiv. lra.
  - rewrite IH. unfold Rdiv. lra.
Qed.

Lemma length_idiv a s : length (Np.idiv a s) = length a.
Proof. apply length_map. Qed.

Lemma erf_0 : erf 0 = 0.
Proof. unfold erf. rewrite RiemannInt_P9. lra. Qed.

(** ** Properties of the kernels *)

Lemma normalise_length l : length (normalise l) = length l.
Proof. apply length_idiv. Qed.

Lemma normalise_sum l : Np.sum l <> 0 -> Np.sum (normalise l) = 1.
Proof.
  intros H. unfold normalise. rewrite sum_idiv. now field.
Qed.

Lemma unnormalised_length k vk : length (unnormalised k vk) = length vk.
Proof.
  destruct k; simpl;
    unfold IP_k_g, IP_k_sg, IP_k_ag, IP_k_bg, IP_k_mcg, IP_k_mg;
    cbv zeta; now rewrite ?length_map.
Qed.

Lemma run_kernel_normalise k vk : run_kernel k vk = normalise (unnormalised k vk).
Proof. now destruct k. Qed.

Lemma run_kernel_length k vk : length (run_kernel k vk) = length vk.
Proof.
  now rewrite run_kernel_normalise, normalise_length, unnormalised_length.
Qed.

(** C1. Every kernel variant returns an array as long as the velocity grid,
    and when the sum of the array before normalisation is not zero the
    elements of the returned kernel sum to one. *)
Theorem kernel_unit_sum (k : kernel_call) (vk : list R) :
  Np.sum (unnormalised k vk) <> 0 ->
  length (run_kernel k vk) = length vk /\ Np.sum (run_kernel k vk) = 1.
Proof.
  intros H. split.
  - apply run_kernel_length.
  - rewrite run_kernel_normalise. now apply normalise_sum.
Qed.

Lemma kernel_unit_sum_witness :
  Np.sum (unnormalised (Call_IP 1) [0]) <> 0 /\
  length (run_kernel (Call_IP 1) [0]) = length [0] /\
  Np.sum (run_kernel (Call_IP 1) [0]) = 1.
Proof.
  assert (H : Np.sum (unnormalised (Call_IP 1) [0]) <> 0).
  { unfold unnormalised, IP_k_g, Np.sum, map, fold_right.
    match goal with |- exp ?x + 0 <> 0 => pose proof (exp_pos x) end. lra. }
  split; [exact H|]. exact (kernel_unit_sum (Call_IP 1) [0] H).
Defined.

(** C8. With asymmetry parameter [a = 0] the skewed Gaussian is the plain
    Gaussian of the same width, on every velocity grid. *)
Theorem IP_ag_zero_is_IP (vk : list R) (s : R) : IP_ag vk s 0 = IP vk s.
Proof.
  unfold IP_ag, IP. f_equal.
  unfold IP_k_ag, IP_k_g. cbv zeta. rewrite map_map.
  apply map_ext. intros v.
  set (b := 0 / sqrt (1 + 0 ^ 2) * sqrt (2 / PI)).
  assert (Hb : b = 0) by (unfold b, Rdiv; ring).
  rewrite Hb. clear b Hb.
  replace (1 - 0 ^ 2) with 1 by ring.
  rewrite sqrt_1.
  replace (s / 1) with s by (unfold Rdiv; rewrite Rinv_1; ring).
  replace (v + s * 0) with v by ring.
  replace (0 / sqrt 2 * (v / s)) with 0 by (unfold Rdiv; ring).
  rewrite erf_0, Rplus_0_r, Rmult_1_r. reflexivity.
Qed.

(** ** Lengths of the arrays that flow through the evaluator *)

Lemma arange_length lo hi : length (NpArr.arange lo hi) = Z.to_nat (hi - lo).
Proof. unfold NpArr.arange. now rewrite length_map, length_seq. Qed.

Lemma slice_length (A : Type) (start stop : Z) (l : list A) :
  length (Py.slice start stop l) =
  (Py.clip_bound (length l) stop - Py.clip_bound (length l) start)%nat.
Proof.
  unfold Py.slice. rewrite length_firstn, length_skipn.
  assert (Py.clip_bound (length l) stop <= length l)%nat.
  { unfold Py.clip_bound. destruct (stop <? 0)%Z eqn:E; [apply Z.ltb_lt in E|]; lia. }
  lia.
Qed.

Lemma correlate_valid_length a w :
  length (NpArr.correlate_valid a w) = (length a - length w + 1)%nat.
Proof. unfold NpArr.correlate_valid. now rewrite length_map, length_seq. Qed.

Lemma convolve_valid_length a v :
  a <> [] -> v <> [] ->
  exists r, NpArr.convolve_valid a v = Some r /\
            length r = (Nat.max (length a) (length v)
                        - Nat.min (length a) (length v) + 1)%nat.
Proof.
  intros Ha Hv. destruct a as [|x a]; [easy|]. destruct v as [|y v]; [easy|].
  unfold NpArr.convolve_valid.
  destruct (Nat.ltb (length (x :: a)) (length (y :: v))) eqn:E.
  - apply Nat.ltb_lt in E. eexists; split; [reflexivity|].
    rewrite correlate_valid_length, length_rev. lia.
  - apply Nat.ltb_ge in E. eexists; split; [reflexivity|].
    rewrite correlate_valid_length, length_rev. lia.
Qed.

Lemma zip_map_length (f : R -> R -> R) a b :
  length a = length b ->
  length (map (fun p => f (fst p) (snd p)) (combine a b)) = length a.
Proof. intros H. rewrite length_map, length_combine. lia. Qed.

Lemma iop_same_length f a b :
  length b = length a ->
  exists r, NpArr.iop f a b = Some r /\ length r = length a.
Proof.
  intros H. unfold NpArr.iop. rewrite H, Nat.eqb_refl.
  eexists; split; [reflexivity|]. apply zip_map_length. now symmetry.
Qed.

Lemma iop_length f a b r : NpArr.iop f a b = Some r -> length r = length a.
Proof.
  unfold NpArr.iop. destruct (Nat.eqb (length a) (length b)) eqn:E.
  - apply Nat.eqb_eq in E. intros [= <-]. now apply zip_map_length.
  - destruct b as [|y [|? ?]]; try discriminate. intros [= <-]. apply length_map.
Qed.

Lemma binop_same_length f a b :
  length a = length b ->
  exists r, NpArr.binop f a b = Some r /\ length r = length a.
Proof.
  intros H. unfold NpArr.binop. rewrite H, Nat.eqb_refl.
  eexists; split; [reflexivity|]. rewrite <- H. now apply zip_map_length.
Qed.

Lemma interp_length x xp fp :
  xp <> [] -> length xp = length fp ->
  exists r, NpArr.interp x xp fp = Some r /\ length r = length x.
Proof.
  intros Hne H. destruct xp as [|x0 xp]; [easy|].
  unfold NpArr.interp. rewrite H, Nat.eqb_refl.
  eexists; split; [reflexivity|]. apply length_map.
Qed.

Lemma mapM_length (A B : Type) (f : A -> option B) l :
  Forall (fun x => f x <> None) l ->
  exists r, mapM f l = Some r /\ length r = length l.
Proof.
  induction 1 as [|x l Hx _ IH]; simpl.
  - now exists [].
  - destruct (f x) as [y|] eqn:E; [|easy]. destruct IH as (r & -> & Hr).
    exists (y :: r). simpl. now rewrite Hr.
Qed.

Lemma flux_atm_fold_length (l : list (R * list R)) (acc : list R) :
  Forall (fun p => length (snd p) = length acc) l ->
  exists r, fold_left model.flux_atm_step l (Some acc) = Some r /\
            length r = length acc.
Proof.
  revert acc. induction l as [|p l IH]; intros acc H; simpl.
  - now exists acc.
  - inversion H as [|? ? Hp Hl]; subst.
    destruct (iop_same_length Rmult acc
                (map (fun x => Np.power x (Rabs (fst p))) (snd p))) as (r & Hr & Hlen).
    { now rewrite length_map. }
    rewrite Hr. destruct (IH r) as (r' & Hr' & Hlen').
    { rewrite Hlen. exact Hl. }
    exists r'. split; [exact Hr'|]. now rewrite Hlen'.
Qed.

Lemma Forall_combine_snd (A B : Type) (P : B -> Prop) (a : list A) (b : list B) :
  Forall P b -> Forall (fun p => P (snd p)) (combine a b).
Proof.
  intros H. revert a. induction H as [|y b Hy _ IH]; intros [|x a]; simpl;
    constructor; auto.
Qed.

Lemma last_nonempty (A : Type) (l : list A) :
  l <> [] -> exists x, Py.last l = Some x.
Proof.
  intros H. unfold Py.last. destruct (rev l) as [|x r] eqn:E.
  - apply (f_equal (@length A)) in E. rewrite length_rev in E.
    destruct l; [easy|discriminate].
  - now exists x.
Qed.

(** On a model whose absorber templates and cell spectrum are sampled on the
    grid, [spec_gas] is an array on the grid. *)
Lemma spec_gas_length (self : model.t) (coeff_atm : list R) :
  model.lnwave_j self <> [] ->
  length (model.spec_cell_j self) = length (model.lnwave_j self) ->
  Forall (fun f => length f = length (model.lnwave_j self)) (model.fluxes_molec self) ->
  exists g, model.spec_gas self coeff_atm = Some g /\
            length g = length (model.lnwave_j self).
Proof.
  intros Hne Hcell Hmol. unfold model.spec_gas.
  destruct (model.fluxes_molec self) as [|first rest] eqn:Efl.
  - eexists; split; [reflexivity|]. now rewrite length_map.
  - assert (Hfirst : length first = length (model.lnwave_j self))
      by (now inversion Hmol).
    assert (Hloop : exists r, model.flux_atm_loop self first coeff_atm = Some r /\
                              length r = length (model.lnwave_j self)).
    { unfold model.flux_atm_loop.
      destruct (flux_atm_fold_length (combine coeff_atm (model.fluxes_molec self))
                  (NpArr.ones (length first))) as (r & Hr & Hlen).
      - apply (Forall_combine_snd _ _
                 (fun f => length f = length (NpArr.ones (length first)))).
        rewrite Efl. unfold NpArr.ones.
        rewrite repeat_length. eapply Forall_impl; [|exact Hmol].
        simpl. intros f Hf. congruence.
      - exists r. split; [exact Hr|]. rewrite Hlen. unfold NpArr.ones.
        now rewrite repeat_length. }
    destruct Hloop as (r & Hr & Hlen).
    assert (Hshift : exists r', model.flux_atm_shifted self first coeff_atm = Some r' /\
                                length r' = length (model.lnwave_j self)).
    { unfold model.flux_atm_shifted. rewrite Hr. simpl.
      destruct (Nat.eqb (length coeff_atm) (length (model.fluxes_molec self) + 1)) eqn:E.
      - apply Nat.eqb_eq in E.
        destruct (last_nonempty _ coeff_atm) as (v & Hv).
        { intros ->. simpl in E. lia. }
        rewrite Hv. simpl. apply interp_length.
        + destruct (model.lnwave_j self); [easy|discriminate].
        + now rewrite length_map.
      - now exists r. }
    destruct Hshift as (r' & Hr' & Hlen'). rewrite Hr'. simpl.
    destruct (iop_same_length Rmult (map (fun x => 1 * x) (model.spec_cell_j self)) r')
      as (g & Hg & Hglen).
    { now rewrite length_map, Hcell. }
    exists g. split; [exact Hg|]. now rewrite Hglen, length_map.
Qed.

Lemma init_fields S_star grid cell fluxes ip fn hs xcen self :
  model.init S_star grid cell fluxes ip fn hs xcen = Some self ->
  model.S_star self = S_star /\ model.lnwave_j self = grid /\
  model.spec_cell_j self = cell /\ model.fluxes_molec self = fluxes /\
  model.IP self = ip /\ model.IP_hs self = hs /\
  length (model.vk self) = Z.to_nat (2 * hs + 1) /\
  model.lnwave_j_eff self = Py.slice hs (- hs) grid /\
  (2 <= length grid)%nat.
Proof.
  unfold model.init, Py.index.
  destruct grid as [|x0 [|x1 g]]; cbn [nth_error bind]; try discriminate.
  intros [= <-]. cbn [model.S_star model.lnwave_j model.spec_cell_j
    model.fluxes_molec model.IP model.IP_hs model.vk model.lnwave_j_eff].
  repeat split.
  - rewrite length_map, arange_length. f_equal. lia.
  - cbn [length]. lia.
Qed.

(** The convolution step on a well-formed model: it returns, and its result
    has [N - 2*IP_hs] elements. *)
Lemma Sj_eff_length S_star grid cell fluxes f fn hs xcen self
    rv coeff_ip coeff_atm coeff_bkg :
  model.init S_star grid cell fluxes (IP_function f) fn hs xcen = Some self ->
  (0 <= hs)%Z ->
  (2 * hs + 1 < Z.of_nat (length grid))%Z ->
  length cell = length grid ->
  Forall (fun t => length t = length grid) fluxes ->
  bind_kernel f coeff_ip <> None ->
  Forall (fun x => S_star x <> None) (map (fun x => x - rv / c) grid) ->
  coeff_bkg <> [] ->
  exists Sj, model.Sj_eff self rv coeff_ip coeff_atm coeff_bkg = Some Sj /\
             Z.of_nat (length Sj) = (Z.of_nat (length grid) - 2 * hs)%Z.
Proof.
  intros Hinit Hhs HN Hcell Hmol Hk Hstar Hbkg.
  destruct (init_fields _ _ _ _ _ _ _ _ _ Hinit)
    as (HS & Hg & Hc & Hf & Hip & _ & Hvk & _ & Hlen2).
  unfold model.Sj_eff.
  destruct (spec_gas_length self coeff_atm) as (g & Hgas & Hglen).
  { rewrite Hg. destruct grid; [simpl in Hlen2; lia|discriminate]. }
  { now rewrite Hg, Hc. }
  { now rewrite Hg, Hf. }
  rewrite Hgas. cbn [bind].
  unfold model.kernel, call_IP. rewrite Hip.
  destruct (bind_kernel f coeff_ip) as [k|]; [|easy]. cbn [bind].
  rewrite HS, Hg.
  destruct (mapM_length _ _ S_star _ Hstar) as (star & -> & Hslen). cbn [bind].
  destruct coeff_bkg as [|bkg0 ?]; [easy|]. cbn [bind Py.index nth_error].
  rewrite length_map in Hslen.
  destruct (binop_same_length Rmult star (map (fun x => x + bkg0) g))
    as (signal & -> & Hsig).
  { rewrite length_map. congruence. }
  cbn [bind].
  destruct (convolve_valid_length (run_kernel k (model.vk self)) signal)
    as (Sj & HSj & HSjlen).
  { intros E. apply (f_equal (@length R)) in E.
    rewrite run_kernel_length, Hvk in E. cbn [length] in E. lia. }
  { intros E. apply (f_equal (@length R)) in E. cbn [length] in E. lia. }
  exists Sj. split; [exact HSj|].
  rewrite HSjlen, run_kernel_length, Hvk, Hsig, Hslen. lia.
Qed.

(** The effective grid [lnwave_j[IP_hs:-IP_hs]] for a half size of at least
    one knot. *)
Lemma lnwave_j_eff_length S_star grid cell fluxes ip fn hs xcen self :
  model.init S_star grid cell fluxes ip fn hs xcen = Some self ->
  (1 <= hs)%Z ->
  (2 * hs <= Z.of_nat (length grid))%Z ->
  Z.of_nat (length (model.lnwave_j_eff self)) = (Z.of_nat (length grid) - 2 * hs)%Z.
Proof.
  intros Hinit Hhs HN.
  destruct (init_fields _ _ _ _ _ _ _ _ _ Hinit) as (_ & _ & _ & _ & _ & _ & _ & -> & _).
  rewrite slice_length. unfold Py.clip_bound.
  destruct (- hs <? 0)%Z eqn:E1; [|apply Z.ltb_ge in E1; lia].
  destruct (hs <? 0)%Z eqn:E2; [apply Z.ltb_lt in E2; lia|]. lia.
Qed.

(** For [IP_hs >= 1] the convolved spectrum and the effective grid have the
    same length, so the interpolation onto the pixels is well formed. *)
Lemma Sj_eff_matches_grid S_star grid cell fluxes f fn hs xcen self
    rv coeff_ip coeff_atm coeff_bkg :
  model.init S_star grid cell fluxes (IP_function f) fn hs xcen = Some self ->
  (1 <= hs)%Z ->
  (2 * hs + 1 < Z.of_nat (length grid))%Z ->
  length cell = length grid ->
  Forall (fun t => length t = length grid) fluxes ->
  bind_kernel f coeff_ip <> None ->
  Forall (fun x => S_star x <> None) (map (fun x => x - rv / c) grid) ->
  coeff_bkg <> [] ->
  exists Sj, model.Sj_eff self rv coeff_ip coeff_atm coeff_bkg = Some Sj /\
             Z.of_nat (length Sj) = (Z.of_nat (length grid) - 2 * hs)%Z /\
             length Sj = length (model.lnwave_j_eff self).
Proof.
  intros Hinit Hhs HN Hcell Hmol Hk Hstar Hbkg.
  destruct (Sj_eff_length _ _ _ _ _ _ _ _ _ rv coeff_ip coeff_atm coeff_bkg Hinit)
    as (Sj & HSj & Hlen); auto; [lia|].
  exists Sj. repeat split; auto.
  pose proof (lnwave_j_eff_length _ _ _ _ _ _ _ _ _ Hinit Hhs). lia.
Qed.

(** C2. At [IP_hs = 0] on a grid of two knots (so that N > 2*IP_hs+1) the
    convolution step returns N = N - 2*IP_hs values, but the effective grid
    [lnwave_j[0:-0]] is empty: the two do not match, and the evaluator
    raises in its interpolation whatever the pixels and coefficients. *)
Theorem IP_hs_zero_grid_mismatch :
  exists self, model_hs0 = Some self /\
    (exists Sj, model.Sj_eff self 0 [] [] [0] = Some Sj /\ length Sj = 2%nat) /\
    model.lnwave_j_eff self = [] /\
    forall pixel coeff_norm coeff_wave,
      model.call self pixel 0 coeff_norm coeff_wave [] [] [0] = None.
Proof.
  unfold model_hs0.
  destruct (model.init (fun _ => Some 1) [0; 1] [1; 1] [] (IP_function ip_g) poly 0 0)
    as [self|] eqn:Hinit; [|discriminate].
  exists self. split; [reflexivity|].
  destruct (Sj_eff_length _ _ _ _ _ _ _ _ _ 0 [] [] [0] Hinit)
    as (Sj & HSj & Hlen); simpl; try lia; try easy.
  { repeat constructor; discriminate. }
  assert (Heff : model.lnwave_j_eff self = []).
  { destruct (init_fields _ _ _ _ _ _ _ _ _ Hinit) as (_ & _ & _ & _ & _ & _ & _ & -> & _).
    reflexivity. }
  split; [|split].
  - exists Sj. split; [exact HSj|]. simpl in Hlen. lia.
  - exact Heff.
  - intros. unfold model.call. rewrite HSj. simpl. now rewrite Heff.
Qed.

(** ** The absorber block of the evaluator *)

Lemma zip_as_seq (f : R -> R -> R) a b :
  length a = length b ->
  map (fun p => f (fst p) (snd p)) (combine a b) =
  map (fun j => f (nth j a 0) (nth j b 0)) (seq 0 (length a)).
Proof.
  revert b. induction a as [|x a IH]; intros [|y b] H; try discriminate; [reflexivity|].
  cbn [combine map length seq fst snd nth]. f_equal.
  rewrite <- seq_shift, map_map. cbn [nth]. apply IH. now injection H.
Qed.

Lemma iop_mult_pointwise a b :
  length b = length a ->
  NpArr.iop Rmult a b =
  Some (map (fun j => nth j a 0 * nth j b 0) (seq 0 (length a))).
Proof.
  intros H. unfold NpArr.iop. rewrite H, Nat.eqb_refl. f_equal.
  apply zip_as_seq. now symmetry.
Qed.

Lemma map_seq_length (f : nat -> R) n : length (map f (seq 0 n)) = n.
Proof. now rewrite length_map, length_seq. Qed.

Lemma nth_map_seq (f : nat -> R) n j :
  (j < n)%nat -> nth j (map f (seq 0 n)) 0 = f j.
Proof.
  intros H. rewrite (nth_indep _ 0 (f 0%nat)) by now rewrite map_seq_length.
  rewrite map_nth. now rewrite seq_nth.
Qed.

(** The loop over the paired coefficients and templates computes the product
    of the design, knot by knot, on top of the array it starts from. *)
Lemma flux_atm_fold_spec (pairs : list (R * list R)) (acc : list R) :
  Forall (fun p => length (snd p) = length acc) pairs ->
  fold_left model.flux_atm_step pairs (Some acc) =
  Some (map (fun j => nth j acc 0 * absorber_factor pairs j) (seq 0 (length acc))).
Proof.
  revert acc. induction pairs as [|[coeff flux] pairs IH]; intros acc H.
  - cbn [fold_left absorber_factor]. f_equal.
    apply nth_ext with (d := 0) (d' := 0).
    + now rewrite map_seq_length.
    + intros j Hj. rewrite nth_map_seq by exact Hj. ring.
  - inversion H as [|? ? Hp Hl]; subst. cbn [snd] in Hp.
    cbn [fold_left]. unfold model.flux_atm_step at 2. cbn [bind fst snd].
    rewrite iop_mult_pointwise by now rewrite length_map.
    rewrite IH.
    + f_equal. rewrite map_seq_length. apply map_ext_in. intros j Hj.
      apply in_seq in Hj. rewrite nth_map_seq by lia.
      cbn [absorber_factor].
      rewrite (nth_indep (map (fun x => Np.power x (Rabs coeff)) flux)
                 0 (Np.power 0 (Rabs coeff)))
        by (rewrite length_map; lia).
      rewrite (map_nth (fun x => Np.power x (Rabs coeff))). ring.
    + rewrite map_seq_length. exact Hl.
Qed.

Lemma flux_atm_loop_spec (self : model.t) (first : list R) (coeff_atm : list R) :
  Forall (fun t => length t = length first)
         (firstn (length coeff_atm) (model.fluxes_molec self)) ->
  model.flux_atm_loop self first coeff_atm =
  Some (combined_absorber coeff_atm (model.fluxes_molec self) (length first)).
Proof.
  intros H. unfold model.flux_atm_loop, combined_absorber.
  rewrite flux_atm_fold_spec.
  - unfold NpArr.ones. rewrite repeat_length. f_equal.
    apply map_ext_in. intros j Hj. apply in_seq in Hj.
    rewrite (nth_indep _ 0 1) by (rewrite repeat_length; lia).
    rewrite nth_repeat. ring.
  - rewrite combine_firstn_l.
    apply (Forall_combine_snd _ _
             (fun t => length t = length (NpArr.ones (length first)))).
    unfold NpArr.ones. now rewrite repeat_length.
Qed.

Lemma model_one_absorber_init :
  model.init (fun _ => Some 1) [0; 1; 2; 3] [1; 1; 1; 1] [[0.5; 0.5; 0.5; 0.5]]
    (IP_function ip_g) poly 1 0 = Some model_one_absorber.
Proof. reflexivity. Qed.

(** Without absorber templates the absorber block is skipped: the gas
    spectrum is the cell spectrum whatever the absorber coefficients. *)
Lemma spec_gas_no_template (self : model.t) (coeff_atm : list R) :
  model.fluxes_molec self = [] ->
  model.spec_gas self coeff_atm = Some (map (fun x => 1 * x) (model.spec_cell_j self)).
Proof. intros H. unfold model.spec_gas. now rewrite H. Qed.

(** The gas spectrum enters the predicted spectrum only as an array: a
    call on a model with absorbers is the call on the model without them
    whose cell spectrum is the gas spectrum. *)
Lemma iop_one_mult (cell fa : list R) :
  NpArr.iop Rmult (map (fun x => 1 * x) cell) fa =
  (gas <- NpArr.iop Rmult cell fa ;; Some (map (fun x => 1 * x) gas)).
Proof.
  unfold NpArr.iop. rewrite length_map.
  destruct (Nat.eqb (length cell) (length fa)).
  - cbn [bind]. f_equal. clear. revert fa.
    induction cell as [|x cell IH]; intros [|y fa]; try reflexivity.
    cbn [map combine fst snd]. rewrite IH. f_equal. ring.
  - destruct fa as [|y [|z fa]]; try reflexivity.
    cbn [bind]. f_equal. rewrite !map_map. apply map_ext. intros x. ring.
Qed.

Lemma call_through_gas (self : model.t) (gas pixel : list R) (rv : R)
    (coeff_norm coeff_wave coeff_ip coeff_atm coeff_bkg : list R) :
  model.spec_gas self coeff_atm = Some (map (fun x => 1 * x) gas) ->
  model.call self pixel rv coeff_norm coeff_wave coeff_ip coeff_atm coeff_bkg =
  model.call (with_gas self gas) pixel rv coeff_norm coeff_wave coeff_ip [] coeff_bkg.
Proof.
  intros H. unfold model.call, model.Sj_eff. rewrite H. reflexivity.
Qed.

Lemma call_absorbed_spec (self : model.t) (fa pixel : list R) (rv : R)
    (coeff_norm coeff_wave coeff_ip coeff_atm coeff_bkg : list R) :
  model.spec_gas self coeff_atm =
  NpArr.iop Rmult (map (fun x => 1 * x) (model.spec_cell_j self)) fa ->
  model.call self pixel rv coeff_norm coeff_wave coeff_ip coeff_atm coeff_bkg =
  call_absorbed self fa pixel rv coeff_norm coeff_wave coeff_ip coeff_bkg.
Proof.
  intros H. rewrite iop_one_mult in H. unfold call_absorbed.
  destruct (NpArr.iop Rmult (model.spec_cell_j self) fa) as [gas|]; cbn [bind] in *.
  - now apply call_through_gas.
  - unfold model.call, model.Sj_eff. now rewrite H.
Qed.

Lemma call_absorbed_bind (self : model.t) (F : option (list R)) (pixel : list R)
    (rv : R) (coeff_norm coeff_wave coeff_ip coeff_atm coeff_bkg : list R) :
  model.spec_gas self coeff_atm =
  (fa <- F ;; NpArr.iop Rmult (map (fun x => 1 * x) (model.spec_cell_j self)) fa) ->
  model.call self pixel rv coeff_norm coeff_wave coeff_ip coeff_atm coeff_bkg =
  (fa <- F ;; call_absorbed self fa pixel rv coeff_norm coeff_wave coeff_ip coeff_bkg).
Proof.
  intros H. destruct F as [fa|]; cbn [bind] in *.
  - now apply call_absorbed_spec.
  - unfold model.call, model.Sj_eff. now rewrite H.
Qed.

(** What the absorber block computes, for any number of coefficients: the
    product of the design over the paired coefficients and templates,
    shifted when there is exactly one coefficient more than templates. *)
Lemma flux_atm_shifted_spec (self : model.t) (first : list R) (coeff_atm : list R) :
  Forall (fun t => length t = length first)
         (firstn (length coeff_atm) (model.fluxes_molec self)) ->
  let combined :=
    combined_absorber coeff_atm (model.fluxes_molec self) (length first) in
  (length coeff_atm = (length (model.fluxes_molec self) + 1)%nat ->
   exists v, Py.last coeff_atm = Some v /\
     model.flux_atm_shifted self first coeff_atm =
     NpArr.interp (model.lnwave_j self)
       (map (fun x => x - ln (1 + v / c)) (model.lnwave_j self)) combined) /\
  (length coeff_atm <> (length (model.fluxes_molec self) + 1)%nat ->
   model.flux_atm_shifted self first coeff_atm = Some combined).
Proof.
  intros Hlen combined. unfold model.flux_atm_shifted.
  rewrite (flux_atm_loop_spec self first coeff_atm Hlen). cbn [bind].
  split; intros Hn.
  - rewrite Hn, Nat.eqb_refl.
    destruct (last_nonempty _ coeff_atm) as (v & Hv).
    { intros ->. cbn [length] in Hn. lia. }
    exists v. split; [exact Hv|]. now rewrite Hv.
  - apply Nat.eqb_neq in Hn. now rewrite Hn.
Qed.

Lemma combined_absorber_no_template (coeff_atm : list R) (n : nat) :
  combined_absorber coeff_atm [] n = repeat 1 n.
Proof.
  unfold combined_absorber. rewrite combine_nil. cbn [absorber_factor].
  generalize 0%nat. induction n as [|n IH]; intros k; [reflexivity|].
  cbn [seq map repeat]. now rewrite IH.
Qed.

Lemma interp_scan_constant v xp x :
  xp <> [] -> NpArr.interp_scan xp (repeat v (length xp)) x = v.
Proof.
  induction xp as [|x0 xp' IH]; [easy|]. intros _.
  destruct xp' as [|x1 xp'']; [reflexivity|].
  cbn [length repeat NpArr.interp_scan].
  destruct (Rlt_dec x x1).
  - unfold Rdiv. ring.
  - apply IH. discriminate.
Qed.

Lemma interp_ones (x xp : list R) :
  xp <> [] ->
  NpArr.interp x xp (repeat 1 (length xp)) = Some (repeat 1 (length x)).
Proof.
  intros H. unfold NpArr.interp. destruct xp as [|x0 xp'] eqn:E; [easy|].
  rewrite repeat_length, Nat.eqb_refl. f_equal. rewrite <- E in *.
  clear E. induction x as [|a x IH]; [reflexivity|].
  cbn [map length repeat]. rewrite IH. f_equal.
  destruct xp as [|y0 xp'']; [easy|].
  unfold NpArr.interp1. cbn [length repeat].
  destruct (Rlt_dec a y0); [reflexivity|].
  change (1 :: repeat 1 (length xp'')) with (repeat 1 (length (y0 :: xp''))).
  now apply interp_scan_constant.
Qed.

(** On a model without templates the gas spectrum times an all-ones
    absorber spectrum predicts what the evaluator returns. *)
Lemma call_absorbed_ones (self : model.t) (pixel : list R) (rv : R)
    (coeff_norm coeff_wave coeff_ip coeff_atm coeff_bkg : list R) :
  model.fluxes_molec self = [] ->
  call_absorbed self (repeat 1 (length (model.spec_cell_j self))) pixel rv
    coeff_norm coeff_wave coeff_ip coeff_bkg =
  model.call self pixel rv coeff_norm coeff_wave coeff_ip coeff_atm coeff_bkg.
Proof.
  intros Hfl. symmetry. apply call_absorbed_spec.
  unfold model.spec_gas. rewrite Hfl.
  unfold NpArr.iop. rewrite length_map, repeat_length, Nat.eqb_refl. f_equal.
  induction (model.spec_cell_j self) as [|x l IH]; [reflexivity|].
  cbn [map length repeat combine fst snd]. rewrite <- IH. f_equal. ring.
Qed.

(** C5. With one more absorber coefficient than templates the last
    coefficient [v] is one shift for all templates: the combined absorber
    spectrum is interpolated from the knots [lnwave_j - log(1 + v/c)] back
    onto [lnwave_j] before it multiplies the cell spectrum, and the
    evaluator returns the spectrum predicted for that gas spectrum.  With as
    many coefficients as templates the combined spectrum is used as it is.
    On a model without templates the absorber block is skipped; the
    combined spectrum of no template is all ones, which a shift leaves as it
    is, so the evaluator returns what both rules predict. *)
Theorem telluric_shift_convention (self : model.t) (pixel : list R) (rv : R)
    (coeff_norm coeff_wave coeff_ip coeff_atm coeff_bkg : list R) :
  let n := length (model.fluxes_molec self) in
  let grid := model.lnwave_j self in
  let gas1 := map (fun x => 1 * x) (model.spec_cell_j self) in
  let shifted v fa :=
    NpArr.interp grid (map (fun x => x - ln (1 + v / c)) grid) fa in
  let predicted fa :=
    call_absorbed self fa pixel rv coeff_norm coeff_wave coeff_ip coeff_bkg in
  let returned :=
    model.call self pixel rv coeff_norm coeff_wave coeff_ip coeff_atm coeff_bkg in
  (forall first rest,
     model.fluxes_molec self = first :: rest ->
     Forall (fun t => length t = length first) (model.fluxes_molec self) ->
     let combined :=
       combined_absorber coeff_atm (model.fluxes_molec self) (length first) in
     (length coeff_atm = (n + 1)%nat ->
      exists v,
        Py.last coeff_atm = Some v /\
        model.flux_atm_shifted self first coeff_atm = shifted v combined /\
        model.spec_gas self coeff_atm =
        (fa <- shifted v combined ;; NpArr.iop Rmult gas1 fa) /\
        returned = (fa <- shifted v combined ;; predicted fa)) /\
     (length coeff_atm = n ->
      model.flux_atm_shifted self first coeff_atm = Some combined /\
      model.spec_gas self coeff_atm = NpArr.iop Rmult gas1 combined /\
      returned = predicted combined)) /\
  (model.fluxes_molec self = [] ->
   model.spec_gas self coeff_atm = Some gas1 /\
   returned = model.call self pixel rv coeff_norm coeff_wave coeff_ip [] coeff_bkg /\
   (length grid = length (model.spec_cell_j self) ->
    StronglySorted Rlt grid -> grid <> [] ->
    let combined := combined_absorber coeff_atm [] (length grid) in
    predicted combined = returned /\
    forall v, - c < v -> (fa <- shifted v combined ;; predicted fa) = returned)).
Proof.
  cbv zeta. split.
  - intros first rest Hfl Hlen.
    assert (Hlen' : Forall (fun t => length t = length first)
                      (firstn (length coeff_atm) (model.fluxes_molec self))).
    { rewrite <- (firstn_skipn (length coeff_atm) (model.fluxes_molec self)) in Hlen.
      now apply Forall_app in Hlen. }
    destruct (flux_atm_shifted_spec self first coeff_atm Hlen') as [Hshift Hplain].
    split; intros Hn.
    + destruct (Hshift Hn) as (v & Hv & Hs). exists v.
      assert (Hgas : model.spec_gas self coeff_atm =
                     (fa <- NpArr.interp (model.lnwave_j self)
                              (map (fun x => x - ln (1 + v / c)) (model.lnwave_j self))
                              (combined_absorber coeff_atm (model.fluxes_molec self)
                                 (length first)) ;;
                      NpArr.iop Rmult (map (fun x => 1 * x) (model.spec_cell_j self)) fa)).
      { unfold model.spec_gas. rewrite Hfl. rewrite Hfl in Hs. now rewrite Hs. }
      repeat split; [exact Hv|exact Hs|exact Hgas|].
      now apply call_absorbed_bind.
    + assert (Hs : model.flux_atm_shifted self first coeff_atm =
                   Some (combined_absorber coeff_atm (model.fluxes_molec self)
                           (length first))) by (apply Hplain; lia).
      assert (Hgas : model.spec_gas self coeff_atm =
                     NpArr.iop Rmult (map (fun x => 1 * x) (model.spec_cell_j self))
                       (combined_absorber coeff_atm (model.fluxes_molec self)
                          (length first))).
      { unfold model.spec_gas. rewrite Hfl. rewrite Hfl in Hs. now rewrite Hs. }
      repeat split; [exact Hs|exact Hgas|].
      now apply call_absorbed_spec.
  - intros Hfl. split; [now apply spec_gas_no_template|].
    split.
    { unfold model.call, model.Sj_eff.
      now rewrite !(spec_gas_no_template self _ Hfl). }
    intros Hgrid _ Hne. rewrite combined_absorber_no_template, Hgrid.
    split; [now apply call_absorbed_ones|].
    intros v _. rewrite <- Hgrid at 1.
    replace (length (model.lnwave_j self))
      with (length (map (fun x => x - ln (1 + v / c)) (model.lnwave_j self)))
      by apply length_map.
    rewrite interp_ones.
    + cbn [bind]. rewrite Hgrid. now apply call_absorbed_ones.
    + intros E. apply Hne. now apply map_eq_nil in E.
Qed.

Lemma telluric_shift_convention_witness :
  exists v,
    Py.last [1; 5] = Some v /\
    model.call model_one_absorber [1; 2] 0 [1] [1; 1] [2.2] [1; 5] [0] =
    (fa <- NpArr.interp (model.lnwave_j model_one_absorber)
             (map (fun x => x - ln (1 + v / c)) (model.lnwave_j model_one_absorber))
             (combined_absorber [1; 5] (model.fluxes_molec model_one_absorber) 4) ;;
     call_absorbed model_one_absorber fa [1; 2] 0 [1] [1; 1] [2.2] [0]).
Proof.
  destruct (proj1 (telluric_shift_convention model_one_absorber [1; 2] 0 [1] [1; 1]
                     [2.2] [1; 5] [0])
              [0.5; 0.5; 0.5; 0.5] [] eq_refl) as [Hshift _].
  - repeat constructor.
  - destruct (Hshift eq_refl) as (v & Hv & _ & _ & Hcall).
    exists v. split; [exact Hv|exact Hcall].
Defined.

(** *** Sign of the absorber scaling coefficients *)

Lemma flip_sign_length i l : length (flip_sign i l) = length l.
Proof.
  revert i. induction l as [|x l IH]; intros [|i]; cbn [flip_sign length]; auto.
Qed.

Lemma flip_sign_beyond i l : (length l <= i)%nat -> flip_sign i l = l.
Proof.
  revert i. induction l as [|x l IH]; intros i H; [now destruct i|].
  destruct i as [|i]; cbn [length] in H; [lia|].
  cbn [flip_sign]. rewrite IH by lia. reflexivity.
Qed.

Lemma flux_atm_step_flip acc coeff flux :
  model.flux_atm_step acc (- coeff, flux) = model.flux_atm_step acc (coeff, flux).
Proof. unfold model.flux_atm_step. cbn [fst snd]. now rewrite Rabs_Ropp. Qed.

Lemma flux_atm_fold_flip i coeff_atm fluxes acc :
  fold_left model.flux_atm_step (combine (flip_sign i coeff_atm) fluxes) acc =
  fold_left model.flux_atm_step (combine coeff_atm fluxes) acc.
Proof.
  revert i fluxes acc.
  induction coeff_atm as [|x l IH]; intros [|i] [|t ts] acc;
    cbn [flip_sign combine fold_left]; auto.
  now rewrite flux_atm_step_flip.
Qed.

Lemma last_cons (A : Type) (x : A) (l : list A) :
  l <> [] -> Py.last (x :: l) = Py.last l.
Proof.
  intros H. unfold Py.last. cbn [rev].
  destruct (rev l) as [|y r] eqn:E; [|reflexivity].
  apply (f_equal (@length A)) in E. rewrite length_rev in E.
  destruct l; [easy|discriminate].
Qed.

Lemma last_flip_sign i l :
  (S i < length l)%nat -> Py.last (flip_sign i l) = Py.last l.
Proof.
  revert i. induction l as [|x l IH]; intros i H; [cbn [length] in H; lia|].
  destruct i as [|i]; cbn [flip_sign].
  - destruct l as [|y l]; [cbn [length] in H; lia|].
    rewrite (last_cons _ (- x) (y :: l)) by discriminate.
    now rewrite (last_cons _ x (y :: l)) by discriminate.
  - cbn [length] in H.
    assert (l <> []) by (intros ->; cbn [length] in H; lia).
    rewrite !last_cons; auto.
    + apply IH. lia.
    + intros E. apply (f_equal (@length R)) in E. rewrite flip_sign_length in E.
      destruct l; [easy|discriminate].
Qed.

Lemma spec_gas_flip_sign (self : model.t) (coeff_atm : list R) (i : nat) :
  (length coeff_atm = (length (model.fluxes_molec self) + 1)%nat ->
   i <> length (model.fluxes_molec self)) ->
  model.spec_gas self (flip_sign i coeff_atm) = model.spec_gas self coeff_atm.
Proof.
  intros Hi. unfold model.spec_gas.
  destruct (model.fluxes_molec self) as [|first rest] eqn:Hfl; [reflexivity|].
  f_equal. unfold model.flux_atm_shifted, model.flux_atm_loop.
  rewrite flux_atm_fold_flip, flip_sign_length, Hfl.
  destruct (Nat.eqb (length coeff_atm) (length (first :: rest) + 1)) eqn:E;
    [|reflexivity].
  apply Nat.eqb_eq in E. specialize (Hi E).
  destruct (Nat.lt_ge_cases i (length (first :: rest))) as [Hlt|Hge].
  - rewrite last_flip_sign by lia. reflexivity.
  - rewrite flip_sign_beyond by lia. reflexivity.
Qed.

(** C6. Every absorber template enters the combined absorber spectrum raised
    to the absolute value of its coefficient: the loop computes that
    product, the gas spectrum is the cell spectrum times it (shifted first
    when there is one coefficient more than templates), and the evaluator
    returns the spectrum predicted for that gas spectrum.  So the predicted
    spectrum does not change when the sign of an absorber coefficient is
    flipped, the shift coefficient apart. *)
Theorem absorber_sign_invariance (self : model.t) (pixel : list R) (rv : R)
    (coeff_norm coeff_wave coeff_ip coeff_atm coeff_bkg : list R) (i : nat) :
  (length coeff_atm = (length (model.fluxes_molec self) + 1)%nat ->
   i <> length (model.fluxes_molec self)) ->
  let gas1 := map (fun x => 1 * x) (model.spec_cell_j self) in
  let returned :=
    model.call self pixel rv coeff_norm coeff_wave coeff_ip coeff_atm coeff_bkg in
  (forall first,
     Forall (fun t => length t = length first)
            (firstn (length coeff_atm) (model.fluxes_molec self)) ->
     model.flux_atm_loop self first coeff_atm =
     Some (combined_absorber coeff_atm (model.fluxes_molec self) (length first))) /\
  (forall first rest,
     model.fluxes_molec self = first :: rest ->
     Forall (fun t => length t = length first)
            (firstn (length coeff_atm) (model.fluxes_molec self)) ->
     let combined :=
       combined_absorber coeff_atm (model.fluxes_molec self) (length first) in
     (length coeff_atm <> (length (model.fluxes_molec self) + 1)%nat ->
      model.spec_gas self coeff_atm = NpArr.iop Rmult gas1 combined /\
      returned =
      call_absorbed self combined pixel rv coeff_norm coeff_wave coeff_ip coeff_bkg) /\
     (length coeff_atm = (length (model.fluxes_molec self) + 1)%nat ->
      exists v,
        Py.last coeff_atm = Some v /\
        let shifted :=
          NpArr.interp (model.lnwave_j self)
            (map (fun x => x - ln (1 + v / c)) (model.lnwave_j self)) combined in
        model.spec_gas self coeff_atm = (fa <- shifted ;; NpArr.iop Rmult gas1 fa) /\
        returned =
        (fa <- shifted ;;
         call_absorbed self fa pixel rv coeff_norm coeff_wave coeff_ip coeff_bkg))) /\
  model.call self pixel rv coeff_norm coeff_wave coeff_ip
    (flip_sign i coeff_atm) coeff_bkg = returned.
Proof.
  intros Hi. cbv zeta. split; [|split].
  - intros first H. now apply flux_atm_loop_spec.
  - intros first rest Hfl Hlen.
    destruct (flux_atm_shifted_spec self first coeff_atm Hlen) as [Hshift Hplain].
    split; intros Hn.
    + assert (Hgas : model.spec_gas self coeff_atm =
                     NpArr.iop Rmult (map (fun x => 1 * x) (model.spec_cell_j self))
                       (combined_absorber coeff_atm (model.fluxes_molec self)
                          (length first))).
      { unfold model.spec_gas. specialize (Hplain Hn).
        rewrite Hfl. rewrite Hfl in Hplain. now rewrite Hplain. }
      split; [exact Hgas|]. now apply call_absorbed_spec.
    + destruct (Hshift Hn) as (v & Hv & Hs). exists v.
      assert (Hgas : model.spec_gas self coeff_atm =
                     (fa <- NpArr.interp (model.lnwave_j self)
                              (map (fun x => x - ln (1 + v / c)) (model.lnwave_j self))
                              (combined_absorber coeff_atm (model.fluxes_molec self)
                                 (length first)) ;;
                      NpArr.iop Rmult (map (fun x => 1 * x) (model.spec_cell_j self)) fa)).
      { unfold model.spec_gas. rewrite Hfl. rewrite Hfl in Hs. now rewrite Hs. }
      repeat split; [exact Hv|exact Hgas|].
      now apply call_absorbed_bind.
  - unfold model.call, model.Sj_eff. now rewrite spec_gas_flip_sign.
Qed.

Lemma absorber_sign_invariance_witness :
  model.spec_gas model_two_absorbers [3; 2] =
  NpArr.iop Rmult (map (fun x => 1 * x) (model.spec_cell_j model_two_absorbers))
    (combined_absorber [3; 2] (model.fluxes_molec model_two_absorbers) 4) /\
  model.call model_two_absorbers [1; 2] 0 [1] [1; 1] [2.2] [3; 2] [0] =
  call_absorbed model_two_absorbers
    (combined_absorber [3; 2] (model.fluxes_molec model_two_absorbers) 4)
    [1; 2] 0 [1] [1; 1] [2.2] [0] /\
  model.call model_two_absorbers [1; 2] 0 [1] [1; 1] [2.2] (flip_sign 1 [3; 2]) [0] =
  model.call model_two_absorbers [1; 2] 0 [1] [1; 1] [2.2] [3; 2] [0].
Proof.
  assert (Hi : length [3; 2] = (length (model.fluxes_molec model_two_absorbers) + 1)%nat ->
               1%nat <> length (model.fluxes_molec model_two_absorbers))
    by (cbn [model_two_absorbers model.fluxes_molec length]; lia).
  destruct (absorber_sign_invariance model_two_absorbers [1; 2] 0 [1] [1; 1] [2.2]
              [3; 2] [0] 1 Hi) as (_ & Htie & Hflip).
  destruct (Htie [0.5; 0.5; 0.5; 0.5] [[0.25; 0.25; 0.25; 0.25]] eq_refl)
    as [Hplain _]; [repeat constructor|].
  destruct Hplain as [Hgas Hcall];
    [cbn [model_two_absorbers model.fluxes_molec length]; lia|].
  split; [exact Hgas|]. split; [exact Hcall|exact Hflip].
Defined.

(** C10. With fewer absorber coefficients than templates the absorber block
    returns: only the first [len(coeff_atm)] templates enter the combined
    absorber spectrum (only they need to be on the grid), and the spectrum
    is not shifted. *)
Theorem fewer_coefficients_truncate (self : model.t) (coeff_atm first : list R)
    (rest : list (list R)) :
  model.fluxes_molec self = first :: rest ->
  (length coeff_atm < length (model.fluxes_molec self))%nat ->
  Forall (fun t => length t = length first)
         (firstn (length coeff_atm) (model.fluxes_molec self)) ->
  model.flux_atm_shifted self first coeff_atm =
  Some (combined_absorber coeff_atm
          (firstn (length coeff_atm) (model.fluxes_molec self)) (length first)) /\
  model.spec_gas self coeff_atm =
  NpArr.iop Rmult (map (fun x => 1 * x) (model.spec_cell_j self))
    (combined_absorber coeff_atm
       (firstn (length coeff_atm) (model.fluxes_molec self)) (length first)).
Proof.
  intros Hfl Hn Hlen.
  assert (H : model.flux_atm_shifted self first coeff_atm =
              Some (combined_absorber coeff_atm
                      (firstn (length coeff_atm) (model.fluxes_molec self))
                      (length first))).
  { unfold model.flux_atm_shifted.
    rewrite (flux_atm_loop_spec self first coeff_atm Hlen). cbn [bind].
    replace (Nat.eqb (length coeff_atm) (length (model.fluxes_molec self) + 1))
      with false by (symmetry; apply Nat.eqb_neq; lia).
    unfold combined_absorber. now rewrite <- combine_firstn_l. }
  split; [exact H|].
  unfold model.spec_gas. rewrite Hfl. rewrite Hfl in H. now rewrite H.
Qed.

Lemma fewer_coefficients_truncate_witness :
  model.flux_atm_shifted model_two_absorbers [0.5; 0.5; 0.5; 0.5] [3] =
  Some (combined_absorber [3] [[0.5; 0.5; 0.5; 0.5]] 4) /\
  model.spec_gas model_two_absorbers [3] =
  NpArr.iop Rmult (map (fun x => 1 * x) [1; 1; 1; 1])
    (combined_absorber [3] [[0.5; 0.5; 0.5; 0.5]] 4).
Proof.
  refine (fewer_coefficients_truncate model_two_absorbers [3]
            [0.5; 0.5; 0.5; 0.5] [[0.25; 0.25; 0.25; 0.25]] eq_refl _ _).
  - cbn [model_two_absorbers model.fluxes_molec length]. lia.
  - repeat constructor.
Defined.

(** ** The partitioning of the flat parameter vector *)

Lemma clip_bound_nat n i : Py.clip_bound n (Z.of_nat i) = Nat.min i n.
Proof.
  unfold Py.clip_bound. destruct (Z.of_nat i <? 0)%Z eqn:E.
  - apply Z.ltb_lt in E. lia.
  - now rewrite Nat2Z.id.
Qed.

Lemma getslice_firstn_skipn i n l :
  (i + n <= length l)%nat ->
  getslice {| start := i; stop := i + n |} l = firstn n (skipn i l).
Proof.
  intros H. unfold getslice, Py.slice. cbn [start stop].
  rewrite !clip_bound_nat.
  replace (Nat.min (i + n) (length l)) with (i + n)%nat by lia.
  replace (Nat.min i (length l)) with i by lia.
  f_equal. lia.
Qed.

Lemma firstn_length_app (a b : list R) : firstn (length a) (a ++ b) = a.
Proof. induction a as [|x a IH]; cbn; [now destruct b|now rewrite IH]. Qed.

Lemma skipn_add_app (a l : list R) n : skipn (length a + n) (a ++ l) = skipn n l.
Proof. induction a as [|x a IH]; cbn; auto. Qed.

Lemma partition6 (l : list R) n1 n2 n3 n4 n5 n6 :
  length l = (n1 + n2 + n3 + n4 + n5 + n6)%nat ->
  l = firstn n1 (skipn 0 l) ++ firstn n2 (skipn n1 l) ++
      firstn n3 (skipn (n1 + n2) l) ++ firstn n4 (skipn (n1 + n2 + n3) l) ++
      firstn n5 (skipn (n1 + n2 + n3 + n4) l) ++
      firstn n6 (skipn (n1 + n2 + n3 + n4 + n5) l).
Proof.
  intros H.
  assert (St : forall n k, skipn k l = firstn n (skipn k l) ++ skipn (k + n) l).
  { intros n k. rewrite (Nat.add_comm k n), <- skipn_skipn.
    symmetry. apply firstn_skipn. }
  change l with (skipn 0 l) at 1.
  rewrite (St n1 0%nat) at 1. f_equal. cbn [Nat.add].
  rewrite (St n2 n1) at 1. f_equal.
  rewrite (St n3 (n1 + n2)%nat) at 1. f_equal.
  rewrite (St n4 (n1 + n2 + n3)%nat) at 1. f_equal.
  rewrite (St n5 (n1 + n2 + n3 + n4)%nat) at 1. f_equal.
  symmetry. apply firstn_all2. rewrite length_skipn. lia.
Qed.

Lemma slice_bounds (p : fit_pars) :
  stop (sv p) = length (opt_tuple (par_rv p)) /\
  stop (sa p) = (stop (sv p) + length (par_norm p))%nat /\
  stop (sb p) = (stop (sa p) + length (par_wave p))%nat /\
  stop (ss p) = (stop (sb p) + length (par_ip p))%nat /\
  stop (st p) = (stop (ss p) + length (par_atm p))%nat /\
  stop (sc p) = length (p0 p).
Proof.
  unfold p0. rewrite !length_app. cbn [sv sa sb ss st sc start stop].
  repeat split; lia.
Qed.

(** The six slices cut a vector as long as [p0] into consecutive blocks. *)
Lemma slices_partition (p : fit_pars) (params : list R) :
  length params = length (p0 p) ->
  params = getslice (sv p) params ++ getslice (sa p) params ++
           getslice (sb p) params ++ getslice (ss p) params ++
           getslice (st p) params ++ getslice (sc p) params /\
  length (getslice (sv p) params) = length (opt_tuple (par_rv p)) /\
  length (getslice (sa p) params) = length (par_norm p) /\
  length (getslice (sb p) params) = length (par_wave p) /\
  length (getslice (ss p) params) = length (par_ip p) /\
  length (getslice (st p) params) = length (par_atm p) /\
  length (getslice (sc p) params) = length (par_bkg p).
Proof.
  intros H. unfold p0 in H. rewrite !length_app in H.
  unfold sc, st, ss, sb, sa, sv. cbn [start stop].
  set (n1 := length (opt_tuple (par_rv p))) in *.
  set (n2 := length (par_norm p)) in *. set (n3 := length (par_wave p)) in *.
  set (n4 := length (par_ip p)) in *. set (n5 := length (par_atm p)) in *.
  set (n6 := length (par_bkg p)) in *.
  change {| start := 0; stop := n1 |} with {| start := 0; stop := 0 + n1 |}.
  rewrite !getslice_firstn_skipn by lia.
  split; [apply partition6; lia|].
  rewrite !length_firstn, !length_skipn. repeat split; lia.
Qed.

(** Cutting [p0] itself gives back the free sub-vectors. *)
Lemma slices_of_p0 (p : fit_pars) :
  getslice (sv p) (p0 p) = opt_tuple (par_rv p) /\
  getslice (sa p) (p0 p) = par_norm p /\
  getslice (sb p) (p0 p) = par_wave p /\
  getslice (ss p) (p0 p) = par_ip p /\
  getslice (st p) (p0 p) = par_atm p /\
  getslice (sc p) (p0 p) = par_bkg p.
Proof.
  assert (Hlen := eq_refl (length (p0 p))).
  unfold p0 at 2 in Hlen. rewrite !length_app in Hlen.
  unfold sc, st, ss, sb, sa, sv. cbn [start stop].
  change {| start := 0; stop := length (opt_tuple (par_rv p)) |}
    with {| start := 0; stop := 0 + length (opt_tuple (par_rv p)) |}.
  rewrite !getslice_firstn_skipn by lia.
  unfold p0. cbn [skipn].
  repeat split; try apply firstn_length_app;
    rewrite <- ?Nat.add_assoc, ?skipn_add_app;
    match goal with
    | |- firstn _ (skipn ?n _) = _ => rewrite <- (Nat.add_0_r n), skipn_add_app
    end; cbn [skipn]; try apply firstn_length_app.
  rewrite <- (app_nil_r (par_bkg p)) at 2. apply firstn_length_app.
Qed.

(** C3, as stated, fails: when [fit] is given neither [par_rv] nor
    [parfix_rv] (the defaults), the unpacked radial-velocity tuple is empty
    and every group moves one parameter to the left: the evaluator's [rv]
    receives the continuum tuple. *)
Lemma partition_without_rv_shifts_groups :
  ~ partition_contract pars_without_rv (p0 pars_without_rv) /\
  exists a, bind_call (grouped pars_without_rv (p0 pars_without_rv)) = Some a /\
            rv a = Tuple [1] /\ coeff_norm a = Tuple [6000; 0.05].
Proof.
  split.
  - intros (v & av & bv & sv' & tv & cv & r & _ & Hv & _ & _ & _ & _ & _ & Hr & _).
    cbn in Hv. destruct v; [|discriminate]. discriminate.
  - eexists. split; [reflexivity|]. split; reflexivity.
Qed.

(** C3, amended. When exactly one of [par_rv] and [parfix_rv] is given, for
    every flat vector [params] as long as [p0]: the slices cut [params] into
    consecutive blocks in the order RV, continuum, wavelength, IP, absorber,
    background, the closure passes to the evaluator each block followed by
    the fixed values of its group, and the blocks of [p0] are the free
    sub-vectors themselves. *)
Theorem fit_partition (p : fit_pars) (params : list R) :
  length (opt_tuple (par_rv p) ++ opt_tuple (parfix_rv p)) = 1%nat ->
  length params = length (p0 p) ->
  partition_contract p params /\
  (forall self x,
     S_model self p x params =
     r <- Py.index (getslice (sv p) params ++ opt_tuple (parfix_rv p)) 0 ;;
     model.call self x r
       (getslice (sa p) params ++ parfix_norm p)
       (getslice (sb p) params ++ parfix_wave p)
       (getslice (ss p) params ++ parfix_ip p)
       (getslice (st p) params ++ parfix_atm p)
       (getslice (sc p) params ++ parfix_bkg p)) /\
  p0 p = opt_tuple (par_rv p) ++ par_norm p ++ par_wave p ++ par_ip p
         ++ par_atm p ++ par_bkg p /\
  getslice (sv p) (p0 p) = opt_tuple (par_rv p) /\
  getslice (sa p) (p0 p) = par_norm p /\
  getslice (sb p) (p0 p) = par_wave p /\
  getslice (ss p) (p0 p) = par_ip p /\
  getslice (st p) (p0 p) = par_atm p /\
  getslice (sc p) (p0 p) = par_bkg p.
Proof.
  intros Hrv Hlen.
  destruct (slices_partition p params Hlen)
    as (Hcut & H1 & H2 & H3 & H4 & H5 & H6).
  assert (Hone : exists r, getslice (sv p) params ++ opt_tuple (parfix_rv p) = [r]).
  { rewrite length_app in Hrv. rewrite <- H1 in Hrv. rewrite <- length_app in Hrv.
    destruct (getslice (sv p) params ++ opt_tuple (parfix_rv p)) as [|r [|? ?]];
      try discriminate. now exists r. }
  destruct Hone as (r & Hr).
  assert (Hbind : bind_call (grouped p params) =
    Some {| rv := Scalar r;
            coeff_norm := Tuple (getslice (sa p) params ++ parfix_norm p);
            coeff_wave := Tuple (getslice (sb p) params ++ parfix_wave p);
            coeff_ip := Tuple (getslice (ss p) params ++ parfix_ip p);
            coeff_atm := Tuple (getslice (st p) params ++ parfix_atm p);
            coeff_bkg := Tuple (getslice (sc p) params ++ parfix_bkg p) |}).
  { unfold grouped. rewrite Hr. reflexivity. }
  split; [|split; [|split; [reflexivity|apply slices_of_p0]]].
  - exists (getslice (sv p) params), (getslice (sa p) params),
      (getslice (sb p) params), (getslice (ss p) params),
      (getslice (st p) params), (getslice (sc p) params), r.
    repeat split; auto.
  - intros self x. unfold S_model. rewrite Hbind, Hr. reflexivity.
Qed.

Lemma fit_partition_witness :
  partition_contract pars_free_rv [4; 0.9] /\
  getslice (sa pars_free_rv) (p0 pars_free_rv) = [1].
Proof.
  assert (H := fit_partition pars_free_rv [4; 0.9] eq_refl eq_refl).
  split; [exact (proj1 H)|].
  exact (proj1 (proj2 (proj2 (proj2 (proj2 H))))).
Defined.

(** ** The chunk loop and the aggregate *)

Lemma chunk_loop_returns fit_chunk orders :
  (forall o, In o orders -> fit_chunk o <> None) ->
  exists outs, map fit_chunk orders = map Some outs /\
               viper.chunk_loop fit_chunk orders = Some (map fst outs, map snd outs).
Proof.
  induction orders as [|o orders IH]; intros H.
  - now exists [].
  - destruct IH as (outs & Hmap & Hloop); [intros; apply H; now right|].
    destruct (fit_chunk o) as [r|] eqn:E; [|now destruct (H o (or_introl eq_refl))].
    exists (r :: outs). cbn [map viper.chunk_loop]. rewrite E, Hmap, Hloop.
    split; reflexivity.
Qed.

Lemma select_finite outs :
  Float.select (map fst outs) (map Float.isfinite (map snd outs)) =
  valid_rvs (map Some outs).
Proof.
  induction outs as [|[v e] outs IH]; [reflexivity|].
  cbn [map fst snd Float.select valid_rvs flat_map].
  destruct (Float.isfinite e); cbn [app]; fold (valid_rvs (map Some outs));
    now rewrite <- IH.
Qed.

Lemma count_finite outs :
  length (filter (fun b : bool => b) (map Float.isfinite (map snd outs))) =
  length (valid_rvs (map Some outs)).
Proof.
  induction outs as [|[v e] outs IH]; [reflexivity|].
  cbn [map snd filter valid_rvs flat_map].
  destruct (Float.isfinite e); cbn [app length]; fold (valid_rvs (map Some outs));
    now rewrite <- IH.
Qed.

Lemma float_sum_fin rs : Float.sum (map Float.Fin rs) = Float.Fin (Np.sum rs).
Proof.
  induction rs as [|x rs IH]; [reflexivity|].
  cbn [map Float.sum Np.sum fold_right]. fold (Float.sum (map Float.Fin rs)).
  now rewrite IH.
Qed.

Lemma INR_length_pos (A : Type) (l : list A) : l <> [] -> INR (length l) <> 0.
Proof.
  intros H. destruct l; [easy|]. apply not_0_INR. discriminate.
Qed.

Lemma float_mean_fin rs :
  rs <> [] ->
  Float.mean (map Float.Fin rs) = Float.Fin (Np.sum rs / INR (length rs)).
Proof.
  intros H. unfold Float.mean, Float.of_Z. rewrite float_sum_fin, length_map.
  rewrite <- INR_IZR_INZ. cbn [Float.div].
  destruct (Req_dec_T (INR (length rs)) 0) as [E|E]; [|reflexivity].
  now apply INR_length_pos in E.
Qed.

Lemma sum_squares_nonneg (m : R) rs : 0 <= Np.sum (map (fun x => (x - m) ^ 2) rs).
Proof.
  induction rs as [|x rs IH]; cbn [map Np.sum fold_right]; [lra|].
  fold (Np.sum (map (fun x => (x - m) ^ 2) rs)).
  pose proof (pow2_ge_0 (x - m)). lra.
Qed.

(** [np.std] of finite values: the root of the mean squared deviation. *)
Lemma float_std_fin rs :
  rs <> [] ->
  Float.std (map Float.Fin rs) =
  Float.Fin (sqrt (Np.sum (map (fun x => (x - Np.sum rs / INR (length rs)) ^ 2) rs)
                   / INR (length rs))).
Proof.
  intros H. unfold Float.std. rewrite float_mean_fin by exact H.
  set (m := Np.sum rs / INR (length rs)).
  rewrite map_map. cbn [Float.sub Float.neg Float.add Float.abs Float.mul].
  rewrite <- (map_map (fun x => Rabs (x + - m) * Rabs (x + - m)) Float.Fin).
  rewrite float_mean_fin
    by (intros E; apply (f_equal (@length R)) in E; rewrite length_map in E;
        destruct rs; [easy|discriminate]).
  rewrite length_map.
  assert (Hmap : map (fun x => Rabs (x + - m) * Rabs (x + - m)) rs =
                 map (fun x => (x - m) ^ 2) rs).
  { apply map_ext. intros x. unfold Rabs. destruct (Rcase_abs (x + - m)); ring. }
  rewrite Hmap. cbn [Float.sqrt].
  match goal with |- (if Rlt_dec ?v 0 then _ else _) = _ =>
    destruct (Rlt_dec v 0) as [Hneg|_]; [exfalso|reflexivity] end.
  revert Hneg. apply Rle_not_lt.
  apply Rmult_le_pos.
  - apply sum_squares_nonneg.
  - apply Rlt_le, Rinv_0_lt_compat. apply lt_0_INR. destruct rs; [easy|cbn; lia].
Qed.




(** ** The fit of one chunk *)



(** ** What the methods do to the store *)

Section Safe.

(** [Robj] relates the attributes of [self] before and after a step. *)
Variable Robj : St.object -> St.object -> Prop.
Hypothesis Robj_refl : forall o, Robj o o.
Hypothesis Robj_trans : forall o1 o2 o3, Robj o1 o2 -> Robj o2 o3 -> Robj o1 o3.

Lemma safe_weaken (A : Type) n0 (m : St.M A) (P Q : A -> Prop) :
  safe Robj n0 m P -> (forall a, P a -> Q a) -> safe Robj n0 m Q.
Proof.
  intros H HPQ s Hs. destruct (H s Hs) as (H1 & H2 & H3 & H4).
  repeat split; auto.
Qed.

Lemma safe_ret (A : Type) n0 (a : A) (Q : A -> Prop) :
  Q a -> safe Robj n0 (St.ret a) Q.
Proof.
  intros HQ s Hs. cbn. repeat split; auto. now intros ? [= <-].
Qed.

Lemma safe_raise (A : Type) n0 (Q : A -> Prop) : safe Robj n0 (@St.raise A) Q.
Proof. intros s Hs. cbn. repeat split; auto. discriminate. Qed.

Lemma safe_lift (A : Type) n0 (o : option A) : safe Robj n0 (St.lift o) (fun _ => True).
Proof. destruct o; [now apply safe_ret|apply safe_raise]. Qed.

Lemma safe_bind (A B : Type) n0 (m : St.M A) (k : A -> St.M B)
    (P : A -> Prop) (Q : B -> Prop) :
  safe Robj n0 m P -> (forall a, P a -> safe Robj n0 (k a) Q) ->
  safe Robj n0 (St.sbind m k) Q.
Proof.
  intros Hm Hk s Hs. destruct (Hm s Hs) as (H1 & H2 & H3 & H4).
  unfold St.sbind. destruct (m s) as [[a|] s1]; cbn [fst snd] in *.
  - destruct (Hk a (H4 a eq_refl) s1 H2) as (K1 & K2 & K3 & K4).
    repeat split; eauto. congruence.
  - repeat split; auto. discriminate.
Qed.

Lemma safe_get_self n0 : safe Robj n0 St.get_self (fun _ => True).
Proof. intros s Hs. cbn. repeat split; auto. Qed.

Lemma safe_read n0 l : safe Robj n0 (St.read l) (fun _ => True).
Proof.
  intros s Hs. unfold St.read. destruct (nth_error (St.heap s) l); cbn;
    repeat split; auto.
Qed.

Lemma safe_alloc n0 v : safe Robj n0 (St.alloc v) (fun l => (n0 <= l)%nat).
Proof.
  intros s Hs. cbn. repeat split; auto.
  - rewrite length_app. lia.
  - rewrite firstn_app. replace (n0 - length (St.heap s))%nat with 0%nat by lia.
    cbn. now rewrite app_nil_r.
  - now intros ? [= <-].
Qed.

Lemma safe_write n0 l v : (n0 <= l)%nat -> safe Robj n0 (St.write l v) (fun _ => True).
Proof.
  intros Hl s Hs. unfold St.write.
  destruct (Nat.ltb l (length (St.heap s))) eqn:E; cbn [fst snd St.self St.heap];
    [|repeat split; auto].
  apply Nat.ltb_lt in E. repeat split; auto.
  - rewrite length_app, length_firstn. cbn [length]. lia.
  - rewrite firstn_app, length_firstn, firstn_firstn.
    replace (n0 - Nat.min l (length (St.heap s)))%nat with 0%nat by lia.
    cbn [firstn]. rewrite app_nil_r. f_equal. lia.
Qed.

Lemma safe_imul n0 a b : (n0 <= a)%nat -> safe Robj n0 (St.imul a b) (fun _ => True).
Proof.
  intros Ha. unfold St.imul.
  eapply safe_bind; [apply safe_read|]. intros cur _.
  eapply safe_bind; [apply safe_lift|]. intros r _.
  now apply safe_write.
Qed.

Lemma safe_kernel n0 f vk coeff_ip :
  safe Robj n0 (St.kernel f vk coeff_ip) (fun l => (n0 <= l)%nat).
Proof.
  unfold St.kernel.
  eapply safe_bind; [apply safe_lift|]. intros k _.
  eapply safe_bind; [apply safe_read|]. intros v _.
  eapply safe_bind; [apply safe_alloc|]. intros IP_k HIP.
  eapply safe_bind; [apply safe_read|]. intros cur _.
  eapply safe_bind; [now apply safe_write|]. intros _ _.
  now apply safe_ret.
Qed.

Lemma safe_flux_atm_loop n0 flux_atm pairs :
  (n0 <= flux_atm)%nat ->
  safe Robj n0 (St.flux_atm_loop flux_atm pairs) (fun _ => True).
Proof.
  intros H. induction pairs as [|[coeff_mol flux_mol] pairs IH]; cbn [St.flux_atm_loop].
  - now apply safe_ret.
  - eapply safe_bind; [apply safe_read|]. intros t _.
    eapply safe_bind; [now apply safe_imul|]. intros _ _. exact IH.
Qed.

Lemma safe_spec_gas n0 coeff_atm :
  safe Robj n0 (St.spec_gas coeff_atm) (fun l => (n0 <= l)%nat).
Proof.
  unfold St.spec_gas.
  eapply safe_bind; [apply safe_get_self|]. intros o _.
  eapply safe_bind; [apply safe_read|]. intros cell _.
  eapply safe_bind; [apply safe_alloc|]. intros spec_gas Hgas.
  destruct (St.fluxes_molec o) as [|first rest]; [now apply safe_ret|].
  eapply safe_bind; [apply safe_read|]. intros f _.
  eapply safe_bind; [apply safe_alloc|]. intros flux_atm Hatm.
  eapply safe_bind; [now apply safe_flux_atm_loop|]. intros _ _.
  eapply safe_bind with (P := fun l => (n0 <= l)%nat).
  - destruct (Nat.eqb (length coeff_atm) (length (first :: rest) + 1)).
    + eapply safe_bind; [apply safe_lift|]. intros v _.
      eapply safe_bind; [apply safe_read|]. intros grid _.
      eapply safe_bind; [apply safe_read|]. intros cur _.
      eapply safe_bind; [apply safe_lift|]. intros r _.
      apply safe_alloc.
    + now apply safe_ret.
  - intros flux_atm' Hatm'.
    eapply safe_bind; [apply safe_read|]. intros fa _.
    eapply safe_bind; [now apply safe_imul|]. intros _ _.
    now apply safe_ret.
Qed.

Ltac safe_pure :=
  repeat (eapply safe_bind;
          [first [apply safe_read | apply safe_lift | apply safe_get_self]|];
          intros ? _).

Lemma safe_call n0 pixel rv coeff_norm coeff_wave coeff_ip coeff_atm coeff_bkg :
  safe Robj n0 (St.call pixel rv coeff_norm coeff_wave coeff_ip coeff_atm coeff_bkg)
       (fun l => (n0 <= l)%nat).
Proof.
  unfold St.call.
  eapply safe_bind; [apply safe_get_self|]. intros o _.
  eapply safe_bind; [apply safe_spec_gas|]. intros spec_gas _.
  eapply safe_bind with (P := fun l => (n0 <= l)%nat).
  { destruct (St.IP o); [apply safe_kernel|apply safe_raise]. }
  intros IP_k _. safe_pure. apply safe_alloc.
Qed.

Lemma safe_call_positional n0 pixel args :
  safe Robj n0 (St.call_positional pixel args) (fun l => (n0 <= l)%nat).
Proof.
  unfold St.call_positional.
  eapply safe_bind; [apply safe_lift|]. intros a _.
  destruct (rv a), (coeff_norm a), (coeff_wave a), (coeff_ip a), (coeff_atm a),
    (coeff_bkg a); try apply safe_raise.
  apply safe_call.
Qed.

Lemma safe_run_solver n0 (f : list R -> St.M St.loc) (s : St.solver) :
  (forall params, safe Robj n0 (f params) (fun l => (n0 <= l)%nat)) ->
  safe Robj n0 (St.run_solver f s) (fun _ => True).
Proof.
  intros Hf. induction s as [params e_params| |params k IH]; cbn [St.run_solver].
  - now apply safe_ret.
  - apply safe_raise.
  - eapply safe_bind; [apply Hf|]. intros y _.
    eapply safe_bind; [apply safe_read|]. intros v _. apply IH.
Qed.

Lemma safe_show n0 params x y kw : safe Robj n0 (St.show params x y kw) (fun _ => True).
Proof.
  unfold St.show.
  eapply safe_bind; [apply safe_call_positional|]. intros ymod _.
  eapply safe_bind with (P := fun _ => True).
  { destruct (St.show_dx kw) as [dx|]; [|now apply safe_ret].
    destruct (Req_dec_T dx 0); [now apply safe_ret|].
    safe_pure.
    eapply safe_bind; [apply safe_alloc|]. intros xx _.
    eapply safe_bind; [apply safe_call_positional|]. intros _ _.
    now apply safe_ret. }
  intros _ _.
  match goal with |- safe _ _ (if ?b then _ else _) _ => destruct b end;
    [|now apply safe_ret].
  safe_pure. now apply safe_ret.
Qed.

Lemma safe_fit n0 curve_fit pixel spec_obs p sig kwargs :
  safe Robj n0 (St.fit curve_fit pixel spec_obs p sig kwargs) (fun _ => True).
Proof.
  unfold St.fit. safe_pure.
  eapply safe_bind.
  { apply safe_run_solver. intros params. apply safe_call_positional. }
  intros r _.
  eapply safe_bind with (P := fun _ => True).
  { destruct kwargs; [apply safe_show|now apply safe_ret]. }
  intros _ _. now apply safe_ret.
Qed.

End Safe.

(** Steps that keep [self] within different relations compose. *)
Lemma safe_bind_rel (A B : Type) (R1 R2 R3 : St.object -> St.object -> Prop)
    n0 (m : St.M A) (k : A -> St.M B) (P : A -> Prop) (Q : B -> Prop) :
  (forall o1 o2 o3, R1 o1 o2 -> R2 o2 o3 -> R3 o1 o3) ->
  (forall o1 o2, R1 o1 o2 -> R3 o1 o2) ->
  safe R1 n0 m P -> (forall a, P a -> safe R2 n0 (k a) Q) ->
  safe R3 n0 (St.sbind m k) Q.
Proof.
  intros Hcomp Hsub Hm Hk s Hs. destruct (Hm s Hs) as (H1 & H2 & H3 & H4).
  unfold St.sbind. destruct (m s) as [[a|] s1]; cbn [fst snd] in *.
  - destruct (Hk a (H4 a eq_refl) s1 H2) as (K1 & K2 & K3 & K4).
    repeat split; eauto. congruence.
  - repeat split; auto. discriminate.
Qed.

Lemma safe_setter (Robj : St.object -> St.object -> Prop) n0
    (f : St.object -> St.object) :
  (forall o, Robj o (f o)) ->
  safe Robj n0 (St.sbind St.get_self (fun o => St.set_self (f o))) (fun _ => True).
Proof. intros H s Hs. cbn. repeat split; auto. Qed.

Lemma same_model_attributes_refl o : same_model_attributes o o.
Proof. repeat split. Qed.

Lemma same_model_attributes_trans o1 o2 o3 :
  same_model_attributes o1 o2 -> same_model_attributes o2 o3 ->
  same_model_attributes o1 o3.
Proof. unfold same_model_attributes. intuition congruence. Qed.

(** What [base] does after its first assignment [self.x = x], for any
    relation on [self] that the assignments to [bnd], [BBxjl] and [Bxk]
    respect. *)
Ltac safe_setter_step :=
  unfold St.set_bnd, St.set_BBxjl, St.set_Bxk;
  apply safe_setter; intros; cbv beta; cbn; repeat split; reflexivity.

Ltac safe_base_step Hrefl Htrans :=
  first
    [ safe_setter_step
    | eapply (safe_bind _ Htrans) with (P := fun _ => True);
      [first [ safe_setter_step
             | apply (safe_read _ Hrefl) | apply (safe_lift _ Hrefl)
             | apply (safe_get_self _ Hrefl)
             | match goal with
               | |- safe _ _ (match ?e with _ => _ end) _ =>
                   destruct e;
                   first [now apply (safe_ret _ Hrefl)|apply (safe_raise _ Hrefl)]
               end ]|];
      intros ? _ ].

Ltac safe_base_rest Hrefl Htrans := repeat (safe_base_step Hrefl Htrans).

Lemma safe_base n0 kw :
  safe same_model_attributes n0 (St.base kw) (fun _ => True).
Proof.
  unfold St.base.
  eapply (safe_bind _ same_model_attributes_trans).
  { unfold St.set_x. apply safe_setter. intros o. repeat split. }
  intros _ _.
  safe_base_rest same_model_attributes_refl same_model_attributes_trans.
Qed.

Ltac safe_steps Hrefl Htrans :=
  repeat (eapply (safe_bind _ Htrans) with (P := fun _ => True);
          [first [ apply (safe_read _ Hrefl) | apply (safe_lift _ Hrefl)
                 | apply (safe_get_self _ Hrefl) ]|];
          intros ? _).

(** Whatever else [base] does, it leaves [self.x] at the [x] it was given. *)
Lemma safe_base_x n0 kw :
  safe (fun _ o' => St.x o' = St.kw_x kw) n0 (St.base kw) (fun _ => True).
Proof.
  unfold St.base.
  eapply safe_bind_rel with (R1 := fun _ o' => St.x o' = St.kw_x kw)
                            (R2 := fun o o' => St.x o' = St.x o)
                            (P := fun _ => True).
  - intros o1 o2 o3 H1 H2. congruence.
  - auto.
  - unfold St.set_x. apply safe_setter. reflexivity.
  - intros _ _.
    assert (Hrefl : forall o : St.object, St.x o = St.x o) by reflexivity.
    assert (Htrans : forall o1 o2 o3 : St.object,
               St.x o2 = St.x o1 -> St.x o3 = St.x o2 -> St.x o3 = St.x o1)
      by (intros; congruence).
    safe_base_rest Hrefl Htrans.
Qed.

(** [Axk] after its call of [base]: reads only. *)
Lemma safe_Axk_rel (R1 R3 : St.object -> St.object -> Prop) n0 v kw :
  (forall o1 o2, R1 o1 o2 -> R3 o1 o2) ->
  safe R1 n0 (if St.given kw then St.base kw else St.ret tt) (fun _ => True) ->
  safe R3 n0 (St.Axk v kw) (fun _ => True).
Proof.
  intros Hsub Hbase. unfold St.Axk.
  eapply safe_bind_rel with (R1 := R1) (R2 := eq) (P := fun _ => True);
    [intros o1 o2 o3 H <-; auto|exact Hsub|exact Hbase|].
  intros _ _. safe_steps (@eq_refl St.object) (@eq_trans St.object).
  apply (safe_lift _ (@eq_refl St.object)).
Qed.

Lemma safe_Axk n0 v kw :
  safe same_model_attributes n0 (St.Axk v kw) (fun _ => True).
Proof.
  apply safe_Axk_rel with (R1 := same_model_attributes); [auto|].
  destruct (St.given kw); [apply safe_base|].
  now apply (safe_ret _ same_model_attributes_refl).
Qed.

Lemma safe_Axk_no_kwargs n0 v kw :
  St.given kw = false -> safe eq n0 (St.Axk v kw) (fun _ => True).
Proof.
  intros H. apply safe_Axk_rel with (R1 := eq); [auto|].
  rewrite H. now apply (safe_ret _ (@eq_refl St.object)).
Qed.

Lemma safe_Axk_x n0 v kw :
  St.given kw = true ->
  safe (fun _ o' => St.x o' = St.kw_x kw) n0 (St.Axk v kw) (fun _ => True).
Proof.
  intros H. apply safe_Axk_rel with (R1 := fun _ o' => St.x o' = St.kw_x kw);
    [auto|].
  rewrite H. apply safe_base_x.
Qed.

Lemma safe_fit_bnd (Robj : St.object -> St.object -> Prop) n0
    (T : Type) (lstsq : list (list R) -> list R -> option T) f v kw :
  (forall o, Robj o o) ->
  (forall o1 o2 o3, Robj o1 o2 -> Robj o2 o3 -> Robj o1 o3) ->
  safe Robj n0 (St.Axk v kw) (fun _ => True) ->
  safe Robj n0 (St.fit_bnd T lstsq f v kw) (fun _ => True).
Proof.
  intros Hrefl Htrans HA. unfold St.fit_bnd.
  eapply (safe_bind _ Htrans); [exact HA|]. intros Axkl _.
  safe_steps Hrefl Htrans. apply (safe_lift _ Hrefl).
Qed.

Lemma safe_call_bnd (Robj : St.object -> St.object -> Prop) n0 x v ak kw :
  (forall o, Robj o o) ->
  (forall o1 o2 o3, Robj o1 o2 -> Robj o2 o3 -> Robj o1 o3) ->
  safe Robj n0 (St.Axk v kw) (fun _ => True) ->
  safe Robj n0 (St.call_bnd x v ak kw) (fun _ => True).
Proof.
  intros Hrefl Htrans HA. unfold St.call_bnd.
  destruct (St.kw_x kw); [apply (safe_raise _ Hrefl)|].
  eapply (safe_bind _ Htrans); [exact HA|]. intros Axkl _.
  safe_steps Hrefl Htrans.
  eapply safe_weaken; [apply (safe_alloc _ Hrefl)|auto].
Qed.

Lemma firstn_agree (A : Type) (h h' : list A) l v :
  firstn (length h) h' = firstn (length h) h ->
  nth_error h l = Some v -> nth_error h' l = Some v.
Proof.
  intros H Hl.
  assert (Hlt : (l < length h)%nat) by (apply nth_error_Some; congruence).
  assert (E : nth_error (firstn (length h) h') l = nth_error h' l).
  { rewrite nth_error_firstn. apply Nat.ltb_lt in Hlt. now rewrite Hlt. }
  rewrite <- E, H, firstn_all. exact Hl.
Qed.

Lemma safe_unchanged (A : Type) (m : St.M A) (Q : A -> Prop) s :
  safe eq (length (St.heap s)) m Q -> unchanged s (snd (m s)).
Proof.
  intros H. destruct (H s (le_n _)) as (H1 & _ & H3 & _). split; [now symmetry|].
  intros l v. now apply firstn_agree.
Qed.

Lemma safe_model_unchanged (A : Type) (m : St.M A) (Q : A -> Prop) s :
  safe same_model_attributes (length (St.heap s)) m Q ->
  model_unchanged s (snd (m s)).
Proof.
  intros H. destruct (H s (le_n _)) as (H1 & _ & H3 & _). split; [exact H1|].
  intros l v. now apply firstn_agree.
Qed.

(** *** Steps that only read *)

Lemma sbind_ok (A B : Type) (m : St.M A) (k : A -> St.M B) s a s1 :
  m s = (St.Ok a, s1) -> St.sbind m k s = k a s1.
Proof. intros H. unfold St.sbind. now rewrite H. Qed.

Lemma sbind_error (A B : Type) (m : St.M A) (k : A -> St.M B) s :
  fst (m s) = St.Error -> fst (St.sbind m k s) = St.Error.
Proof.
  intros H. unfold St.sbind. destruct (m s) as [[a|] s1]; [discriminate|reflexivity].
Qed.

Lemma reads_bind (A B : Type) (m : St.M A) (k : A -> St.M B) :
  (forall s, snd (m s) = s) -> (forall a s, snd (k a s) = s) ->
  forall s, snd (St.sbind m k s) = s.
Proof.
  intros Hm Hk s. unfold St.sbind. specialize (Hm s).
  destruct (m s) as [[a|] s1]; cbn [snd] in *; subst; [apply Hk|reflexivity].
Qed.

Lemma reads_lift (A : Type) (o : option A) s : snd (St.lift o s) = s.
Proof. now destruct o. Qed.

Lemma reads_read l s : snd (St.read l s) = s.
Proof. unfold St.read. now destruct (nth_error (St.heap s) l). Qed.

Ltac reads :=
  repeat first
    [ apply reads_lift | apply reads_read | reflexivity
    | apply reads_bind; [intros ?|intros ? ?] ].

(** After its call of [base], [Axk] only reads; [fit] and [__call__] read
    what [Axk] returns. *)
Lemma Axk_state v kw s :
  snd (St.Axk v kw s) = snd ((if St.given kw then St.base kw else St.ret tt) s).
Proof.
  unfold St.Axk. unfold St.sbind at 1.
  destruct ((if St.given kw then St.base kw else St.ret tt) s) as [[[]|] s1];
    cbn [snd]; [|reflexivity].
  revert s1. reads.
Qed.

Lemma fit_bnd_state (T : Type) (lstsq : list (list R) -> list R -> option T)
    f v kw s :
  snd (St.fit_bnd T lstsq f v kw s) = snd (St.Axk v kw s).
Proof.
  unfold St.fit_bnd. unfold St.sbind at 1.
  destruct (St.Axk v kw s) as [[Axkl|] s1]; cbn [snd]; [|reflexivity].
  revert s1. reads.
Qed.

Ltac base_run :=
  cbv [St.base St.sbind St.set_x St.get_self St.set_self St.set_bnd St.set_BBxjl
       St.set_Bxk St.ret St.raise St.lift St.read St.heap St.self St.xcen St.S_star
       St.lnwave_j St.spec_cell_j St.fluxes_molec St.IP St.dx St.IP_hs St.vk
       St.lnwave_j_eff St.func_norm St.x St.bnd St.BBxjl St.Bxk fst snd].

Ltac base_cases :=
  repeat (match goal with
          | |- context [match ?e with _ => _ end] =>
              lazymatch e with
              | context [match _ with _ => _ end] => fail
              | _ => destruct e eqn:?
              end
          end;
          cbv beta iota zeta;
          try (let HH := fresh in intro HH; discriminate HH)).

Ltac base_run_in H :=
  cbv [St.base St.sbind St.set_x St.get_self St.set_self St.set_bnd St.set_BBxjl
       St.set_Bxk St.ret St.raise St.lift St.read St.heap St.self St.xcen St.S_star
       St.lnwave_j St.spec_cell_j St.fluxes_molec St.IP St.dx St.IP_hs St.vk
       St.lnwave_j_eff St.func_norm St.x St.bnd St.BBxjl St.Bxk fst snd] in H.

Ltac base_cases_in H :=
  repeat (match type of H with
          | context [match ?e with _ => _ end] =>
              lazymatch e with
              | context [match _ with _ => _ end] => fail
              | _ => destruct e eqn:?
              end
          end;
          cbv beta iota zeta in H;
          try discriminate H).

(** [base] that returns has replaced the four cached attributes: they hold
    values, [x] the array it was given, and the state it leaves is the same
    from whatever values these attributes held before. *)
Lemma base_overwrites kw s s1 :
  St.base kw s = (St.Ok tt, s1) ->
  St.kw_x kw <> None /\
  St.x (St.self s1) = St.kw_x kw /\
  St.bnd (St.self s1) <> None /\
  St.BBxjl (St.self s1) <> None /\
  St.Bxk (St.self s1) <> None /\
  forall s',
    St.heap s' = St.heap s ->
    same_model_attributes (St.self s) (St.self s') ->
    St.base kw s' = (St.Ok tt, s1).
Proof.
  intros H.
  assert (Hind : forall s',
            St.heap s' = St.heap s ->
            same_model_attributes (St.self s) (St.self s') ->
            St.base kw s' = (St.Ok tt, s1)).
  { intros [h' o'] Hh Ha. destruct s as [h o]. cbn [St.heap St.self] in *. subst h'.
    destruct o, o'. unfold same_model_attributes in Ha.
    cbn [St.xcen St.S_star St.lnwave_j St.spec_cell_j St.fluxes_molec St.IP St.dx
         St.IP_hs St.vk St.lnwave_j_eff St.func_norm] in Ha.
    destruct Ha as (? & ? & ? & ? & ? & ? & ? & ? & ? & ? & ?). subst.
    revert H. base_run. base_cases; exact (fun H => H). }
  assert (Hnew : St.kw_x kw <> None /\
                 St.x (St.self s1) = St.kw_x kw /\
                 St.bnd (St.self s1) <> None /\
                 St.BBxjl (St.self s1) <> None /\
                 St.Bxk (St.self s1) <> None).
  { clear Hind. destruct s as [h o]. destruct o.
    base_run_in H. base_cases_in H.
    all: injection H as <-; cbn [St.self St.x St.bnd St.BBxjl St.Bxk].
    all: repeat split; (discriminate || congruence). }
  destruct Hnew as (H1 & H2 & H3 & H4 & H5). repeat split; assumption.
Qed.

(** Without an [x], [base] stores [None] in [self.x] and raises before it
    touches another attribute. *)
Lemma base_without_x kw s :
  St.kw_x kw = None ->
  fst (St.base kw s) = St.Error /\
  St.heap (snd (St.base kw s)) = St.heap s /\
  St.x (St.self (snd (St.base kw s))) = None /\
  St.bnd (St.self (snd (St.base kw s))) = St.bnd (St.self s) /\
  St.BBxjl (St.self (snd (St.base kw s))) = St.BBxjl (St.self s) /\
  St.Bxk (St.self (snd (St.base kw s))) = St.Bxk (St.self s).
Proof.
  intros Hx. destruct s as [h o]. base_run. rewrite Hx.
  destruct o. cbn [St.IP]. 
  match goal with |- context [match ?e with IP_function _ => _ | IP_array _ => _ end] =>
    destruct e end; repeat split; reflexivity.
Qed.

Lemma call_bnd_kwargs_raise x v ak kw s :
  St.kw_x kw = None -> St.given kw = true ->
  fst (St.call_bnd x v ak kw s) = St.Error /\
  snd (St.call_bnd x v ak kw s) = snd (St.base kw s).
Proof.
  intros Hx Hg. unfold St.call_bnd. rewrite Hx.
  destruct (base_without_x kw s Hx) as (Herr & _).
  unfold St.Axk. rewrite Hg.
  destruct (St.base kw s) as [[[]|] s1] eqn:E; cbn [fst snd] in *; [discriminate|].
  unfold St.sbind. rewrite E. split; reflexivity.
Qed.

(** C9, as stated, fails for the band-matrix variant: [Axk] called with a
    keyword argument runs [base], which stores the pixel array in [self.x]
    (and new index and base arrays beside it), whether the call then returns
    or raises. *)
Lemma Axk_with_kwargs_rewrites_cache :
  St.x (St.self bnd_state) = None /\
  St.x (St.self (snd (St.Axk 0 kwargs_x bnd_state))) = Some 2%nat /\
  ~ unchanged bnd_state (snd (St.Axk 0 kwargs_x bnd_state)).
Proof.
  assert (H : St.x (St.self (snd (St.Axk 0 kwargs_x bnd_state))) = Some 2%nat).
  { destruct (safe_Axk_x 0 0 kwargs_x eq_refl bnd_state) as (H & _); [cbn; lia|].
    exact H. }
  split; [reflexivity|]. split; [exact H|].
  intros (Hself & _). rewrite Hself in H. discriminate.
Qed.

(** C9, amended. [model.__call__] and [model.fit] (whatever the solver asks
    for, with or without plotting) leave every attribute of the model object
    and every array that existed before the call as they were; so do
    [model_bnd.Axk], [model_bnd.fit] and [model_bnd.__call__] when called
    without keyword arguments.  In every call the attributes set by
    [__init__] and the arrays that existed before stay as they were.
    [Axk] and [fit] called with keyword arguments leave the state that
    [base] leaves: [self.x] is the [x] given ([None] without one), and when
    [base] returns, [x], [bnd], [BBxjl] and [Bxk] hold new values that do
    not depend on the ones they held before.  [__call__] raises on the
    keyword [x] before anything is touched; with [degk] or [sig_k] alone it
    raises too, after [base] has stored [None] in [self.x]. *)
Theorem evaluation_leaves_model_unchanged :
  (forall s pixel rv coeff_norm coeff_wave coeff_ip coeff_atm coeff_bkg,
     unchanged s
       (snd (St.call pixel rv coeff_norm coeff_wave coeff_ip coeff_atm coeff_bkg s))) /\
  (forall curve_fit s pixel spec_obs p sig kwargs,
     unchanged s (snd (St.fit curve_fit pixel spec_obs p sig kwargs s))) /\
  (forall s v kw,
     St.given kw = false -> unchanged s (snd (St.Axk v kw s))) /\
  (forall (T : Type) (lstsq : list (list R) -> list R -> option T) s f v kw,
     St.given kw = false -> unchanged s (snd (St.fit_bnd T lstsq f v kw s))) /\
  (forall s x v ak kw,
     St.given kw = false -> unchanged s (snd (St.call_bnd x v ak kw s))) /\
  (forall s v kw, model_unchanged s (snd (St.Axk v kw s))) /\
  (forall (T : Type) (lstsq : list (list R) -> list R -> option T) s f v kw,
     model_unchanged s (snd (St.fit_bnd T lstsq f v kw s))) /\
  (forall s x v ak kw, model_unchanged s (snd (St.call_bnd x v ak kw s))) /\
  (forall s v kw,
     St.given kw = true ->
     St.x (St.self (snd (St.Axk v kw s))) = St.kw_x kw) /\
  (forall (T : Type) (lstsq : list (list R) -> list R -> option T) s f v kw,
     St.given kw = true ->
     St.x (St.self (snd (St.fit_bnd T lstsq f v kw s))) = St.kw_x kw) /\
  (forall s v kw,
     St.given kw = true -> snd (St.Axk v kw s) = snd (St.base kw s)) /\
  (forall (T : Type) (lstsq : list (list R) -> list R -> option T) s f v kw,
     St.given kw = true ->
     snd (St.fit_bnd T lstsq f v kw s) = snd (St.base kw s)) /\
  (forall s kw s1,
     St.base kw s = (St.Ok tt, s1) ->
     St.kw_x kw <> None /\
     St.x (St.self s1) = St.kw_x kw /\
     St.bnd (St.self s1) <> None /\
     St.BBxjl (St.self s1) <> None /\
     St.Bxk (St.self s1) <> None /\
     forall s',
       St.heap s' = St.heap s ->
       same_model_attributes (St.self s) (St.self s') ->
       St.base kw s' = (St.Ok tt, s1)) /\
  (forall s x v ak kw,
     St.kw_x kw <> None -> St.call_bnd x v ak kw s = (St.Error, s)) /\
  (forall s x v ak kw,
     St.kw_x kw = None -> St.given kw = true ->
     let s' := snd (St.call_bnd x v ak kw s) in
     fst (St.call_bnd x v ak kw s) = St.Error /\
     St.heap s' = St.heap s /\
     St.x (St.self s') = None /\
     St.bnd (St.self s') = St.bnd (St.self s) /\
     St.BBxjl (St.self s') = St.BBxjl (St.self s) /\
     St.Bxk (St.self s') = St.Bxk (St.self s)).
Proof.
  assert (HAx : forall s v kw,
            St.given kw = true ->
            St.x (St.self (snd (St.Axk v kw s))) = St.kw_x kw).
  { intros s v kw H. destruct (safe_Axk_x 0 v kw H s) as (Hx & _); [lia|].
    exact Hx. }
  assert (HAs : forall s v kw,
            St.given kw = true -> snd (St.Axk v kw s) = snd (St.base kw s)).
  { intros s v kw H. rewrite Axk_state. now rewrite H. }
  repeat match goal with |- _ /\ _ => split end.
  - intros. eapply safe_unchanged.
    apply (safe_call _ (@eq_refl St.object) (@eq_trans St.object)).
  - intros. eapply safe_unchanged.
    apply (safe_fit _ (@eq_refl St.object) (@eq_trans St.object)).
  - intros. eapply safe_unchanged. now apply safe_Axk_no_kwargs.
  - intros. eapply safe_unchanged.
    apply (safe_fit_bnd eq); [reflexivity|intros; congruence|].
    now apply safe_Axk_no_kwargs.
  - intros. eapply safe_unchanged.
    apply (safe_call_bnd eq); [reflexivity|intros; congruence|].
    now apply safe_Axk_no_kwargs.
  - intros. apply (safe_model_unchanged _ _ (fun _ => True)). apply safe_Axk.
  - intros. apply (safe_model_unchanged _ _ (fun _ => True)).
    apply safe_fit_bnd;
      [apply same_model_attributes_refl|apply same_model_attributes_trans|].
    apply safe_Axk.
  - intros. apply (safe_model_unchanged _ _ (fun _ => True)).
    apply safe_call_bnd;
      [apply same_model_attributes_refl|apply same_model_attributes_trans|].
    apply safe_Axk.
  - exact HAx.
  - intros T lstsq s f v kw H. rewrite fit_bnd_state. now apply HAx.
  - exact HAs.
  - intros T lstsq s f v kw H. rewrite fit_bnd_state. now apply HAs.
  - intros s kw s1 H. now apply base_overwrites.
  - intros s x v ak kw H. unfold St.call_bnd.
    destruct (St.kw_x kw); [reflexivity|easy].
  - intros s x v ak kw Hx Hg. cbv zeta.
    destruct (call_bnd_kwargs_raise x v ak kw s Hx Hg) as (Herr & ->).
    destruct (base_without_x kw s Hx) as (_ & Hh & H1 & H2 & H3 & H4).
    repeat split; assumption.
Qed.

Lemma evaluation_leaves_model_unchanged_witness :
  unchanged bnd_state (snd (St.Axk 0 no_kwargs bnd_state)).
Proof.
  exact (proj1 (proj2 (proj2 evaluation_leaves_model_unchanged))
           bnd_state 0 no_kwargs eq_refl).
Defined.

(** ** The store semantics computes the pure evaluator *)

Lemma same_below_refl n s : (n <= length (St.heap s))%nat -> same_below n s s.
Proof. intros H. repeat split; auto. Qed.

Lemma same_below_trans n s1 s2 s3 :
  same_below n s1 s2 -> same_below n s2 s3 -> same_below n s1 s3.
Proof.
  intros (A1 & A2 & A3) (B1 & B2 & B3). repeat split; [congruence|auto|].
  intros l Hl. rewrite B3, A3; auto.
Qed.

Lemma read_ok s l v :
  nth_error (St.heap s) l = Some v -> St.read l s = (St.Ok v, s).
Proof. intros H. unfold St.read. now rewrite H. Qed.

Lemma alloc_ok v s :
  exists s', St.alloc v s = (St.Ok (length (St.heap s)), s') /\
    same_below (length (St.heap s)) s s' /\
    length (St.heap s') = S (length (St.heap s)) /\
    nth_error (St.heap s') (length (St.heap s)) = Some v.
Proof.
  eexists. split; [reflexivity|]. unfold same_below. cbn [St.heap St.self].
  repeat split.
  - rewrite length_app. lia.
  - intros l Hl. now rewrite nth_error_app1.
  - rewrite length_app. cbn. lia.
  - rewrite nth_error_app2, Nat.sub_diag by lia. reflexivity.
Qed.

Lemma write_ok l v s :
  (l < length (St.heap s))%nat ->
  exists s', St.write l v s = (St.Ok tt, s') /\
    St.self s' = St.self s /\
    length (St.heap s') = length (St.heap s) /\
    nth_error (St.heap s') l = Some v /\
    forall l', l' <> l -> nth_error (St.heap s') l' = nth_error (St.heap s) l'.
Proof.
  intros Hl. unfold St.write.
  assert (E : Nat.ltb l (length (St.heap s)) = true) by now apply Nat.ltb_lt.
  rewrite E. eexists. split; [reflexivity|]. cbn [St.heap St.self].
  assert (Hfl : length (firstn l (St.heap s)) = l) by (rewrite length_firstn; lia).
  repeat split.
  - rewrite length_app, Hfl. cbn [length]. rewrite length_skipn. lia.
  - rewrite nth_error_app2 by lia. rewrite Hfl, Nat.sub_diag. reflexivity.
  - intros l' Hne. destruct (Nat.lt_ge_cases l' l) as [Hlt|Hge].
    + rewrite nth_error_app1 by lia. rewrite nth_error_firstn.
      apply Nat.ltb_lt in Hlt. now rewrite Hlt.
    + rewrite nth_error_app2 by lia. rewrite Hfl.
      destruct (l' - l)%nat as [|d] eqn:Ed; [lia|]. cbn [nth_error].
      rewrite nth_error_skipn. f_equal. lia.
Qed.

Lemma nth_error_valid (A : Type) (h : list A) l v :
  nth_error h l = Some v -> (l < length h)%nat.
Proof. intros H. apply nth_error_Some. congruence. Qed.

Lemma refines_bind_ok (A B V : Type) (m : St.M A) (k : A -> St.M B) s a s1
    (pure : option V) (post : V -> B -> St.state -> Prop) :
  m s = (St.Ok a, s1) -> refines (k a) s1 pure post ->
  refines (St.sbind m k) s pure post.
Proof.
  intros Hm H. unfold refines in *. now rewrite (sbind_ok _ _ _ _ _ _ _ Hm).
Qed.

Lemma refines_bind_error (A B V : Type) (m : St.M A) (k : A -> St.M B) s
    (post : V -> B -> St.state -> Prop) :
  fst (m s) = St.Error -> refines (St.sbind m k) s None post.
Proof. intros H. now apply sbind_error. Qed.

Lemma imul_refines s a b cur :
  nth_error (St.heap s) a = Some cur ->
  refines (St.imul a b) s (NpArr.iop Rmult cur b)
    (fun r _ s' => overwritten a r s s').
Proof.
  intros Ha. unfold St.imul.
  eapply refines_bind_ok; [exact (read_ok _ _ _ Ha)|].
  destruct (NpArr.iop Rmult cur b) as [r|]; cbn [St.lift].
  - eapply refines_bind_ok; [reflexivity|].
    destruct (write_ok a r s (nth_error_valid _ _ _ _ Ha)) as (s' & Hw & H).
    exists tt, s'. split; [exact Hw|exact H].
  - now apply refines_bind_error.
Qed.

Lemma flux_atm_fold_none pairs :
  fold_left model.flux_atm_step pairs None = None.
Proof. induction pairs as [|p pairs IH]; [reflexivity|exact IH]. Qed.

(** The loop over the store and the pure loop, for templates stored away
    from the array [flux_atm]. *)
Lemma flux_atm_loop_refines (pairs : list (R * St.loc)) :
  forall (ppairs : list (R * list R)) s flux_atm acc,
    nth_error (St.heap s) flux_atm = Some acc ->
    Forall2 (fun p q => fst p = fst q /\
                        nth_error (St.heap s) (snd p) = Some (snd q) /\
                        snd p <> flux_atm) pairs ppairs ->
    refines (St.flux_atm_loop flux_atm pairs) s
      (fold_left model.flux_atm_step ppairs (Some acc))
      (fun r _ s' => overwritten flux_atm r s s').
Proof.
  induction pairs as [|[coeff_mol flux_mol] pairs IH];
    intros ppairs s flux_atm acc Hacc HF; inversion HF as [|? [c t] ? ? Hq HF']; subst.
  - cbn [fold_left St.flux_atm_loop refines]. exists tt, s.
    split; [reflexivity|]. repeat split; auto.
  - cbn [fst snd] in Hq. destruct Hq as (<- & Ht & Hne).
    cbn [St.flux_atm_loop fold_left].
    eapply refines_bind_ok; [exact (read_ok _ _ _ Ht)|].
    pose proof (imul_refines s flux_atm
                  (map (fun v => Np.power v (Rabs coeff_mol)) t) acc Hacc) as Himul.
    unfold model.flux_atm_step at 2. cbn [bind fst snd].
    destruct (NpArr.iop Rmult acc (map (fun v => Np.power v (Rabs coeff_mol)) t))
      as [r|]; cbn [refines] in Himul.
    + destruct Himul as ([] & s1 & Hrun & Hself & Hlen & Hr & Hother).
      eapply refines_bind_ok; [exact Hrun|].
      assert (HF1 : Forall2 (fun p q => fst p = fst q /\
                        nth_error (St.heap s1) (snd p) = Some (snd q) /\
                        snd p <> flux_atm) pairs l').
      { eapply Forall2_impl; [|exact HF']. intros p q (E1 & E2 & E3).
        repeat split; auto. now rewrite Hother. }
      specialize (IH l' s1 flux_atm r Hr HF1).
      destruct (fold_left model.flux_atm_step l' (Some r)) as [r'|]; cbn [refines] in *.
      * destruct IH as ([] & s2 & Hrun2 & Hself2 & Hlen2 & Hr2 & Hother2).
        exists tt, s2. split; [exact Hrun2|].
        repeat split; try congruence. intros l Hl. now rewrite Hother2, Hother.
      * exact IH.
    + rewrite flux_atm_fold_none. now apply refines_bind_error.
Qed.

Lemma kernel_refines s f vkl vkv coeff_ip :
  nth_error (St.heap s) vkl = Some vkv ->
  refines (St.kernel f vkl coeff_ip) s (call_IP f vkv coeff_ip)
    (fun k l s' => same_below (length (St.heap s)) s s' /\
                   (length (St.heap s) <= l)%nat /\
                   nth_error (St.heap s') l = Some k).
Proof.
  intros Hvk. unfold St.kernel, call_IP.
  destruct (bind_kernel f coeff_ip) as [kc|]; cbn [bind St.lift];
    [|now apply refines_bind_error].
  eapply refines_bind_ok; [reflexivity|].
  eapply refines_bind_ok; [exact (read_ok _ _ _ Hvk)|].
  destruct (alloc_ok (unnormalised kc vkv) s) as (s1 & Hrun1 & Hsame1 & Hlen1 & Hnew1).
  eapply refines_bind_ok; [exact Hrun1|].
  eapply refines_bind_ok; [exact (read_ok _ _ _ Hnew1)|].
  destruct (write_ok (length (St.heap s))
              (Np.idiv (unnormalised kc vkv) (Np.sum (unnormalised kc vkv))) s1)
    as (s2 & Hrun2 & Hself2 & Hlen2 & Hnew2 & Hother2); [lia|].
  eapply refines_bind_ok; [exact Hrun2|].
  cbn [refines]. exists (length (St.heap s)), s2. split; [reflexivity|].
  destruct Hsame1 as (S1 & S2 & S3).
  repeat split; try congruence; try lia.
  - intros l Hl. rewrite Hother2 by lia. now apply S3.
  - rewrite Hnew2, run_kernel_normalise. reflexivity.
Qed.

Lemma mapM_Forall2 (A B : Type) (f : A -> option B) l r :
  mapM f l = Some r -> Forall2 (fun x y => f x = Some y) l r.
Proof.
  revert r. induction l as [|x l IH]; intros r H; cbn [mapM] in H.
  - injection H as <-. constructor.
  - destruct (f x) as [y|] eqn:E; [|discriminate]. cbn [bind] in H.
    destruct (mapM f l) as [ys|]; [|discriminate]. cbn [bind] in H.
    injection H as <-. constructor; auto.
Qed.

Lemma snapshot_inv s m :
  snapshot s = Some m ->
  nth_error (St.heap s) (St.lnwave_j (St.self s)) = Some (model.lnwave_j m) /\
  nth_error (St.heap s) (St.spec_cell_j (St.self s)) = Some (model.spec_cell_j m) /\
  Forall2 (fun l t => nth_error (St.heap s) l = Some t)
          (St.fluxes_molec (St.self s)) (model.fluxes_molec m) /\
  nth_error (St.heap s) (St.vk (St.self s)) = Some (model.vk m) /\
  (exists base,
     nth_error (St.heap s) (fst (fst (St.lnwave_j_eff (St.self s)))) = Some base /\
     model.lnwave_j_eff m =
     Py.slice (snd (fst (St.lnwave_j_eff (St.self s))))
              (snd (St.lnwave_j_eff (St.self s))) base) /\
  model.xcen m = St.xcen (St.self s) /\
  model.S_star m = St.S_star (St.self s) /\
  model.IP m = St.IP (St.self s) /\
  model.func_norm m = St.func_norm (St.self s).
Proof.
  unfold snapshot. intros H.
  destruct (nth_error (St.heap s) (St.lnwave_j (St.self s))) as [grid|];
    [|discriminate].
  destruct (nth_error (St.heap s) (St.spec_cell_j (St.self s))) as [cell|];
    [|discriminate].
  destruct (mapM (nth_error (St.heap s)) (St.fluxes_molec (St.self s)))
    as [fluxes|] eqn:Efl; [|discriminate].
  destruct (nth_error (St.heap s) (St.vk (St.self s))) as [vk|]; [|discriminate].
  destruct (nth_error (St.heap s) (fst (fst (St.lnwave_j_eff (St.self s)))))
    as [base|]; [|discriminate].
  cbn [bind] in H. injection H as <-. cbn.
  repeat split; auto.
  - now apply mapM_Forall2.
  - now exists base.
Qed.

Lemma same_below_weaken n n' s s' :
  same_below n' s s' -> (n <= n')%nat -> same_below n s s'.
Proof.
  intros (H1 & H2 & H3) Hn. repeat split; [exact H1|lia|].
  intros l Hl. apply H3. lia.
Qed.

Lemma same_below_overwritten n a r s s' :
  overwritten a r s s' -> (n <= a)%nat -> (n <= length (St.heap s))%nat ->
  same_below n s s'.
Proof.
  intros (H1 & H2 & H3 & H4) Ha Hn. repeat split; [exact H1|lia|].
  intros l Hl. apply H4. lia.
Qed.

Lemma same_below_read n s s' l v :
  same_below n s s' -> (l < n)%nat ->
  nth_error (St.heap s) l = Some v -> nth_error (St.heap s') l = Some v.
Proof. intros (_ & _ & H) Hl Hv. now rewrite H. Qed.

Lemma bind_assoc (A B C : Type) (x : option A) (f : A -> option B)
    (g : B -> option C) :
  bind (bind x f) g = bind x (fun a => bind (f a) g).
Proof. now destruct x. Qed.

(** Composition: a step that refines [pure1], followed by a continuation
    that refines [pure2] from every state the step can leave. *)
Lemma refines_bind (A B V W : Type) (m : St.M A) (k : A -> St.M B) s
    (pure1 : option V) (pure2 : V -> option W)
    (post1 : V -> A -> St.state -> Prop) (post : W -> B -> St.state -> Prop) :
  refines m s pure1 post1 ->
  (forall v a s1, post1 v a s1 -> refines (k a) s1 (pure2 v) post) ->
  refines (St.sbind m k) s (bind pure1 pure2) post.
Proof.
  intros Hm Hk. destruct pure1 as [v|]; cbn [refines bind] in *.
  - destruct Hm as (a & s1 & Hrun & Hpost).
    eapply refines_bind_ok; [exact Hrun|]. now apply Hk.
  - now apply sbind_error.
Qed.

Lemma refines_lift (A B V : Type) (o : option A) (k : A -> St.M B) s
    (pure : A -> option V) (post : V -> B -> St.state -> Prop) :
  (forall a, o = Some a -> refines (k a) s (pure a) post) ->
  refines (St.sbind (St.lift o) k) s (bind o pure) post.
Proof.
  intros H. destruct o as [a|]; cbn [bind St.lift].
  - eapply refines_bind_ok; [reflexivity|]. now apply H.
  - now apply refines_bind_error.
Qed.

Lemma Forall2_combine_left (A B C : Type) (P : B -> C -> Prop)
    (xs : list A) (ls : list B) (ts : list C) :
  Forall2 P ls ts ->
  Forall2 (fun p q => fst p = fst q /\ P (snd p) (snd q))
          (combine xs ls) (combine xs ts).
Proof.
  intros H. revert xs. induction H as [|l t ls ts Hlt _ IH]; intros [|x xs];
    cbn [combine]; constructor; auto.
Qed.

Lemma refines_assoc (A B C V : Type) (m : St.M A) (f : A -> St.M B)
    (g : B -> St.M C) s (pure : option V) (post : V -> C -> St.state -> Prop) :
  refines (St.sbind m (fun a => St.sbind (f a) g)) s pure post ->
  refines (St.sbind (St.sbind m f) g) s pure post.
Proof.
  assert (E : St.sbind (St.sbind m f) g s = St.sbind m (fun a => St.sbind (f a) g) s).
  { unfold St.sbind. destruct (m s) as [[a|] s1]; reflexivity. }
  unfold refines. now rewrite E.
Qed.

(** The last lines of the absorber block: [spec_gas *= flux_atm]. *)
Lemma spec_gas_tail_refines n s0 s spec_gas flux_atm gas fv :
  same_below n s0 s ->
  (n <= spec_gas)%nat ->
  nth_error (St.heap s) spec_gas = Some gas ->
  nth_error (St.heap s) flux_atm = Some fv ->
  refines (St.sbind (St.read flux_atm)
             (fun fa => St.sbind (St.imul spec_gas fa)
                          (fun _ => St.ret spec_gas)))
    s (NpArr.iop Rmult gas fv)
    (fun g l s' => same_below n s0 s' /\ (n <= l)%nat /\
                   nth_error (St.heap s') l = Some g).
Proof.
  intros Hsame Hn Hgas Hfa.
  eapply refines_bind_ok; [exact (read_ok _ _ _ Hfa)|].
  pose proof (imul_refines s spec_gas fv gas Hgas) as Him.
  destruct (NpArr.iop Rmult gas fv) as [g|]; cbn [refines] in *.
  - destruct Him as ([] & s' & Hrun & Hov).
    exists spec_gas, s'. split.
    + now rewrite (sbind_ok _ _ _ _ _ _ _ Hrun).
    + split; [|split; [exact Hn|apply Hov]].
      eapply same_below_trans; [exact Hsame|].
      eapply same_below_overwritten; [exact Hov|exact Hn|apply Hsame].
  - now apply sbind_error.
Qed.

(** The absorber block over the store computes the pure [spec_gas] into a
    new array. *)
Lemma spec_gas_refines s m coeff_atm :
  snapshot s = Some m ->
  refines (St.spec_gas coeff_atm) s (model.spec_gas m coeff_atm)
    (fun g l s' => same_below (length (St.heap s)) s s' /\
                   (length (St.heap s) <= l)%nat /\
                   nth_error (St.heap s') l = Some g).
Proof.
  intros Hsnap.
  destruct (snapshot_inv s m Hsnap) as (Hgrid & Hcell & Hfl & _).
  set (n := length (St.heap s)).
  unfold St.spec_gas, model.spec_gas.
  eapply refines_bind_ok; [reflexivity|].
  eapply refines_bind_ok; [exact (read_ok _ _ _ Hcell)|].
  destruct (alloc_ok (map (fun v => 1 * v) (model.spec_cell_j m)) s)
    as (s1 & Hrun1 & Hsame1 & Hlen1 & Hnew1). fold n in Hrun1, Hsame1, Hlen1, Hnew1.
  eapply refines_bind_ok; [exact Hrun1|].
  assert (Hlenfl : length (St.fluxes_molec (St.self s)) = length (model.fluxes_molec m))
    by (eapply Forall2_length; exact Hfl).
  destruct (St.fluxes_molec (St.self s)) as [|first rest];
    destruct (model.fluxes_molec m) as [|tfirst trest] eqn:ET;
    try discriminate Hlenfl.
  { cbn [refines]. exists n, s1. split; [reflexivity|].
    split; [exact Hsame1|]. split; [lia|exact Hnew1]. }
  assert (Hfirst : nth_error (St.heap s) first = Some tfirst) by now inversion Hfl.
  assert (Hfirst1 : nth_error (St.heap s1) first = Some tfirst).
  { eapply same_below_read; [exact Hsame1| |exact Hfirst].
    eapply nth_error_valid; exact Hfirst. }
  eapply refines_bind_ok; [exact (read_ok _ _ _ Hfirst1)|].
  destruct (alloc_ok (NpArr.ones (length tfirst)) s1)
    as (s2 & Hrun2 & Hsame2 & Hlen2 & Hnew2).
  rewrite Hlen1 in Hrun2, Hsame2, Hlen2, Hnew2.
  eapply refines_bind_ok; [exact Hrun2|].
  assert (Hs2 : same_below n s s2).
  { eapply same_below_trans; [exact Hsame1|].
    eapply same_below_weaken; [exact Hsame2|lia]. }
  assert (Hgas2 : nth_error (St.heap s2) n = Some (map (fun v => 1 * v) (model.spec_cell_j m))).
  { eapply same_below_read; [exact Hsame2|lia|exact Hnew1]. }
  unfold model.flux_atm_shifted, model.flux_atm_loop. rewrite ET, bind_assoc.
  eapply refines_bind.
  { apply flux_atm_loop_refines with (s := s2) (flux_atm := S n); [exact Hnew2|].
    eapply Forall2_impl;
      [|apply (Forall2_combine_left _ _ _ _ coeff_atm _ _ Hfl)].
    intros p q (E1 & E2). cbn beta in E2.
    assert (snd p < n)%nat by (eapply nth_error_valid; exact E2).
    repeat split; [exact E1| |lia].
    eapply same_below_read; [exact Hs2|assumption|exact E2]. }
  intros r [] s3 Hov.
  assert (Hs3 : same_below n s s3).
  { eapply same_below_trans; [exact Hs2|].
    eapply same_below_overwritten; [exact Hov|lia|apply Hs2]. }
  assert (Hgas3 : nth_error (St.heap s3) n = Some (map (fun v => 1 * v) (model.spec_cell_j m))).
  { destruct Hov as (_ & _ & _ & Hother). rewrite Hother by lia. exact Hgas2. }
  assert (Hfa3 : nth_error (St.heap s3) (S n) = Some r) by apply Hov.
  cbn [length] in Hlenfl. cbn [length]. rewrite Hlenfl.
  destruct (Nat.eqb (length coeff_atm) (S (length trest) + 1)).
  - rewrite bind_assoc. apply refines_assoc, refines_lift. intros v _.
    assert (Hgrid3 : nth_error (St.heap s3) (St.lnwave_j (St.self s)) =
                     Some (model.lnwave_j m)).
    { eapply same_below_read; [exact Hs3| |exact Hgrid].
      eapply nth_error_valid; exact Hgrid. }
    apply refines_assoc.
    eapply refines_bind_ok; [exact (read_ok _ _ _ Hgrid3)|].
    apply refines_assoc.
    eapply refines_bind_ok; [exact (read_ok _ _ _ Hfa3)|].
    apply refines_assoc, refines_lift. intros r' _.
    destruct (alloc_ok r' s3) as (s4 & Hrun4 & Hsame4 & Hlen4 & Hnew4).
    eapply refines_bind_ok; [exact Hrun4|].
    assert (Hn3 : (S (S n) <= length (St.heap s3))%nat).
    { destruct Hov as (_ & Hl & _). lia. }
    apply spec_gas_tail_refines with (n := n) (s0 := s) (gas := map (fun v => 1 * v) (model.spec_cell_j m)).
    + eapply same_below_trans; [exact Hs3|].
      eapply same_below_weaken; [exact Hsame4|lia].
    + lia.
    + eapply same_below_read; [exact Hsame4|lia|exact Hgas3].
    + exact Hnew4.
  - cbn [bind]. eapply refines_bind_ok; [reflexivity|].
    apply spec_gas_tail_refines with (n := n) (s0 := s) (gas := map (fun v => 1 * v) (model.spec_cell_j m)); auto.
Qed.

Lemma refines_raise (A B V : Type) (k : A -> St.M B) s
    (post : V -> B -> St.state -> Prop) :
  refines (St.sbind St.raise k) s None post.
Proof. now apply refines_bind_error. Qed.

(** X15. The evaluator over the store and the pure evaluator on the model
    read out of the store agree: both raise, or the store evaluator returns a new
    array holding the pure result, with the model object and every array
    that existed before as they were. *)
Theorem call_refines s m pixel px rv0 cn cw ci ca cb :
  snapshot s = Some m ->
  nth_error (St.heap s) pixel = Some px ->
  refines (St.call pixel rv0 cn cw ci ca cb) s (model.call m px rv0 cn cw ci ca cb)
    (fun v l s' => same_below (length (St.heap s)) s s' /\
                   (length (St.heap s) <= l)%nat /\
                   nth_error (St.heap s') l = Some v).
Proof.
  intros Hsnap Hpx.
  destruct (snapshot_inv s m Hsnap)
    as (Hgrid & Hcell & Hfl & Hvk & (base & Hbase & Heff) & Hxcen & HS & HIP & Hfn).
  set (n := length (St.heap s)).
  unfold St.call, model.call, model.Sj_eff, model.kernel.
  rewrite Hxcen, HS, HIP, Hfn, Heff. rewrite !bind_assoc.
  eapply refines_bind_ok; [reflexivity|].
  eapply refines_bind; [exact (spec_gas_refines s m ca Hsnap)|].
  intros g lgas s1 (Hs1 & Hlgas & Hg). fold n in Hs1, Hlgas.
  assert (Hn1 : (n <= length (St.heap s1))%nat) by apply Hs1.
  assert (Hlgas1 : (lgas < length (St.heap s1))%nat)
    by (eapply nth_error_valid; exact Hg).
  rewrite !bind_assoc.
  destruct (St.IP (St.self s)) as [f|bg]; [|apply refines_raise].
  eapply refines_bind.
  { apply kernel_refines with (vkv := model.vk m).
    eapply same_below_read; [exact Hs1| |exact Hvk].
    eapply nth_error_valid; exact Hvk. }
  intros k lk s2 (Hs12 & Hlk & Hk).
  assert (Hs2 : same_below n s s2).
  { eapply same_below_trans; [exact Hs1|].
    eapply same_below_weaken; [exact Hs12|exact Hn1]. }
  assert (Hold2 : forall l v, nth_error (St.heap s) l = Some v ->
                              nth_error (St.heap s2) l = Some v).
  { intros l v Hl. eapply same_below_read; [exact Hs2| |exact Hl].
    eapply nth_error_valid; exact Hl. }
  eapply refines_bind_ok; [exact (read_ok _ _ _ Hk)|].
  eapply refines_bind_ok; [exact (read_ok _ _ _ (Hold2 _ _ Hgrid))|].
  rewrite !bind_assoc. apply refines_lift. intros star _.
  assert (Hg2 : nth_error (St.heap s2) lgas = Some g).
  { eapply same_below_read; [exact Hs12|exact Hlgas1|exact Hg]. }
  eapply refines_bind_ok; [exact (read_ok _ _ _ Hg2)|].
  rewrite !bind_assoc. apply refines_lift. intros bkg0 _.
  rewrite !bind_assoc. apply refines_lift. intros signal _.
  apply refines_lift. intros Sj _.
  eapply refines_bind_ok; [exact (read_ok _ _ _ (Hold2 _ _ Hpx))|].
  eapply refines_bind_ok; [exact (read_ok _ _ _ (Hold2 _ _ Hbase))|].
  apply refines_lift. intros Si_eff _.
  match goal with |- refines (St.sbind (St.lift ?o) _) _ _ _ =>
    destruct o as [Si_mod|] end; [|now apply refines_bind_error].
  eapply refines_bind_ok; [reflexivity|].
  destruct (alloc_ok Si_mod s2) as (s3 & Hrun3 & Hs23 & Hlen3 & Hnew3).
  cbn [refines]. exists (length (St.heap s2)), s3. split; [exact Hrun3|].
  assert (Hn2 : (n <= length (St.heap s2))%nat) by apply Hs2.
  split; [|split; [exact Hn2|exact Hnew3]].
  eapply same_below_trans; [exact Hs2|].
  eapply same_below_weaken; [exact Hs23|exact Hn2].
Qed.

(** * Part III: further properties of the code *)

(** ** The polynomials [poly] and [pade] *)

Lemma sum_cons x l : Np.sum (x :: l) = x + Np.sum l.
Proof. reflexivity. Qed.

Lemma sum_scale (A : Type) (f : A -> R) k l :
  Np.sum (map (fun i => k * f i) l) = k * Np.sum (map f l).
Proof.
  induction l as [|a l IH]; cbn [map]; rewrite ?sum_cons.
  - unfold Np.sum. cbn [fold_right]. ring.
  - rewrite IH. ring.
Qed.

Lemma poly_nil x : poly x [] = 0.
Proof. reflexivity. Qed.

Lemma poly_cons x a0 a : poly x (a0 :: a) = a0 + x * poly x a.
Proof.
  unfold poly, NpArr.polyval. cbn [rev]. rewrite fold_left_app.
  cbn [fold_left]. ring.
Qed.

(** X1. [poly(x, a)] evaluates, by Horner's scheme on the reversed list, the
    polynomial with adjacent coefficients: the sum of [a[i] * x**i] over the
    indices of [a] (zero for an empty list). *)
Theorem poly_is_power_sum (x : R) (a : list R) :
  poly x a = Np.sum (map (fun i => nth i a 0 * x ^ i) (seq 0 (length a))).
Proof.
  induction a as [|a0 a IH].
  - reflexivity.
  - rewrite poly_cons, IH.
    change (seq 0 (length (a0 :: a))) with (0%nat :: seq 1 (length a)).
    rewrite <- seq_shift, map_cons, map_map, sum_cons.
    rewrite <- sum_scale. cbn [nth pow]. rewrite Rmult_1_r. f_equal.
    f_equal. apply map_ext. intros i. ring.
Qed.

(** X2. The denominator of [pade(x, a, b)] is the polynomial with constant
    coefficient one followed by [b]; without denominator coefficients
    [pade] is [poly]. *)
Theorem pade_denominator (x : R) (a b : list R) :
  pade x a b = poly x a / poly x (1 :: b) /\ pade x a [] = poly x a.
Proof.
  split.
  - unfold pade. now rewrite poly_cons.
  - unfold pade. rewrite poly_nil, Rmult_0_r, Rplus_0_r. unfold Rdiv.
    now rewrite Rinv_1, Rmult_1_r.
Qed.

(** ** Sums of positive values *)

Lemma sum_pos l : l <> [] -> Forall (fun w => 0 < w) l -> 0 < Np.sum l.
Proof.
  intros Hne H. induction H as [|x l Hx Hl IH]; [easy|].
  rewrite sum_cons. destruct l as [|y l].
  - unfold Np.sum. cbn [fold_right]. lra.
  - assert (0 < Np.sum (y :: l)) by (apply IH; discriminate). lra.
Qed.

Lemma Forall_map_all (A : Type) (P : R -> Prop) (f : A -> R) l :
  (forall v, P (f v)) -> Forall P (map f l).
Proof. intros H. apply Forall_map. apply Forall_forall. intros v _. apply H. Qed.

(** ** Symmetry of the kernels on the model's velocity grid *)

Lemma sum_rev l : Np.sum (rev l) = Np.sum l.
Proof.
  induction l as [|x l IH]; [reflexivity|].
  cbn [rev]. rewrite sum_app, IH, !sum_cons. unfold Np.sum. cbn [fold_right]. ring.
Qed.

Lemma normalise_rev l : normalise (rev l) = rev (normalise l).
Proof. unfold normalise, Np.idiv. now rewrite sum_rev, map_rev. Qed.

Lemma rev_map_seq (A : Type) (g : nat -> A) n :
  rev (map g (seq 0 n)) = map (fun k => g (n - 1 - k)%nat) (seq 0 n).
Proof.
  induction n as [|n IH]; [reflexivity|].
  replace (rev (map g (seq 0 (S n)))) with (g n :: rev (map g (seq 0 n)))
    by (rewrite seq_S, map_app, rev_app_distr; reflexivity).
  rewrite IH. change (seq 0 (S n)) with (0%nat :: seq 1 n).
  rewrite <- seq_shift, map_cons, map_map. f_equal.
  - f_equal. lia.
  - apply map_ext. intros k. f_equal. lia.
Qed.

Lemma rev_arange_sym (A : Type) (f : Z -> A) (hs : Z) :
  rev (map f (NpArr.arange (- hs) (hs + 1))) =
  map (fun k => f (- k)%Z) (NpArr.arange (- hs) (hs + 1)).
Proof.
  unfold NpArr.arange. rewrite !map_map, rev_map_seq.
  apply map_ext_in. intros k Hk. apply in_seq in Hk. f_equal. lia.
Qed.

(** An even function of the velocity, sampled on the grid [vk] of a model,
    gives a palindrome. *)
Lemma even_on_vk (h : R -> R) S_star grid cell fluxes ip fn hs xcen self :
  model.init S_star grid cell fluxes ip fn hs xcen = Some self ->
  (forall v, h (- v) = h v) ->
  rev (map h (model.vk self)) = map h (model.vk self).
Proof.
  unfold model.init. intros Hinit Heven.
  destruct (Py.index grid 1) as [x1|]; [|discriminate].
  destruct (Py.index grid 0) as [x0|]; [|discriminate].
  cbn [bind] in Hinit. injection Hinit as <-. cbn [model.vk].
  rewrite !map_map, rev_arange_sym. apply map_ext. intros k.
  rewrite <- Heven. f_equal. rewrite opp_IZR. ring.
Qed.

(** X4. The velocity grid [vk] that [__init__] builds is symmetric about
    zero, and the Gaussian, super-Gaussian and two-component central kernels
    are even in the velocity: sampled on [vk] each of them reads the same
    forwards and backwards, so convolving with it equals correlating with
    it. *)
Theorem symmetric_kernels_are_palindromes
    S_star grid cell fluxes ip fn hs xcen self :
  model.init S_star grid cell fluxes ip fn hs xcen = Some self ->
  (forall s, rev (IP (model.vk self) s) = IP (model.vk self) s) /\
  (forall s e, rev (IP_sg (model.vk self) s e) = IP_sg (model.vk self) s e) /\
  (forall s0 a1, rev (IP_mcg (model.vk self) s0 a1) = IP_mcg (model.vk self) s0 a1).
Proof.
  intros Hinit. repeat split; intros.
  - unfold IP. rewrite <- normalise_rev. f_equal. unfold IP_k_g.
    apply (even_on_vk _ _ _ _ _ _ _ _ _ _ Hinit). intros v.
    f_equal. f_equal. f_equal. unfold Rdiv. ring.
  - unfold IP_sg. rewrite <- normalise_rev. f_equal. unfold IP_k_sg.
    apply (even_on_vk _ _ _ _ _ _ _ _ _ _ Hinit). intros v.
    f_equal. f_equal. f_equal.
    replace (- v / s) with (- (v / s)) by (unfold Rdiv; ring). apply Rabs_Ropp.
  - unfold IP_mcg. rewrite <- normalise_rev. f_equal. unfold IP_k_mcg.
    rewrite map_map.
    apply (even_on_vk _ _ _ _ _ _ _ _ _ _ Hinit). intros v.
    f_equal. f_equal.
    + f_equal. unfold Rdiv. ring.
    + f_equal. f_equal. unfold Rdiv. ring.
Qed.

Lemma symmetric_kernels_are_palindromes_witness :
  rev (IP (model.vk model_one_absorber) 2.2) = IP (model.vk model_one_absorber) 2.2.
Proof.
  exact (proj1 (symmetric_kernels_are_palindromes _ _ _ _ _ _ _ _ _
                  model_one_absorber_init) 2.2).
Defined.

(** ** The evaluator on a well-formed model, and on too short a grid *)

(** The convolution step also returns when the grid has exactly
    [2*IP_hs+1] knots. *)
Lemma Sj_eff_total S_star grid cell fluxes f fn hs xcen self
    rv coeff_ip coeff_atm coeff_bkg :
  model.init S_star grid cell fluxes (IP_function f) fn hs xcen = Some self ->
  (0 <= hs)%Z ->
  (2 * hs + 1 <= Z.of_nat (length grid))%Z ->
  length cell = length grid ->
  Forall (fun t => length t = length grid) fluxes ->
  bind_kernel f coeff_ip <> None ->
  Forall (fun x => S_star x <> None) (map (fun x => x - rv / c) grid) ->
  coeff_bkg <> [] ->
  exists Sj, model.Sj_eff self rv coeff_ip coeff_atm coeff_bkg = Some Sj /\
             Z.of_nat (length Sj) = (Z.of_nat (length grid) - 2 * hs)%Z.
Proof.
  intros Hinit Hhs HN Hcell Hmol Hk Hstar Hbkg.
  destruct (init_fields _ _ _ _ _ _ _ _ _ Hinit)
    as (HS & Hg & Hc & Hf & Hip & _ & Hvk & _ & Hlen2).
  unfold model.Sj_eff.
  destruct (spec_gas_length self coeff_atm) as (g & Hgas & Hglen).
  { rewrite Hg. destruct grid; [simpl in Hlen2; lia|discriminate]. }
  { now rewrite Hg, Hc. }
  { now rewrite Hg, Hf. }
  rewrite Hgas. cbn [bind].
  unfold model.kernel, call_IP. rewrite Hip.
  destruct (bind_kernel f coeff_ip) as [k|]; [|easy]. cbn [bind].
  rewrite HS, Hg.
  destruct (mapM_length _ _ S_star _ Hstar) as (star & -> & Hslen). cbn [bind].
  destruct coeff_bkg as [|bkg0 ?]; [easy|]. cbn [bind Py.index nth_error].
  rewrite length_map in Hslen.
  destruct (binop_same_length Rmult star (map (fun x => x + bkg0) g))
    as (signal & -> & Hsig).
  { rewrite length_map. congruence. }
  cbn [bind].
  destruct (convolve_valid_length (run_kernel k (model.vk self)) signal)
    as (Sj & HSj & HSjlen).
  { intros E. apply (f_equal (@length R)) in E.
    rewrite run_kernel_length, Hvk in E. cbn [length] in E. lia. }
  { intros E. apply (f_equal (@length R)) in E. cbn [length] in E. lia. }
  exists Sj. split; [exact HSj|].
  rewrite HSjlen, run_kernel_length, Hvk, Hsig, Hslen. lia.
Qed.

(** X5. On a model built by [__init__] with a kernel function,
    [IP_hs >= 1], a grid of at least [2*IP_hs+1] knots, and the cell
    spectrum and the absorber templates sampled on the grid, the evaluator
    returns (it does not raise) whenever the kernel accepts the IP
    coefficients, the template is defined on the shifted grid and
    [coeff_bkg] is not empty; the spectrum it returns has one value per
    pixel. *)
Theorem evaluator_returns_one_flux_per_pixel
    S_star grid cell fluxes f fn hs xcen self pixel rv cn cw ci ca cb :
  model.init S_star grid cell fluxes (IP_function f) fn hs xcen = Some self ->
  (1 <= hs)%Z ->
  (2 * hs + 1 <= Z.of_nat (length grid))%Z ->
  length cell = length grid ->
  Forall (fun t => length t = length grid) fluxes ->
  bind_kernel f ci <> None ->
  Forall (fun x => S_star x <> None) (map (fun x => x - rv / c) grid) ->
  cb <> [] ->
  exists r, model.call self pixel rv cn cw ci ca cb = Some r /\
            length r = length pixel.
Proof.
  intros Hinit Hhs HN Hcell Hmol Hk Hstar Hbkg.
  destruct (Sj_eff_total _ _ _ _ _ _ _ _ _ rv ci ca cb Hinit)
    as (Sj & HSj & Hlen); auto; [lia|].
  pose proof (lnwave_j_eff_length _ _ _ _ _ _ _ _ _ Hinit Hhs) as Heff.
  unfold model.call. rewrite HSj. cbn [bind].
  destruct (interp_length
              (map (fun x => ln (poly (x - model.xcen self) cw)) pixel)
              (model.lnwave_j_eff self) Sj) as (Si & -> & HSi).
  { intros E. rewrite E in Heff. cbn [length] in Heff. lia. }
  { lia. }
  cbn [bind]. rewrite length_map in HSi.
  destruct (binop_same_length Rmult
              (map (fun x => model.func_norm self (x - model.xcen self) cn) pixel) Si)
    as (r & -> & Hr).
  { now rewrite length_map. }
  exists r. split; [reflexivity|]. now rewrite Hr, length_map.
Qed.

Lemma evaluator_returns_one_flux_per_pixel_witness :
  exists r, model.call model_one_absorber [1; 2] 0 [1] [1; 1] [2.2] [1] [0] = Some r /\
            length r = length [1; 2].
Proof.
  apply (evaluator_returns_one_flux_per_pixel _ _ _ _ _ _ _ _ _ _ _ _ _ _ _ _
           model_one_absorber_init).
  - lia.
  - cbn [length]. lia.
  - reflexivity.
  - repeat constructor.
  - discriminate.
  - repeat constructor; discriminate.
  - discriminate.
Defined.

(** X6. The effective grid [lnwave_j[IP_hs:-IP_hs]] is empty when
    [IP_hs = 0] (the stop bound [-0] is the start of the array) and when the
    grid has at most [2*IP_hs] knots; on such a model every call of the
    evaluator raises, whatever its arguments. *)
Theorem evaluator_raises_on_empty_effective_grid
    S_star grid cell fluxes ip fn hs xcen self :
  model.init S_star grid cell fluxes ip fn hs xcen = Some self ->
  (hs = 0 \/ (1 <= hs /\ Z.of_nat (length grid) <= 2 * hs))%Z ->
  model.lnwave_j_eff self = [] /\
  forall pixel rv cn cw ci ca cb, model.call self pixel rv cn cw ci ca cb = None.
Proof.
  intros Hinit Hhs.
  assert (Heff : model.lnwave_j_eff self = []).
  { destruct (init_fields _ _ _ _ _ _ _ _ _ Hinit)
      as (_ & _ & _ & _ & _ & _ & _ & -> & _).
    apply length_zero_iff_nil. rewrite slice_length. unfold Py.clip_bound.
    destruct Hhs as [->|[H1 H2]].
    - cbn. lia.
    - destruct (- hs <? 0)%Z eqn:E1; [|apply Z.ltb_ge in E1; lia].
      destruct (hs <? 0)%Z eqn:E2; [apply Z.ltb_lt in E2; lia|]. lia. }
  split; [exact Heff|]. intros pixel v cn cw ci ca cb. unfold model.call.
  destruct (model.Sj_eff self v ci ca cb); [|reflexivity].
  cbn [bind]. now rewrite Heff.
Qed.

Lemma evaluator_raises_on_empty_effective_grid_witness :
  exists self,
    model.init (fun _ => Some 1) [0; 1; 2] [1; 1; 1] [] (IP_function ip_g) poly 2 0
    = Some self /\
    model.call self [1] 0 [1] [1; 1] [2.2] [] [0] = None.
Proof.
  eexists. split; [reflexivity|].
  eapply (evaluator_raises_on_empty_effective_grid
            (fun _ => Some 1) [0; 1; 2] [1; 1; 1] [] (IP_function ip_g) poly 2 0).
  - reflexivity.
  - right. cbn [length]. lia.
Defined.

(** ** A featureless spectrum through the evaluator *)

Lemma dot_repeat_l v w : Np.dot (repeat v (length w)) w = v * Np.sum w.
Proof.
  unfold Np.dot. induction w as [|y w IH]; cbn [length repeat combine map].
  - unfold Np.sum. cbn [fold_right]. ring.
  - rewrite !sum_cons, IH. cbn [fst snd]. ring.
Qed.

Lemma dot_repeat_r v w : Np.dot w (repeat v (length w)) = v * Np.sum w.
Proof.
  unfold Np.dot. induction w as [|y w IH]; cbn [length repeat combine map].
  - unfold Np.sum. cbn [fold_right]. ring.
  - rewrite !sum_cons, IH. cbn [fst snd]. ring.
Qed.

Lemma skipn_repeat (v : R) n j : skipn j (repeat v n) = repeat v (n - j).
Proof.
  revert n. induction j as [|j IH]; intros [|n]; cbn [skipn repeat Nat.sub];
    try reflexivity. apply IH.
Qed.

Lemma firstn_repeat (v : R) n j : (j <= n)%nat -> firstn j (repeat v n) = repeat v j.
Proof.
  revert n. induction j as [|j IH]; intros [|n] H; cbn [firstn repeat];
    try reflexivity; try lia. f_equal. apply IH. lia.
Qed.

Lemma map_const_seq (A : Type) (v : R) (l : list A) :
  map (fun _ => v) l = repeat v (length l).
Proof. induction l; cbn [map length repeat]; congruence. Qed.

Lemma rev_repeat_R (v : R) n : rev (repeat v n) = repeat v n.
Proof.
  induction n as [|n IH]; [reflexivity|].
  cbn [repeat rev]. rewrite IH. clear IH.
  induction n as [|n IH]; [reflexivity|]. cbn [repeat app]. now rewrite IH.
Qed.

(** Convolving a constant signal with a kernel no longer than the signal:
    every value is the constant times the sum of the kernel. *)
Lemma convolve_valid_constant k v n :
  k <> [] -> (length k <= n)%nat ->
  NpArr.convolve_valid k (repeat v n) =
  Some (repeat (v * Np.sum k) (n - length k + 1)).
Proof.
  intros Hk Hn. unfold NpArr.convolve_valid.
  destruct k as [|k0 k']; [easy|].
  destruct n as [|n']; [cbn [length] in Hn; lia|].
  cbn [repeat]. cbv iota.
  change (v :: repeat v n') with (repeat v (S n')).
  remember (k0 :: k') as k eqn:Ek. remember (S n') as n eqn:En.
  clear Ek En k0 k' n' Hk. rewrite repeat_length.
  destruct (Nat.ltb (length k) n) eqn:E.
  - apply Nat.ltb_lt in E. f_equal. unfold NpArr.correlate_valid.
    rewrite length_rev, repeat_length.
    transitivity (map (fun _ : nat => v * Np.sum k) (seq 0 (n - length k + 1)));
      [|now rewrite map_const_seq, length_seq].
    apply map_ext_in. intros j Hj. apply in_seq in Hj.
    rewrite skipn_repeat, firstn_repeat by lia.
    rewrite <- (length_rev k), dot_repeat_l, sum_rev. reflexivity.
  - apply Nat.ltb_ge in E. assert (n = length k) by lia. subst n.
    f_equal. unfold NpArr.correlate_valid.
    rewrite length_rev, repeat_length, Nat.sub_diag. cbn [Nat.add seq map skipn repeat].
    rewrite firstn_all, rev_repeat_R, dot_repeat_r. reflexivity.
Qed.

Lemma interp1_constant v xp x :
  xp <> [] -> NpArr.interp1 xp (repeat v (length xp)) x = v.
Proof.
  intros H. destruct xp as [|x0 xp']; [easy|].
  unfold NpArr.interp1. cbn [length repeat].
  destruct (Rlt_dec x x0); [reflexivity|].
  change (v :: repeat v (length xp')) with (repeat v (length (x0 :: xp'))).
  now apply interp_scan_constant.
Qed.

Lemma mapM_constant (A : Type) (t : R) (l : list A) :
  mapM (fun _ => Some t) l = Some (repeat t (length l)).
Proof.
  induction l as [|a l IH]; [reflexivity|].
  cbn [mapM length repeat]. rewrite IH. reflexivity.
Qed.

Lemma zip_repeat (f : R -> R -> R) a b n :
  map (fun p => f (fst p) (snd p)) (combine (repeat a n) (repeat b n)) =
  repeat (f a b) n.
Proof. induction n as [|n IH]; [reflexivity|]. cbn [repeat combine map fst snd]. now rewrite IH. Qed.

Lemma map_repeat_R (f : R -> R) a n : map f (repeat a n) = repeat (f a) n.
Proof. induction n as [|n IH]; [reflexivity|]. cbn [repeat map]. now rewrite IH. Qed.

Lemma zip_map_constant (A : Type) (f : A -> R) (v : R) (l : list A) :
  map (fun p => fst p * snd p) (combine (map f l) (repeat v (length l))) =
  map (fun x => f x * v) l.
Proof.
  induction l as [|a l IH]; [reflexivity|].
  cbn [map length repeat combine fst snd]. now rewrite IH.
Qed.

(** X7. A featureless spectrum passes through the evaluator unchanged up to
    the continuum: on a model without absorber templates whose template is
    the constant [t] and whose cell spectrum is the constant [g], with a
    kernel that does not degenerate, and for pixels at which the wavelength
    polynomial is positive (so that its logarithm is a number), the IP
    convolution and the resampling to the pixels conserve the constant
    [t * (g + bkg)], and the evaluator returns the continuum function of
    each pixel times that constant. *)
Theorem flat_spectrum_gives_continuum
    t g (grid : list R) f fn hs xcen self k pixel rv cn cw ci ca b cb :
  model.init (fun _ => Some t) grid (repeat g (length grid)) []
    (IP_function f) fn hs xcen = Some self ->
  (1 <= hs)%Z ->
  (2 * hs + 1 <= Z.of_nat (length grid))%Z ->
  bind_kernel f ci = Some k ->
  Np.sum (unnormalised k (model.vk self)) <> 0 ->
  Forall (fun x => 0 < poly (x - xcen) cw) pixel ->
  model.call self pixel rv cn cw ci ca (b :: cb) =
  Some (map (fun x => fn (x - xcen) cn * (t * (g + b))) pixel).
Proof.
  intros Hinit Hhs HN Hk Hsum _.
  pose proof (lnwave_j_eff_length _ _ _ _ _ _ _ _ _ Hinit Hhs ltac:(lia)) as Heff.
  destruct (init_fields _ _ _ _ _ _ _ _ _ Hinit)
    as (HS & Hg & Hc & Hf & Hip & _ & Hvk & _ & Hlen2).
  assert (Hxc : model.xcen self = xcen /\ model.func_norm self = fn).
  { unfold model.init in Hinit.
    destruct (Py.index grid 1); [|discriminate].
    destruct (Py.index grid 0); [|discriminate].
    cbn [bind] in Hinit. injection Hinit as <-. now split. }
  destruct Hxc as [Hxc Hfn].
  unfold model.call, model.Sj_eff, model.spec_gas, model.kernel, call_IP.
  rewrite Hf, Hip, Hk, HS, Hg, Hc, Hxc, Hfn. cbn [bind Py.index nth_error].
  rewrite mapM_constant, length_map. cbn [bind].
  rewrite !map_repeat_R.
  unfold NpArr.binop at 1. rewrite !repeat_length, Nat.eqb_refl, zip_repeat.
  cbn [bind].
  rewrite run_kernel_normalise, convolve_valid_constant.
  2:{ intros E. apply (f_equal (@length R)) in E.
      rewrite normalise_length, unnormalised_length, Hvk in E. cbn [length] in E. lia. }
  2:{ rewrite normalise_length, unnormalised_length, Hvk. lia. }
  rewrite normalise_sum by exact Hsum.
  rewrite normalise_length, unnormalised_length, Hvk. cbn [bind].
  assert (Hn : (length grid - Z.to_nat (2 * hs + 1) + 1)%nat
               = length (model.lnwave_j_eff self)) by lia.
  rewrite Hn. unfold NpArr.interp.
  destruct (model.lnwave_j_eff self) as [|e0 eff] eqn:Ee.
  { cbn [length] in Heff. lia. }
  rewrite repeat_length, Nat.eqb_refl. cbn [bind].
  rewrite map_map. cbv beta.
  rewrite (map_ext
             (fun x : R =>
                NpArr.interp1 (e0 :: eff)
                  (repeat (t * (1 * g + b) * 1) (length (e0 :: eff)))
                  (ln (poly (x - xcen) cw)))
             (fun _ => t * (1 * g + b) * 1)).
  2:{ intros x. apply interp1_constant. discriminate. }
  rewrite map_const_seq.
  unfold NpArr.binop. rewrite length_map, repeat_length, Nat.eqb_refl.
  rewrite zip_map_constant. f_equal. apply map_ext. intros x. ring.
Qed.

Lemma flat_spectrum_gives_continuum_witness :
  exists self,
    model.init (fun _ => Some 1) [0; 1; 2] (repeat 1 (length [0; 1; 2])) []
      (IP_function ip_g) poly 1 0 = Some self /\
    model.call self [1; 2] 0 [1] [1; 1] [2.2] [] [0] =
    Some (map (fun x => poly (x - 0) [1] * (1 * (1 + 0))) [1; 2]).
Proof.
  eexists. split; [reflexivity|].
  eapply (flat_spectrum_gives_continuum 1 1 [0; 1; 2] ip_g poly 1 0).
  - reflexivity.
  - lia.
  - cbn [length]. lia.
  - reflexivity.
  - cbn [unnormalised]. apply Rgt_not_eq. apply sum_pos; [discriminate|].
    unfold IP_k_g. apply Forall_map_all. intros; apply exp_pos.
  - repeat constructor; rewrite !poly_cons, poly_nil; lra.
Defined.

(** ** Neutral absorber coefficients *)

Lemma power_abs_zero x : Np.power x (Rabs 0) = 1.
Proof.
  unfold Np.power. rewrite Rabs_R0. destruct (Req_dec_T 0 0); [reflexivity|easy].
Qed.

Lemma absorber_factor_zero (pairs : list (R * list R)) j :
  Forall (fun p => fst p = 0) pairs -> absorber_factor pairs j = 1.
Proof.
  induction 1 as [|[coeff flux] pairs Hp _ IH]; [reflexivity|].
  cbn [absorber_factor]. cbn [fst] in Hp. subst coeff.
  rewrite power_abs_zero, IH. ring.
Qed.

Lemma Forall_combine_fst (A B : Type) (P : A -> Prop) (a : list A) (b : list B) :
  Forall P a -> Forall (fun p => P (fst p)) (combine a b).
Proof.
  intros H. revert b. induction H as [|x a Hx _ IH]; intros [|y b]; cbn [combine];
    constructor; auto.
Qed.

Lemma Forall_firstn_of (A : Type) (P : A -> Prop) n (l : list A) :
  Forall P l -> Forall P (firstn n l).
Proof.
  intros H. revert n. induction H as [|x l Hx _ IH]; intros [|n]; cbn [firstn];
    constructor; auto.
Qed.

Lemma zip_ones (l : list R) :
  map (fun p => fst p * snd p)
      (combine (map (fun x => 1 * x) l) (repeat 1 (length l))) = l.
Proof.
  rewrite zip_map_constant. rewrite <- (map_id l) at 2.
  apply map_ext. intros x. ring.
Qed.

(** X8. Absorber coefficients that are all zero switch the templates off:
    with as many zero coefficients as templates or fewer (the templates and
    the cell spectrum being sampled on one grid), the gas spectrum that
    enters the convolution is the cell spectrum itself, and the evaluator
    returns what it returns without any absorber coefficient. *)
Theorem zero_absorber_coefficients_are_neutral (self : model.t) (coeff_atm : list R) :
  Forall (fun a => a = 0) coeff_atm ->
  (length coeff_atm <= length (model.fluxes_molec self))%nat ->
  Forall (fun t => length t = length (model.spec_cell_j self))
         (model.fluxes_molec self) ->
  model.spec_gas self coeff_atm = Some (model.spec_cell_j self) /\
  forall pixel rv cn cw ci cb,
    model.call self pixel rv cn cw ci coeff_atm cb =
    model.call self pixel rv cn cw ci [] cb.
Proof.
  intros Hzero Hlen Hmol.
  assert (Hgas : forall ca, Forall (fun a => a = 0) ca ->
                   (length ca <= length (model.fluxes_molec self))%nat ->
                   model.spec_gas self ca = Some (model.spec_cell_j self)).
  { clear coeff_atm Hzero Hlen. intros ca Hzero Hlen. unfold model.spec_gas.
    destruct (model.fluxes_molec self) as [|first rest] eqn:Efl.
    - f_equal. rewrite <- (map_id (model.spec_cell_j self)) at 2.
      apply map_ext. intros x. ring.
    - assert (Hfirst : length first = length (model.spec_cell_j self))
        by (now inversion Hmol).
      unfold model.flux_atm_shifted. rewrite flux_atm_loop_spec.
      2:{ rewrite Efl. apply Forall_firstn_of. eapply Forall_impl; [|exact Hmol].
          cbn beta. intros t Ht. congruence. }
      cbn [bind]. rewrite Efl.
      replace (Nat.eqb (length ca) (length (first :: rest) + 1)) with false
        by (symmetry; apply Nat.eqb_neq; lia).
      cbn [bind]. unfold combined_absorber.
      rewrite (map_ext (absorber_factor (combine ca (first :: rest))) (fun _ => 1)).
      2:{ intros j. apply absorber_factor_zero.
          now apply (Forall_combine_fst _ _ (fun a => a = 0)). }
      rewrite map_const_seq, length_seq, Hfirst.
      unfold NpArr.iop. rewrite length_map, repeat_length, Nat.eqb_refl.
      now rewrite zip_ones. }
  split; [now apply Hgas|].
  intros. unfold model.call, model.Sj_eff.
  rewrite (Hgas coeff_atm Hzero Hlen), (Hgas [] ltac:(constructor) ltac:(cbn [length]; lia)).
  reflexivity.
Qed.

Lemma zero_absorber_coefficients_are_neutral_witness :
  model.spec_gas model_two_absorbers [0; 0] = Some [1; 1; 1; 1].
Proof.
  apply (zero_absorber_coefficients_are_neutral model_two_absorbers [0; 0]).
  - repeat constructor.
  - cbn [model_two_absorbers model.fluxes_molec length]. lia.
  - repeat constructor.
Defined.

(** ** A telluric shift of zero *)

Lemma interp_scan_skip x0 x1 xs f0 f1 fs x :
  ~ x < x1 ->
  NpArr.interp_scan (x0 :: x1 :: xs) (f0 :: f1 :: fs) x =
  NpArr.interp_scan (x1 :: xs) (f1 :: fs) x.
Proof.
  intros H. cbn [NpArr.interp_scan]. destruct (Rlt_dec x x1); [easy|reflexivity].
Qed.

Lemma interp_scan_at_samples xp :
  forall fp, length xp = length fp -> StronglySorted Rlt xp ->
  map (NpArr.interp_scan xp fp) xp = fp.
Proof.
  induction xp as [|x0 xs IH]; intros fp Hlen Hs.
  - destruct fp; [reflexivity|discriminate].
  - destruct fp as [|f0 fs]; [discriminate|].
    apply StronglySorted_inv in Hs. destruct Hs as [Hs Hall].
    cbn [map]. f_equal.
    + destruct xs as [|x1 xs'], fs as [|f1 fs']; try discriminate; [reflexivity|].
      cbn [NpArr.interp_scan]. inversion Hall; subst.
      destruct (Rlt_dec x0 x1); [|easy]. unfold Rdiv. ring.
    + destruct xs as [|x1 xs'], fs as [|f1 fs']; try discriminate; [reflexivity|].
      rewrite <- (IH (f1 :: fs')) at 2; [|cbn [length] in Hlen |- *; lia|exact Hs].
      apply map_ext_in. intros x Hx. apply interp_scan_skip.
      apply StronglySorted_inv in Hs. destruct Hs as [_ Hall1].
      destruct Hx as [<-|Hx]; [lra|].
      rewrite Forall_forall in Hall1. specialize (Hall1 _ Hx). lra.
Qed.

Lemma interp1_at_samples xp fp :
  length xp = length fp -> StronglySorted Rlt xp ->
  map (NpArr.interp1 xp fp) xp = fp.
Proof.
  intros Hlen Hs. destruct xp as [|x0 xs], fp as [|f0 fs]; try discriminate;
    [reflexivity|].
  rewrite <- (interp_scan_at_samples (x0 :: xs) (f0 :: fs) Hlen Hs) at 2.
  apply map_ext_in. intros x Hx. unfold NpArr.interp1.
  destruct (Rlt_dec x x0) as [Hlt|]; [|reflexivity].
  apply StronglySorted_inv in Hs. destruct Hs as [_ Hall].
  destruct Hx as [<-|Hx]; [lra|].
  rewrite Forall_forall in Hall. specialize (Hall _ Hx). lra.
Qed.

Lemma interp_zero_shift grid r :
  grid <> [] -> length r = length grid -> StronglySorted Rlt grid ->
  NpArr.interp grid (map (fun x => x - ln (1 + 0 / c)) grid) r = Some r.
Proof.
  intros Hne Hlen Hs.
  rewrite (map_ext _ (fun x => x)), map_id.
  2:{ intros x. unfold Rdiv. rewrite Rmult_0_l, Rplus_0_r, ln_1. ring. }
  unfold NpArr.interp. destruct grid as [|x0 xs] eqn:E; [easy|].
  rewrite <- E in *. rewrite Hlen, Nat.eqb_refl.
  f_equal. apply interp1_at_samples; [now symmetry|exact Hs].
Qed.

Lemma combine_app_extra (A B : Type) (a e : list A) (b : list B) :
  length a = length b -> combine (a ++ e) b = combine a b.
Proof.
  revert b. induction a as [|x a IH]; intros [|y b] H; try discriminate.
  - now destruct e.
  - cbn [app combine]. f_equal. apply IH. now injection H.
Qed.

Lemma flux_atm_fold_result_length (l : list (R * list R)) (acc r : list R) :
  fold_left model.flux_atm_step l (Some acc) = Some r -> length r = length acc.
Proof.
  revert acc. induction l as [|p l IH]; intros acc H; cbn [fold_left] in H.
  - now injection H as <-.
  - unfold model.flux_atm_step at 2 in H. cbn [bind] in H.
    destruct (NpArr.iop Rmult acc (map (fun x => Np.power x (Rabs (fst p))) (snd p)))
      as [acc'|] eqn:E.
    + rewrite (IH _ H). eapply iop_length. exact E.
    + now rewrite flux_atm_fold_none in H.
Qed.

(** X9. A telluric velocity shift of zero is the identity: on a non-empty,
    strictly increasing grid that also carries the first absorber template,
    giving the evaluator one coefficient per template followed by a shift of
    zero yields what it yields without the shift coefficient. *)
Theorem zero_telluric_shift_is_identity (self : model.t)
    (coeffs first : list R) (rest : list (list R)) :
  model.fluxes_molec self = first :: rest ->
  length first = length (model.lnwave_j self) ->
  length coeffs = length (model.fluxes_molec self) ->
  model.lnwave_j self <> [] ->
  StronglySorted Rlt (model.lnwave_j self) ->
  model.spec_gas self (coeffs ++ [0]) = model.spec_gas self coeffs /\
  forall pixel rv cn cw ci cb,
    model.call self pixel rv cn cw ci (coeffs ++ [0]) cb =
    model.call self pixel rv cn cw ci coeffs cb.
Proof.
  intros Hfl Hfirst Hlen Hne Hs.
  assert (Hgas : model.spec_gas self (coeffs ++ [0]) = model.spec_gas self coeffs).
  { unfold model.spec_gas. rewrite Hfl. f_equal.
    unfold model.flux_atm_shifted, model.flux_atm_loop.
    rewrite combine_app_extra by exact Hlen.
    destruct (fold_left model.flux_atm_step (combine coeffs (model.fluxes_molec self))
                (Some (NpArr.ones (length first)))) as [r|] eqn:Er; [|reflexivity].
    cbn [bind].
    apply flux_atm_fold_result_length in Er. unfold NpArr.ones in Er.
    rewrite repeat_length in Er.
    replace (Nat.eqb (length (coeffs ++ [0])) (length (model.fluxes_molec self) + 1))
      with true by (symmetry; apply Nat.eqb_eq; rewrite length_app; cbn [length]; lia).
    replace (Nat.eqb (length coeffs) (length (model.fluxes_molec self) + 1))
      with false by (symmetry; apply Nat.eqb_neq; lia).
    unfold Py.last. rewrite rev_app_distr. cbn [rev app nth_error bind].
    apply interp_zero_shift; [exact Hne|congruence|exact Hs]. }
  split; [exact Hgas|].
  intros. unfold model.call, model.Sj_eff. now rewrite Hgas.
Qed.

Lemma zero_telluric_shift_is_identity_witness :
  model.spec_gas model_one_absorber ([1] ++ [0]) = model.spec_gas model_one_absorber [1].
Proof.
  apply (zero_telluric_shift_is_identity model_one_absorber [1]
           [0.5; 0.5; 0.5; 0.5] []).
  - reflexivity.
  - reflexivity.
  - reflexivity.
  - discriminate.
  - cbn [model_one_absorber model.lnwave_j].
    repeat (constructor; [|repeat constructor; lra]). constructor.
Defined.

(** ** The continuum enters linearly *)

Lemma poly_scale k x a : poly x (map (Rmult k) a) = k * poly x a.
Proof.
  induction a as [|a0 a IH]; cbn [map].
  - rewrite poly_nil. ring.
  - rewrite !poly_cons, IH. ring.
Qed.

Lemma binop_scale_l k a b :
  NpArr.binop Rmult (map (Rmult k) a) b =
  option_map (map (Rmult k)) (NpArr.binop Rmult a b).
Proof.
  unfold NpArr.binop. rewrite length_map.
  destruct (Nat.eqb (length a) (length b)).
  - cbn [option_map]. f_equal. rewrite map_map.
    revert b. induction a as [|x a IH]; intros [|y b]; cbn [map combine fst snd];
      try reflexivity.
    f_equal; [ring|apply IH].
  - destruct a as [|x [|x' a]]; cbn [map].
    + destruct b as [|y [|y' b]]; reflexivity.
    + cbn [option_map]. f_equal. rewrite map_map. apply map_ext. intros y. ring.
    + destruct b as [|y [|y' b]]; try reflexivity.
      cbn [option_map map]. f_equal.
      f_equal; [ring|]. f_equal; [ring|].
      rewrite !map_map. apply map_ext. intros z. ring.
Qed.

(** X10. With the default continuum function [poly] the evaluator is
    homogeneous in the continuum coefficients: multiplying every coefficient
    of [coeff_norm] by [k] multiplies every value of the predicted spectrum
    by [k] (and the evaluator raises for the one exactly when it raises for
    the other). *)
Theorem continuum_coefficients_enter_linearly (self : model.t) (k : R)
    (pixel : list R) (rv : R) (cn cw ci ca cb : list R) :
  model.func_norm self = poly ->
  model.call self pixel rv (map (Rmult k) cn) cw ci ca cb =
  option_map (map (Rmult k)) (model.call self pixel rv cn cw ci ca cb).
Proof.
  intros Hfn. unfold model.call. rewrite Hfn.
  destruct (model.Sj_eff self rv ci ca cb) as [Sj|]; [|reflexivity]. cbn [bind].
  destruct (NpArr.interp _ (model.lnwave_j_eff self) Sj) as [Si|]; [|reflexivity].
  cbn [bind]. rewrite <- binop_scale_l. f_equal.
  rewrite map_map. apply map_ext. intros x. apply poly_scale.
Qed.

Lemma continuum_coefficients_enter_linearly_witness :
  model.call model_one_absorber [1; 2] 0 (map (Rmult 3) [1; 0.5]) [1; 1] [2.2] [1] [0] =
  option_map (map (Rmult 3))
    (model.call model_one_absorber [1; 2] 0 [1; 0.5] [1; 1] [2.2] [1] [0]).
Proof.
  apply (continuum_coefficients_enter_linearly model_one_absorber 3). reflexivity.
Defined.

(** ** The fit wrapper needs exactly one radial velocity *)

(** X11. When [fit] is given neither [par_rv] nor [parfix_rv], or both, the
    closure [S_model] raises at every parameter vector the solver can try
    (every vector as long as [p0]): with none the evaluator receives the
    continuum tuple as its radial velocity, with both it receives one
    positional argument too many. *)
Theorem S_model_needs_one_rv (self : model.t) (p : fit_pars) (x params : list R) :
  length (opt_tuple (par_rv p) ++ opt_tuple (parfix_rv p)) <> 1%nat ->
  length params = length (p0 p) ->
  S_model self p x params = None.
Proof.
  intros Hrv Hlen. unfold S_model, grouped.
  destruct (par_rv p) as [r|] eqn:Er, (parfix_rv p) as [rf|] eqn:Ef;
    cbn [opt_tuple app length] in Hrv; try lia.
  - assert (Hsv : getslice (sv p) params = firstn 1 (skipn 0 params)).
    { unfold sv. rewrite Er. cbn [opt_tuple length].
      apply (getslice_firstn_skipn 0 1). rewrite Hlen. unfold p0. rewrite Er.
      cbn [opt_tuple app length]. lia. }
    rewrite Hsv. destruct params as [|v params].
    { unfold p0 in Hlen. rewrite Er in Hlen. discriminate. }
    reflexivity.
  - assert (Hsv : getslice (sv p) params = []).
    { unfold sv, getslice, Py.slice. rewrite Er.
      cbn [opt_tuple length start stop Py.clip_bound Z.of_nat Z.ltb Z.compare].
      cbn [Z.to_nat Nat.min Nat.sub firstn]. reflexivity. }
    rewrite Hsv. reflexivity.
Qed.

Lemma S_model_needs_one_rv_witness :
  S_model model_one_absorber pars_without_rv [1; 2] [1] = None.
Proof.
  apply (S_model_needs_one_rv model_one_absorber pars_without_rv [1; 2] [1]).
  - cbn [pars_without_rv par_rv parfix_rv opt_tuple app length]. lia.
  - reflexivity.
Defined.

(** ** The aggregate with fewer than two valid chunks *)

Lemma float_std_single x :
  Float.div (Float.std [x]) (Float.pow_half (Float.of_Z (1 - 1))) = Float.NaN.
Proof.
  assert (H10 : IZR 1 <> 0) by (apply not_0_IZR; lia).
  assert (Hpow : Float.pow_half (Float.of_Z (1 - 1)) = Float.Fin 0).
  { unfold Float.pow_half, Float.of_Z. cbn [Z.sub Z.add Z.opp Z.pos_sub].
    destruct (Rlt_dec 0 0) as [H|_]; [lra|]. now rewrite sqrt_0. }
  rewrite Hpow.
  destruct x as [v| | |].
  - change [Float.Fin v] with (map Float.Fin [v]).
    rewrite float_std_fin by discriminate.
    cbn [length map INR]. unfold Np.sum. cbn [fold_right].
    replace ((v - (v + 0) / 1) ^ 2 + 0) with 0 by (unfold Rdiv; rewrite Rinv_1; ring).
    unfold Rdiv at 1. rewrite Rmult_0_l, sqrt_0.
    unfold Float.div.
    destruct (Req_dec_T 0 0) as [_|H]; [|easy].
    reflexivity.
  - unfold Float.std, Float.mean, Float.sum, Float.of_Z.
    cbn [length map fold_right Float.add Z.of_nat Pos.of_succ_nat Float.div].
    destruct (Rlt_dec (IZR 1) 0) as [H|_]; [lra|]. reflexivity.
  - unfold Float.std, Float.mean, Float.sum, Float.of_Z.
    cbn [length map fold_right Float.add Z.of_nat Pos.of_succ_nat Float.div].
    destruct (Rlt_dec (IZR 1) 0) as [H|_]; [lra|]. reflexivity.
  - reflexivity.
Qed.

Lemma float_mean_nil : Float.mean [] = Float.NaN.
Proof.
  unfold Float.mean, Float.sum, Float.of_Z, Float.div.
  cbn [length fold_right Z.of_nat].
  destruct (Req_dec_T 0 0) as [_|H]; [|easy].
  destruct (Req_dec_T 0 0) as [_|H]; [|easy]. reflexivity.
Qed.

Lemma float_std_nil : Float.std [] = Float.NaN.
Proof. unfold Float.std. cbn [map]. now rewrite float_mean_nil. Qed.

(** X12. When every chunk's fit returns but fewer than two chunks have a
    finite uncertainty, the script raises nothing and reports a standard
    error that is not-a-number; with no such chunk at all the aggregate
    radial velocity is not-a-number too. *)
Theorem fewer_than_two_valid_chunks_give_nan
    (fit_chunk : Z -> option (Float.t * Float.t)) (orders : list Z) :
  (forall o, In o orders -> fit_chunk o <> None) ->
  (length (valid_rvs (map fit_chunk orders)) <= 1)%nat ->
  exists r, viper.main fit_chunk orders = Some r /\
    viper.e_RV r = Float.NaN /\
    (valid_rvs (map fit_chunk orders) = [] -> viper.RV r = Float.NaN).
Proof.
  intros Hret Hfew.
  destruct (chunk_loop_returns fit_chunk orders Hret) as (outs & Hmap & Hloop).
  unfold viper.main. rewrite Hloop. cbn [bind fst snd].
  eexists. split; [reflexivity|].
  cbn [viper.e_RV viper.RV]. unfold viper.aggregate. cbn [fst snd].
  rewrite select_finite, count_finite. rewrite Hmap in Hfew |- *.
  destruct (valid_rvs (map Some outs)) as [|x [|y l]]; cbn [length] in Hfew; [| |lia].
  - rewrite float_std_nil, float_mean_nil. split; reflexivity.
  - split; [|discriminate]. apply float_std_single.
Qed.

Lemma fewer_than_two_valid_chunks_give_nan_witness :
  exists r, viper.main chunks_one_singular [18; 19]%Z = Some r /\
    viper.e_RV r = Float.NaN /\
    (valid_rvs (map chunks_one_singular [18; 19]%Z) = [] -> viper.RV r = Float.NaN).
Proof.
  apply (fewer_than_two_valid_chunks_give_nan chunks_one_singular [18; 19]%Z).
  - intros o _. unfold chunks_one_singular. destruct (o =? 18)%Z; discriminate.
  - cbn. lia.
Defined.

(** ** The band-matrix variant after [base] *)

Lemma mapM_result_length (A B : Type) (f : A -> option B) l r :
  mapM f l = Some r -> length r = length l.
Proof.
  revert r. induction l as [|x l IH]; intros r H; cbn [mapM] in H.
  - now injection H as <-.
  - destruct (f x) as [y|]; [|discriminate]. cbn [bind] in H.
    destruct (mapM f l) as [ys|]; [|discriminate]. cbn [bind] in H.
    injection H as <-. cbn [length]. f_equal. now apply IH.
Qed.

Lemma take1_same_length a b i u :
  length a = length b -> St.take1 a i = Some u -> exists w, St.take1 b i = Some w.
Proof.
  unfold St.take1. intros Hlen. rewrite <- Hlen.
  destruct ((0 <=? i) && (i <? Z.of_nat (length a)))%Z eqn:E1.
  - intros H. assert (Hlt : (Z.to_nat i < length b)%nat).
    { rewrite <- Hlen. apply nth_error_Some. congruence. }
    apply nth_error_Some in Hlt. destruct (nth_error b (Z.to_nat i)) as [w|]; [|easy].
    now exists w.
  - destruct ((- Z.of_nat (length a) <=? i) && (i <? 0))%Z; [|discriminate].
    intros H. assert (Hlt : (Z.to_nat (i + Z.of_nat (length a)) < length b)%nat).
    { rewrite <- Hlen. apply nth_error_Some. congruence. }
    apply nth_error_Some in Hlt.
    destruct (nth_error b (Z.to_nat (i + Z.of_nat (length a)))) as [w|]; [|easy].
    now exists w.
Qed.

Lemma take_row_same_length a b (i : list Z) g :
  length a = length b -> mapM (St.take1 a) i = Some g ->
  exists r, mapM (St.take1 b) i = Some r /\ length r = length g.
Proof.
  intros Hlen. revert g. induction i as [|k i IH]; intros g H; cbn [mapM] in *.
  - injection H as <-. now exists [].
  - destruct (St.take1 a k) as [u|] eqn:Eu; [|discriminate]. cbn [bind] in H.
    destruct (mapM (St.take1 a) i) as [us|]; [|discriminate]. cbn [bind] in H.
    injection H as <-.
    destruct (take1_same_length a b k u Hlen Eu) as (w & ->).
    destruct (IH us eq_refl) as (r & -> & Hr). cbn [bind].
    exists (w :: r). split; [reflexivity|]. cbn [length]. now rewrite Hr.
Qed.

Lemma concat_rows_length (B_x : list R) (g : R -> nat -> R) n :
  length (concat (map (fun bk => map (g bk) (seq 0 n)) B_x)) = (length B_x * n)%nat.
Proof.
  induction B_x as [|b B_x IH]; [reflexivity|].
  cbn [map concat length]. rewrite length_app, length_map, length_seq, IH. lia.
Qed.

(** The base functions [BBxjl] of line 245, for the grid values [gb] under
    the bands and the trial log-wavelengths of the pixels. *)
Lemma band_einsum_ok (sig_k : R) (degk : nat) (ak prod grid : list R) :
  length prod = length grid ->
  length ak = (degk * 5)%nat ->
  forall (idx : list (list Z)) (gb : list (list R)) (obs : list R) (Bm : list (list R)),
    St.take2 grid idx = Some gb ->
    length obs = length idx ->
    length Bm = length idx ->
    Forall (fun b => length b = degk) Bm ->
    Forall (fun i => i <> []) idx ->
    exists A Axkl fx,
      St.take2 prod idx = Some A /\
      St.einsum A
        (map (fun p : list R * R =>
                map (fun g =>
                       map (fun v => exp (- (g - snd p + sig_k * v) ^ 2 / sig_k ^ 2))
                           [-1.4; -0.7; 0; 0.7; 1.4])
                    (fst p))
             (combine gb obs)) Bm = Some Axkl /\
      St.matvec (map (@concat R) Axkl) ak = Some fx /\
      length Axkl = length idx /\
      length fx = length idx.
Proof.
  intros Hprod Hak. induction idx as [|i idx IH]; intros gb obs Bm Hgb Hobs HBm HB Hne.
  - cbn in Hgb. injection Hgb as <-.
    destruct obs; [|discriminate]. destruct Bm; [|discriminate].
    exists [], [], []. repeat split; reflexivity.
  - unfold St.take2 in Hgb. cbn [mapM] in Hgb.
    destruct (mapM (St.take1 grid) i) as [g|] eqn:Eg; [|discriminate].
    cbn [bind] in Hgb.
    destruct (mapM (mapM (St.take1 grid)) idx) as [gb'|] eqn:Egb'; [|discriminate].
    cbn [bind] in Hgb. injection Hgb as <-.
    destruct obs as [|o obs]; [discriminate|]. destruct Bm as [|b Bm]; [discriminate|].
    inversion HB as [|? ? Hb HB']; subst. inversion Hne as [|? ? Hi Hne']; subst.
    destruct (IH gb' obs Bm Egb') as (A & Axkl & fx & HA & HE & HM & HAl & Hfx);
      [cbn [length] in Hobs; lia|cbn [length] in HBm; lia|exact HB'|exact Hne'|].
    destruct (take_row_same_length grid prod i g (eq_sym Hprod) Eg) as (a & Ha & Halen).
    assert (Hg : g <> []).
    { apply mapM_result_length in Eg. destruct g; [|discriminate].
      destruct i; [easy|discriminate]. }
    eexists (a :: A), _, _. unfold St.take2 in *. cbn [mapM].
    rewrite Ha, HA. cbn [bind]. split; [reflexivity|].
    cbn [combine]. rewrite map_cons. cbn [St.einsum fst snd].
    unfold St.einsum_row. rewrite length_map, Halen, Nat.eqb_refl.
    cbn [bind]. rewrite HE. cbn [bind]. split; [reflexivity|].
    unfold St.matvec in *. rewrite map_cons. cbn [mapM].
    rewrite concat_rows_length.
    replace (length (hd [] (map (fun g1 : R =>
               map (fun v : R => exp (- (g1 - o + sig_k * v) ^ 2 / sig_k ^ 2))
                   [-1.4; -0.7; 0; 0.7; 1.4]) g))) with 5%nat
      by (destruct g; [easy|reflexivity]).
    rewrite <- Hak, Nat.eqb_refl. cbn [bind].
    rewrite HM. cbn [bind]. split; [reflexivity|]. cbn [length].
    now rewrite HAl, Hfx.
Qed.

Lemma reshape_rows_nonempty (Axkl : list (list (list R))) :
  Axkl <> [] -> St.reshape_rows Axkl = Some (map (@concat R) Axkl).
Proof. destruct Axkl; [easy|reflexivity]. Qed.

Ltac st_step H :=
  cbn [St.sbind St.set_x St.get_self St.set_self St.set_bnd St.set_BBxjl St.set_Bxk
       St.ret St.raise St.lift St.read St.heap St.self St.IP St.lnwave_j St.xcen
       St.IP_hs St.spec_cell_j St.S_star St.bnd St.BBxjl St.Bxk fst snd] in H.

Ltac st_goal :=
  cbn [St.sbind St.set_x St.get_self St.set_self St.set_bnd St.set_BBxjl St.set_Bxk
       St.ret St.raise St.lift St.read St.alloc St.heap St.self St.IP St.lnwave_j
       St.xcen St.IP_hs St.spec_cell_j St.S_star St.bnd St.BBxjl St.Bxk fst snd].

(** X14. The arrays that [base] caches fit together: after a call of
    [base(x=...)] on a non-empty pixel array that returned (on a model with
    [IP_hs >= 0] whose cell spectrum is sampled on the grid), the
    band-matrix evaluator, called
    without keyword arguments on a template defined on the shifted grid and
    with [degk * 5] amplitudes, returns; its result is a new array with one
    value for every pixel of the array given to [base], whatever array is
    passed as its own first argument. *)
Theorem base_then_call_bnd_returns
    (s s1 : St.state) (kw : St.base_kwargs) (v : R) (ak : list R)
    (xl x' : St.loc) (xv grid cell : list R) :
  St.base kw s = (St.Ok tt, s1) ->
  (0 <= St.IP_hs (St.self s))%Z ->
  St.kw_x kw = Some xl ->
  nth_error (St.heap s) xl = Some xv ->
  xv <> [] ->
  nth_error (St.heap s) (St.lnwave_j (St.self s)) = Some grid ->
  nth_error (St.heap s) (St.spec_cell_j (St.self s)) = Some cell ->
  length cell = length grid ->
  Forall (fun g => St.S_star (St.self s) g <> None) (map (fun g => g - v / c) grid) ->
  length ak = (match St.kw_degk kw with Some n => n | None => 3%nat end * 5)%nat ->
  exists l fx s2,
    St.call_bnd x' v ak no_kwargs s1 = (St.Ok l, s2) /\
    nth_error (St.heap s2) l = Some fx /\
    length fx = length xv.
Proof.
  intros Hbase Hhs Hx Hxv Hxne Hgrid Hcell Hlen Hstar Hak.
  unfold St.base in Hbase. st_step Hbase.
  destruct (St.IP (St.self s)) as [f|bg] eqn:EIP; st_step Hbase; [discriminate|].
  rewrite Hx in Hbase. st_step Hbase.
  erewrite sbind_ok in Hbase by (apply read_ok; exact Hxv).
  erewrite sbind_ok in Hbase by (apply read_ok; exact Hgrid).
  destruct (NpArr.interp _ grid _) as [jx|] eqn:Ejx; st_step Hbase; [|discriminate].
  destruct (St.take2 grid _) as [gb|] eqn:Egb; st_step Hbase; [|discriminate].
  apply (f_equal snd) in Hbase. cbn [snd] in Hbase.
  set (idx := map _ jx) in *.
  set (obs := map _ xv) in *.
  set (degk := match St.kw_degk kw with Some n => n | None => 3%nat end) in *.
  set (sig_k := match St.kw_sig_k kw with Some v0 => v0 | None => 1 end) in *.
  set (Bm := St.vander_rev (map (fun p => p - Np.sum xv / INR (length xv)) xv) degk) in *.
  assert (Hheap : St.heap s1 = St.heap s) by (now rewrite <- Hbase).
  assert (Hlj : St.lnwave_j (St.self s1) = St.lnwave_j (St.self s))
    by (now rewrite <- Hbase).
  assert (Hcj : St.spec_cell_j (St.self s1) = St.spec_cell_j (St.self s))
    by (now rewrite <- Hbase).
  assert (HSs : St.S_star (St.self s1) = St.S_star (St.self s))
    by (now rewrite <- Hbase).
  assert (Hbnd : St.bnd (St.self s1) = Some idx) by (now rewrite <- Hbase).
  assert (HBB : St.BBxjl (St.self s1) =
                Some (map (fun p : list R * R =>
                             map (fun g =>
                                    map (fun v => exp (- (g - snd p + sig_k * v) ^ 2
                                                       / sig_k ^ 2))
                                        [-1.4; -0.7; 0; 0.7; 1.4])
                                 (fst p))
                          (combine gb obs))) by (now rewrite <- Hbase).
  assert (HBk : St.Bxk (St.self s1) = Some Bm) by (now rewrite <- Hbase).
  clear Hbase.
  assert (Hjx : length jx = length xv).
  { unfold NpArr.interp in Ejx. destruct grid; [discriminate|].
    destruct (Nat.eqb _ _); [|discriminate]. injection Ejx as <-.
    unfold obs. now rewrite !length_map. }
  destruct (mapM_length _ _ (St.S_star (St.self s)) _ Hstar) as (starj & Hstarj & Hsl).
  rewrite length_map in Hsl.
  destruct (binop_same_length Rmult starj cell) as (prod & Hprod & Hpl); [congruence|].
  destruct (band_einsum_ok sig_k degk ak prod grid ltac:(congruence) Hak
              idx gb obs Bm Egb)
    as (A & Axkl & fx & HA & HE & HM & HAl & Hfx).
  { unfold obs, idx. now rewrite !length_map. }
  { unfold Bm, St.vander_rev, idx. now rewrite !length_map. }
  { unfold Bm, St.vander_rev. apply Forall_map. apply Forall_forall. intros b _.
    now rewrite length_map, length_seq. }
  { unfold idx. apply Forall_map. apply Forall_forall. intros u _.
    intros E. apply (f_equal (@length Z)) in E.
    rewrite length_map, arange_length in E. cbn [length] in E. lia. }
  assert (Hrows : St.reshape_rows Axkl = Some (map (@concat R) Axkl)).
  { apply reshape_rows_nonempty. intros ->. cbn [length] in HAl.
    unfold idx in HAl. rewrite length_map, Hjx in HAl.
    destruct xv; [easy|discriminate]. }
  assert (HAxk : St.Axk v no_kwargs s1 = (St.Ok Axkl, s1)).
  { unfold St.Axk.
    erewrite sbind_ok by reflexivity.
    erewrite sbind_ok by reflexivity.
    erewrite sbind_ok by (apply read_ok; rewrite Hheap, Hlj; exact Hgrid).
    rewrite HSs, Hstarj. erewrite sbind_ok by reflexivity.
    erewrite sbind_ok by (apply read_ok; rewrite Hheap, Hcj; exact Hcell).
    rewrite Hprod. erewrite sbind_ok by reflexivity.
    rewrite Hbnd. erewrite sbind_ok by reflexivity.
    rewrite HA. erewrite sbind_ok by reflexivity.
    rewrite HBB. erewrite sbind_ok by reflexivity.
    rewrite HBk. erewrite sbind_ok by reflexivity.
    rewrite HE. reflexivity. }
  unfold St.call_bnd. cbn [no_kwargs St.kw_x]. erewrite sbind_ok by exact HAxk.
  rewrite Hrows. erewrite sbind_ok by reflexivity.
  rewrite HM. erewrite sbind_ok by reflexivity.
  destruct (alloc_ok fx s1) as (s2 & Hrun & _ & _ & Hnew).
  exists (length (St.heap s1)), fx, s2. split; [exact Hrun|]. split; [exact Hnew|].
  rewrite Hfx. unfold idx. now rewrite length_map.
Qed.

Lemma trunc_0 : St.trunc 0 = 0%Z.
Proof.
  unfold St.trunc. destruct (Rle_dec 0 0) as [_|H]; [|lra].
  unfold Int_part. rewrite <- (tech_up 0 1); [reflexivity|lra|lra].
Qed.

Lemma interp1_first_knot e :
  e = 0 -> NpArr.interp1 [0; 1; 2] (Np.arange 3) e = 0.
Proof.
  intros ->. unfold NpArr.interp1, Np.arange.
  cbn [seq map NpArr.interp_scan INR].
  destruct (Rlt_dec 0 0) as [H|_]; [lra|].
  destruct (Rlt_dec 0 1) as [_|H]; [|lra]. unfold Rdiv. ring.
Qed.

Lemma base_one_pixel_returns :
  fst (St.base kwargs_x bnd_state_one_pixel) = St.Ok tt.
Proof.
  unfold St.base.
  erewrite sbind_ok by reflexivity.
  erewrite sbind_ok by reflexivity.
  erewrite sbind_ok by reflexivity.
  erewrite sbind_ok by reflexivity.
  erewrite sbind_ok by reflexivity.
  erewrite sbind_ok by reflexivity.
  erewrite sbind_ok by reflexivity.
  erewrite sbind_ok by reflexivity.
  match goal with |- context [St.take2 ?g ?i] =>
    change i with
      [[Z.add (St.trunc (NpArr.interp1 [0; 1; 2] (Np.arange 3)
                           (ln (NpArr.polyval (rev [1; 1]) (0 - 0))))) 0%Z]]
  end.
  rewrite interp1_first_knot, trunc_0.
  2:{ unfold NpArr.polyval. cbn [rev app fold_left].
      replace ((0 * (0 - 0) + 1) * (0 - 0) + 1) with 1 by ring. apply ln_1. }
  erewrite sbind_ok by reflexivity.
  erewrite sbind_ok by reflexivity.
  reflexivity.
Qed.

Lemma base_then_call_bnd_returns_witness :
  exists l fx s2,
    St.call_bnd 2%nat 0 (repeat 1 15) no_kwargs
      (snd (St.base kwargs_x bnd_state_one_pixel)) = (St.Ok l, s2) /\
    nth_error (St.heap s2) l = Some fx /\
    length fx = length [0].
Proof.
  pose proof base_one_pixel_returns as Hret.
  destruct (St.base kwargs_x bnd_state_one_pixel) as [o s1] eqn:Hbase.
  cbn [fst snd] in *. subst o.
  apply (base_then_call_bnd_returns bnd_state_one_pixel s1 kwargs_x 0 (repeat 1 15)
           2%nat 2%nat [0] [0; 1; 2] [1; 1; 1] Hbase).
  - cbn. lia.
  - reflexivity.
  - reflexivity.
  - discriminate.
  - reflexivity.
  - reflexivity.
  - reflexivity.
  - repeat constructor; discriminate.
  - reflexivity.
Defined.

(** ** Orders, detectors and column names of the CRIRES+ files *)

(** X16. The order numbering of [Spectrum] and [Tpl] and the one of
    [write_fits] are inverse to each other: an order is split into the
    pipeline's order number and a detector that is 1, 2 or 3, from which
    the formula of [write_fits] gives the order back; and a pipeline order
    number with a detector in 1..3 is recombined into an order that splits
    into the same two. *)
Theorem order_numbering_round_trip :
  (forall order : Z,
     let od := inst_CRIRES.drs_detector order in
     inst_CRIRES.order_of (fst od) (snd od) = order /\
     (1 <= snd od <= 3)%Z) /\
  (forall odrs detector : Z,
     (1 <= detector <= 3)%Z ->
     inst_CRIRES.drs_detector (inst_CRIRES.order_of odrs detector) = (odrs, detector)).
Proof.
  split.
  - intros order. unfold inst_CRIRES.drs_detector, inst_CRIRES.order_of.
    cbn [fst snd].
    pose proof (Z.div_mod (order - 1) 3 ltac:(lia)).
    pose proof (Z.mod_pos_bound (order - 1) 3 ltac:(lia)). lia.
  - intros odrs detector Hd.
    unfold inst_CRIRES.drs_detector, inst_CRIRES.order_of.
    replace ((7 - odrs) * 3 + detector - 1)%Z with ((detector - 1) + (7 - odrs) * 3)%Z
      by lia.
    rewrite Z.div_add, Z.mod_add by lia.
    rewrite Z.div_small, Z.mod_small by lia. f_equal; lia.
Qed.

Lemma split_digits d rest :
  Python.split "_"%char (NilEmpty.string_of_uint d ++ String "_"%char rest)%string =
  NilEmpty.string_of_uint d :: Python.split "_"%char rest.
Proof.
  induction d; cbn [NilEmpty.string_of_uint String.append Python.split];
    try (rewrite IHd; reflexivity).
  reflexivity.
Qed.

Lemma str_nonneg n :
  (0 <= n)%Z ->
  exists d, Python.str n = NilEmpty.string_of_uint d /\ Z.of_uint d = n.
Proof.
  intros Hn. unfold Python.str.
  pose proof (DecimalZ.of_to n) as Hot.
  destruct (Z.to_int n) as [d|d] eqn:E.
  - cbn [Z.of_int] in Hot. destruct d.
    + exfalso. destruct n; cbn in E; discriminate.
    + eexists; split; [reflexivity|exact Hot].
    + eexists; split; [reflexivity|exact Hot].
    + eexists; split; [reflexivity|exact Hot].
    + eexists; split; [reflexivity|exact Hot].
    + eexists; split; [reflexivity|exact Hot].
    + eexists; split; [reflexivity|exact Hot].
    + eexists; split; [reflexivity|exact Hot].
    + eexists; split; [reflexivity|exact Hot].
    + eexists; split; [reflexivity|exact Hot].
    + eexists; split; [reflexivity|exact Hot].
  - exfalso. destruct n; cbn in E; try discriminate. lia.
Qed.

Lemma split_nonempty sep s : Python.split sep s <> [].
Proof.
  destruct s as [|a s]; cbn [Python.split]; [discriminate|].
  destruct (Ascii.eqb a sep); [discriminate|].
  destruct (Python.split sep s); discriminate.
Qed.

Lemma of_uint_leading_zero d : Z.of_uint (D0 d) = Z.of_uint d.
Proof. reflexivity. Qed.

Lemma int_zero_digits d :
  Python.int (String "0"%char (NilEmpty.string_of_uint d)) = Some (Z.of_uint d).
Proof.
  unfold Python.int, NilZero.int_of_string, NilZero.uint_of_string.
  cbn [Ascii.eqb Bool.eqb NilEmpty.uint_of_string].
  rewrite NilEmpty.usu. reflexivity.
Qed.

Lemma int_zero_minus rest : Python.int (String "0"%char (String "-"%char rest)) = None.
Proof.
  unfold Python.int, NilZero.int_of_string, NilZero.uint_of_string.
  cbn [Ascii.eqb Bool.eqb NilEmpty.uint_of_string].
  destruct (NilEmpty.uint_of_string rest); reflexivity.
Qed.

(** X17. The column names that [Spectrum] and [Tpl] read and the parsing
    of [write_fits] fit together for the orders 1 to 24: from the name
    ["0"+str(order_drs)+"_01_..."] of an order's column, [write_fits]
    recovers the pipeline's order number and, with the detector, the order
    itself.  From order 25 on the pipeline's order number is negative, and
    [int] raises on the name built from it. *)
Theorem column_names_parse_back (order : Z) (suffix : string) :
  let od := inst_CRIRES.drs_detector order in
  ((1 <= order <= 24)%Z ->
   inst_CRIRES.odrs_of_column
     (inst_CRIRES.column (fst od) (String "_"%char suffix)) = Some (fst od) /\
   inst_CRIRES.order_of (fst od) (snd od) = order) /\
  ((25 <= order)%Z ->
   inst_CRIRES.odrs_of_column (inst_CRIRES.column (fst od) suffix) = None).
Proof.
  cbv zeta. unfold inst_CRIRES.drs_detector. cbn [fst snd].
  pose proof (Z.div_mod (order - 1) 3 ltac:(lia)) as Hdm.
  pose proof (Z.mod_pos_bound (order - 1) 3 ltac:(lia)) as Hm.
  split; intros Ho.
  - split; [|unfold inst_CRIRES.order_of; lia].
    destruct (str_nonneg (7 - (order - 1) / 3)) as (d & Hd & Hv); [lia|].
    unfold inst_CRIRES.odrs_of_column, inst_CRIRES.column. rewrite Hd.
    cbn [String.append Python.split Ascii.eqb Bool.eqb].
    rewrite split_digits. cbn [nth_error bind].
    now rewrite int_zero_digits, Hv.
  - unfold inst_CRIRES.odrs_of_column, inst_CRIRES.column, Python.str.
    destruct (Z.to_int (7 - (order - 1) / 3)) as [d|d] eqn:E.
    { exfalso. pose proof (DecimalZ.of_to (7 - (order - 1) / 3)) as Hot.
      rewrite E in Hot. cbn [Z.of_int] in Hot.
      assert (0 <= Z.of_uint d)%Z by (unfold Z.of_uint; lia). lia. }
    cbn [NilZero.string_of_int String.append Python.split Ascii.eqb Bool.eqb].
    destruct (Python.split "_"%char _) as [|p ps] eqn:Es.
    { now apply split_nonempty in Es. }
    cbn [nth_error bind]. apply int_zero_minus.
Qed.

Lemma column_names_parse_back_witness :
  inst_CRIRES.odrs_of_column
    (inst_CRIRES.column (fst (inst_CRIRES.drs_detector 2)) "_01_SPEC") =
  Some (fst (inst_CRIRES.drs_detector 2)) /\
  inst_CRIRES.order_of (fst (inst_CRIRES.drs_detector 2))
    (snd (inst_CRIRES.drs_detector 2)) = 2%Z.
Proof.
  apply (proj1 (column_names_parse_back 2 "01_SPEC")). lia.
Defined.

Lemma order_numbering_round_trip_witness :
  inst_CRIRES.drs_detector (inst_CRIRES.order_of 5 2) = (5, 2)%Z.
Proof.
  apply (proj2 order_numbering_round_trip). lia.
Defined.

(** ** Kernels that reduce to the Gaussian *)

Lemma power_abs_two x : Np.power (Rabs x) 2 = x ^ 2.
Proof.
  unfold Np.power. destruct (Req_dec_T 2 0) as [H|_]; [lra|].
  destruct (Rlt_dec 0 (Rabs x)) as [Hpos|Hzero].
  - change 2 with (INR 2). rewrite Rpower_pow by exact Hpos. apply pow2_abs.
  - assert (Rabs x = 0) by (pose proof (Rabs_pos x); lra).
    assert (x = 0) by (destruct (Req_dec x 0) as [E|E]; [exact E|];
                       apply Rabs_no_R0 in E; easy).
    subst x. ring.
Qed.

(** X18. Special cases in which the kernels coincide, as arrays: the
    bi-Gaussian with equal widths is the Gaussian of that width; the
    two-component central kernel with amplitude zero and the multi-Gaussian
    without amplitudes (one Gaussian of the hard-coded width 0.9) are
    super-Gaussians of exponent two; and the super-Gaussian of exponent two
    and width [s] is the Gaussian of width [s / sqrt 2]. *)
Theorem kernels_reduce_to_gaussian (vk : list R) :
  (forall s, IP_bg vk s s = IP vk s) /\
  (forall s0, IP_mcg vk s0 0 = IP_sg vk s0 2) /\
  IP_mg vk [] = IP_sg vk 0.9 2 /\
  (forall s, s <> 0 -> IP_sg vk s 2 = IP vk (s / sqrt 2)).
Proof.
  repeat split; intros.
  - unfold IP_bg, IP, IP_k_bg, IP_k_g. f_equal. rewrite map_map.
    apply map_ext. intros v.
    replace (sqrt (2 / PI) * (- s ^ 2 + s ^ 2) / (s + s)) with 0
      by (unfold Rdiv; ring).
    rewrite Rplus_0_r.
    destruct (Rlt_dec v 0); f_equal; set (X := (v / s) ^ 2); lra.
  - unfold IP_mcg, IP_sg, IP_k_mcg, IP_k_sg. f_equal. rewrite map_map.
    apply map_ext. intros v. rewrite power_abs_two.
    replace (exp (- (v / s0) ^ 2) + 0 / 10 * exp (- (v / (4 * s0)) ^ 2))
      with (exp (- (v / s0) ^ 2)) by (unfold Rdiv; ring).
    apply Rmax_right. left. apply exp_pos.
  - unfold IP_mg, IP_sg, IP_k_mg, IP_k_sg. f_equal.
    cbn [length map Nat.div Nat.divmod fst firstn skipn app].
    apply map_ext. intros v. rewrite power_abs_two.
    unfold Np.arange, Np.dot, Np.sum.
    cbn [seq map combine fold_right fold_left INR fst snd].
    replace (1 * exp (- ((v - 0.9 * (0 - (0 * 1 + 0) / (0 + 1))) / 0.9) ^ 2) + 0)
      with (exp (- ((v - 0.9 * (0 - (0 * 1 + 0) / (0 + 1))) / 0.9) ^ 2)) by ring.
    f_equal. f_equal. f_equal. f_equal. unfold Rdiv. rewrite Rplus_0_l, Rinv_1. ring.
  - unfold IP_sg, IP, IP_k_sg, IP_k_g. f_equal.
    apply map_ext. intros v. rewrite power_abs_two. f_equal.
    assert (Hs2 : 0 < sqrt 2) by (apply sqrt_lt_R0; lra).
    assert (Hsq : sqrt 2 * sqrt 2 = 2) by (apply sqrt_sqrt; lra).
    replace (v / (s / sqrt 2)) with (v / s * sqrt 2) by (field; split; lra).
    replace ((v / s * sqrt 2) ^ 2) with ((v / s) ^ 2 * (sqrt 2 * sqrt 2)) by ring.
    rewrite Hsq. unfold Rdiv. field. assumption.
Qed.

Lemma kernels_reduce_to_gaussian_witness :
  IP_sg [0; 1] 2.2 2 = IP [0; 1] (2.2 / sqrt 2).
Proof.
  apply (proj2 (proj2 (proj2 (kernels_reduce_to_gaussian [0; 1])))). lra.
Defined.

Lemma call_refines_witness :
  refines (St.call 4%nat 0 [1] [1; 1] [2.2] [1] [0]) one_absorber_state
    (model.call model_one_absorber [1; 2] 0 [1] [1; 1] [2.2] [1] [0])
    (fun v l s' => same_below (length (St.heap one_absorber_state))
                     one_absorber_state s' /\
                   (length (St.heap one_absorber_state) <= l)%nat /\
                   nth_error (St.heap s') l = Some v).
Proof.
  apply (call_refines one_absorber_state model_one_absorber 4%nat [1; 2]);
    reflexivity.
Defined.

(** ** The band-matrix evaluator and the kernels [IPxj] *)

Lemma sum_map_ext_in (A : Type) (f g : A -> R) l :
  (forall x, In x l -> f x = g x) -> Np.sum (map f l) = Np.sum (map g l).
Proof. intros H. f_equal. now apply map_ext_in. Qed.

Lemma sum_map_plus (A : Type) (f g : A -> R) l :
  Np.sum (map (fun x => f x + g x) l) = Np.sum (map f l) + Np.sum (map g l).
Proof.
  induction l as [|a l IH]; cbn [map]; rewrite ?sum_cons.
  - unfold Np.sum. cbn [fold_right]. ring.
  - rewrite IH. ring.
Qed.

Lemma sum_map_zero (A : Type) (l : list A) : Np.sum (map (fun _ => 0) l) = 0.
Proof.
  induction l as [|a l IH]; cbn [map]; rewrite ?sum_cons.
  - reflexivity.
  - rewrite IH. ring.
Qed.

Lemma sum_swap (A B : Type) (f : A -> B -> R) la lb :
  Np.sum (map (fun a => Np.sum (map (fun b => f a b) lb)) la) =
  Np.sum (map (fun b => Np.sum (map (fun a => f a b) la)) lb).
Proof.
  induction la as [|a la IH]; cbn [map].
  - symmetry. apply sum_map_zero.
  - rewrite sum_cons, IH.
    rewrite <- sum_map_plus. apply sum_map_ext_in. intros b _. now rewrite sum_cons.
Qed.

Lemma sum_scale_r (A : Type) (f : A -> R) k l :
  Np.sum (map (fun i => f i * k) l) = Np.sum (map f l) * k.
Proof.
  rewrite Rmult_comm, <- sum_scale. apply sum_map_ext_in. intros; ring.
Qed.

Lemma dot_app a b c d :
  length a = length c -> Np.dot (a ++ b) (c ++ d) = Np.dot a c + Np.dot b d.
Proof.
  intros H. unfold Np.dot.
  replace (combine (a ++ b) (c ++ d)) with (combine a c ++ combine b d).
  - now rewrite map_app, sum_app.
  - revert c H. induction a as [|x a IH]; intros [|y c] H; try discriminate.
    + reflexivity.
    + cbn [app combine]. f_equal. apply IH. now injection H.
Qed.

Lemma dot_concat rows cols :
  Forall2 (fun r c => length r = length c) rows cols ->
  Np.dot (concat rows) (concat cols) =
  Np.sum (map (fun p => Np.dot (fst p) (snd p)) (combine rows cols)).
Proof.
  induction 1 as [|r c rows cols Hrc _ IH]; [reflexivity|].
  cbn [concat combine map]. rewrite sum_cons, dot_app by exact Hrc.
  now rewrite IH.
Qed.

Lemma dot_map_seq (f : nat -> R) cvec :
  Np.dot (map f (seq 0 (length cvec))) cvec =
  Np.sum (map (fun l => f l * nth l cvec 0) (seq 0 (length cvec))).
Proof.
  unfold Np.dot. f_equal.
  rewrite <- (map_id cvec) at 2.
  rewrite (zip_as_seq Rmult) by (now rewrite !length_map, length_seq).
  rewrite length_map, length_seq. apply map_ext_in. intros l Hl.
  apply in_seq in Hl. rewrite map_id.
  rewrite (nth_map_seq f) by lia. reflexivity.
Qed.

Lemma sum_combine_map_r (F : list R -> R) (A_x : list R) (BB_x : list (list R)) :
  Np.sum (map (fun p => fst p * snd p) (combine A_x (map F BB_x))) =
  Np.sum (map (fun p => fst p * F (snd p)) (combine A_x BB_x)).
Proof.
  revert BB_x. induction A_x as [|a A_x IH]; intros [|bb BB_x]; try reflexivity.
  cbn [map combine fst snd]. rewrite !sum_cons. now rewrite IH.
Qed.

Lemma sum_combine_map_l (G : R -> list R) (h : list R -> list R -> R)
    (B_x : list R) (akl : list (list R)) :
  Np.sum (map (fun p => h (fst p) (snd p)) (combine (map G B_x) akl)) =
  Np.sum (map (fun q => h (G (fst q)) (snd q)) (combine B_x akl)).
Proof.
  revert akl. induction B_x as [|b B_x IH]; intros [|ar akl]; try reflexivity.
  cbn [map combine fst snd]. rewrite !sum_cons. now rewrite IH.
Qed.

Lemma sum_seq_combine (g : R -> list R -> R) (B_x : list R) (akl : list (list R)) :
  length akl = length B_x ->
  Np.sum (map (fun k => g (nth k B_x 0) (nth k akl [])) (seq 0 (length akl))) =
  Np.sum (map (fun q => g (fst q) (snd q)) (combine B_x akl)).
Proof.
  revert akl. induction B_x as [|b B_x IH]; intros [|ar akl] H; try discriminate.
  - reflexivity.
  - cbn [length seq map combine fst snd nth]. rewrite !sum_cons. f_equal.
    rewrite <- seq_shift, map_map. cbn [nth]. apply IH. now injection H.
Qed.

(** One pixel: the row of [Axkl] times the amplitudes is the band data
    times the kernel of the pixel. *)
Lemma band_row_identity (A_x : list R) (BB_x : list (list R)) (B_x : list R)
    (akl : list (list R)) (L : nat) :
  length akl = length B_x ->
  Forall (fun r => length r = L) akl ->
  Np.dot
    (concat (map (fun bk =>
                    map (fun l => Np.sum (map (fun p => fst p * nth l (snd p) 0 * bk)
                                              (combine A_x BB_x)))
                        (seq 0 L))
                 B_x))
    (concat akl) =
  Np.dot A_x
    (map (fun bb =>
            Np.sum (map (fun l =>
                           Np.sum (map (fun k => nth l bb 0 * nth k B_x 0
                                                 * nth l (nth k akl []) 0)
                                       (seq 0 (length akl))))
                        (seq 0 L)))
         BB_x).
Proof.
  intros HK HL.
  transitivity
    (Np.sum (map (fun p : R * list R =>
       Np.sum (map (fun l =>
         Np.sum (map (fun q : R * list R =>
                        fst p * nth l (snd p) 0 * fst q * nth l (snd q) 0)
                     (combine B_x akl)))
                   (seq 0 L)))
       (combine A_x BB_x))).
  - rewrite dot_concat.
    2:{ clear - HK HL. revert akl HK HL.
        induction B_x as [|b B_x IH]; intros [|ar akl] HK HL; try discriminate;
          cbn [map]; constructor.
        - inversion HL; subst. now rewrite length_map, length_seq.
        - apply IH; [now injection HK|now inversion HL]. }
    rewrite (sum_combine_map_l _ (fun r cvec => Np.dot r cvec)).
    rewrite (sum_map_ext_in _ _
               (fun q : R * list R =>
                  Np.sum (map (fun p : R * list R =>
                    Np.sum (map (fun l => fst p * nth l (snd p) 0 * fst q
                                          * nth l (snd q) 0)
                                (seq 0 L)))
                    (combine A_x BB_x)))).
    + rewrite sum_swap. apply sum_map_ext_in. intros p _. apply sum_swap.
    + intros [bk ar] Hq. cbn [fst snd].
      assert (Har : length ar = L).
      { apply in_combine_r in Hq. rewrite Forall_forall in HL. now apply HL. }
      rewrite <- Har, dot_map_seq, sum_swap.
      apply sum_map_ext_in. intros l _. now rewrite <- sum_scale_r.
  - unfold Np.dot. rewrite sum_combine_map_r.
    apply sum_map_ext_in. intros p _.
    rewrite <- sum_scale. apply sum_map_ext_in. intros l _.
    rewrite <- sum_scale.
    rewrite (sum_seq_combine (fun b ar => fst p * (nth l (snd p) 0 * b * nth l ar 0)))
      by exact HK.
    apply sum_map_ext_in. intros q _. ring.
Qed.

Lemma rows_of_spec (L n : nat) (a : list R) :
  length a = (n * L)%nat ->
  length (rows_of L n a) = n /\
  Forall (fun r => length r = L) (rows_of L n a) /\
  concat (rows_of L n a) = a.
Proof.
  revert a. induction n as [|n IH]; intros a Ha; cbn [rows_of].
  - cbn [Nat.mul] in Ha. destruct a; [|discriminate]. repeat split. constructor.
  - destruct (IH (skipn L a)) as (H1 & H2 & H3).
    { rewrite length_skipn. lia. }
    cbn [length concat]. repeat split.
    + now rewrite H1.
    + constructor; [|exact H2]. rewrite length_firstn. lia.
    + rewrite H3. apply firstn_skipn.
Qed.

Lemma reshape_amplitudes (degk : nat) (ak : list R) :
  (1 <= degk)%nat -> length ak = (degk * 5)%nat ->
  reshape degk ak = Some (rows_of 5 degk ak).
Proof.
  intros Hk Hak. unfold reshape.
  destruct (Nat.eqb degk 0) eqn:E; [apply Nat.eqb_eq in E; lia|].
  rewrite Hak, Nat.mul_comm, Nat.Div0.mod_mul, Nat.div_mul by lia.
  reflexivity.
Qed.

Lemma band_einsum_identity (sig_k : R) (degk : nat) (ak prod grid : list R)
    (akl : list (list R)) :
  length prod = length grid ->
  length ak = (degk * 5)%nat ->
  concat akl = ak ->
  length akl = degk ->
  Forall (fun r => length r = 5%nat) akl ->
  length (hd [] akl) = 5%nat ->
  forall (idx : list (list Z)) (gb : list (list R)) (obs : list R) (Bm : list (list R)),
    St.take2 grid idx = Some gb ->
    length obs = length idx ->
    length Bm = length idx ->
    Forall (fun b => length b = degk) Bm ->
    Forall (fun i => i <> []) idx ->
    exists A Axkl fx ip,
      St.take2 prod idx = Some A /\
      St.einsum A
        (map (fun p : list R * R =>
                map (fun g =>
                       map (fun v => exp (- (g - snd p + sig_k * v) ^ 2 / sig_k ^ 2))
                           [-1.4; -0.7; 0; 0.7; 1.4])
                    (fst p))
             (combine gb obs)) Bm = Some Axkl /\
      St.matvec (map (@concat R) Axkl) ak = Some fx /\
      einsum_xj
        (map (fun p : list R * R =>
                map (fun g =>
                       map (fun v => exp (- (g - snd p + sig_k * v) ^ 2 / sig_k ^ 2))
                           [-1.4; -0.7; 0; 0.7; 1.4])
                    (fst p))
             (combine gb obs)) Bm akl = Some ip /\
      fx = map (fun p => Np.dot (fst p) (snd p)) (combine A ip) /\
      length fx = length idx /\
      length Axkl = length idx.
Proof.
  intros Hprod Hak Hcat HK HL Hhd.
  induction idx as [|i idx IH]; intros gb obs Bm Hgb Hobs HBm HB Hne.
  - cbn in Hgb. injection Hgb as <-.
    destruct obs; [|discriminate]. destruct Bm; [|discriminate].
    exists [], [], [], []. repeat split; reflexivity.
  - unfold St.take2 in Hgb. cbn [mapM] in Hgb.
    destruct (mapM (St.take1 grid) i) as [g|] eqn:Eg; [|discriminate].
    cbn [bind] in Hgb.
    destruct (mapM (mapM (St.take1 grid)) idx) as [gb'|] eqn:Egb'; [|discriminate].
    cbn [bind] in Hgb. injection Hgb as <-.
    destruct obs as [|o obs]; [discriminate|]. destruct Bm as [|b Bm]; [discriminate|].
    pose proof (Forall_inv HB) as Hb. pose proof (Forall_inv_tail HB) as HB'.
    pose proof (Forall_inv Hne) as Hi. pose proof (Forall_inv_tail Hne) as Hne'.
    cbn beta in Hb, Hi.
    destruct (IH gb' obs Bm Egb')
      as (A & Axkl & fx & ip & HA & HE & HM & HI & Hfx & Hlen & HAl);
      [cbn [length] in Hobs; lia|cbn [length] in HBm; lia|exact HB'|exact Hne'|].
    destruct (take_row_same_length grid prod i g (eq_sym Hprod) Eg) as (a & Ha & Halen).
    assert (Hg : g <> []).
    { apply mapM_result_length in Eg. destruct g; [|discriminate].
      destruct i; [easy|discriminate]. }
    set (BB_x := map (fun g1 : R =>
                        map (fun v : R => exp (- (g1 - o + sig_k * v) ^ 2 / sig_k ^ 2))
                            [-1.4; -0.7; 0; 0.7; 1.4]) g).
    assert (HhdBB : length (hd [] BB_x) = 5%nat)
      by (unfold BB_x; destruct g; [easy|reflexivity]).
    assert (HallBB : forallb (fun bb => Nat.eqb (length bb) 5) BB_x = true).
    { unfold BB_x. apply forallb_forall. intros bb Hbb. apply in_map_iff in Hbb.
      destruct Hbb as (g1 & <- & _). reflexivity. }
    eexists (a :: A), _, _, _. unfold St.take2 in *. cbn [mapM].
    rewrite Ha, HA. cbn [bind]. split; [reflexivity|].
    cbn [combine]. rewrite map_cons. cbn [St.einsum einsum_xj fst snd].
    fold BB_x. unfold St.einsum_row, einsum_xj_row.
    replace (length BB_x) with (length g) by (unfold BB_x; now rewrite length_map).
    rewrite Halen, Nat.eqb_refl, HhdBB, Hhd, HK, Hb, Nat.eqb_refl, HallBB.
    cbn [andb bind]. rewrite HE, HI. cbn [bind]. split; [reflexivity|].
    unfold St.matvec in *. rewrite map_cons. cbn [mapM].
    rewrite concat_rows_length, Hb, <- Hak, Nat.eqb_refl. cbn [bind].
    rewrite HM. cbn [bind]. split; [reflexivity|]. split; [reflexivity|].
    split; [|cbn [length]; now rewrite Hlen, HAl].
    cbn [combine map fst snd]. f_equal; [|exact Hfx].
    rewrite <- Hcat at 1.
    replace (seq 0 degk) with (seq 0 (length akl)) by (now rewrite HK).
    apply (band_row_identity a BB_x b akl 5); [lia|exact HL].
Qed.

(** X20. The band-matrix evaluator is the band data weighted with the
    kernels of [IPxj]: after a call of [base(x=...)] that returned, for a
    non-empty pixel array, a basis of degree [degk >= 1] and [degk * 5]
    amplitudes, [IPxj] and [__call__] (called without keyword arguments)
    both return, and the value of [__call__] at every pixel is the dot
    product of the band [(starj * spec_cell_j)[bnd]] of that pixel with the
    pixel's row of [IPxj]. *)
Theorem call_bnd_is_band_times_IPxj
    (s s1 : St.state) (kw : St.base_kwargs) (v : R) (ak : list R)
    (xl x' : St.loc) (xv grid cell : list R) :
  St.base kw s = (St.Ok tt, s1) ->
  (0 <= St.IP_hs (St.self s))%Z ->
  St.kw_x kw = Some xl ->
  nth_error (St.heap s) xl = Some xv ->
  xv <> [] ->
  nth_error (St.heap s) (St.lnwave_j (St.self s)) = Some grid ->
  nth_error (St.heap s) (St.spec_cell_j (St.self s)) = Some cell ->
  length cell = length grid ->
  Forall (fun g => St.S_star (St.self s) g <> None) (map (fun g => g - v / c) grid) ->
  (1 <= match St.kw_degk kw with Some n => n | None => 3%nat end)%nat ->
  length ak = (match St.kw_degk kw with Some n => n | None => 3%nat end * 5)%nat ->
  exists starj prod idx A ip l fx s2,
    mapM (St.S_star (St.self s)) (map (fun g => g - v / c) grid) = Some starj /\
    NpArr.binop Rmult starj cell = Some prod /\
    St.bnd (St.self s1) = Some idx /\
    St.take2 prod idx = Some A /\
    IPxj ak no_kwargs s1 = (St.Ok ip, s1) /\
    St.call_bnd x' v ak no_kwargs s1 = (St.Ok l, s2) /\
    nth_error (St.heap s2) l = Some fx /\
    fx = map (fun p => Np.dot (fst p) (snd p)) (combine A ip).
Proof.
  intros Hbase Hhs Hx Hxv Hxne Hgrid Hcell Hlen Hstar Hdeg Hak.
  unfold St.base in Hbase. st_step Hbase.
  destruct (St.IP (St.self s)) as [f|bg] eqn:EIP; st_step Hbase; [discriminate|].
  rewrite Hx in Hbase. st_step Hbase.
  erewrite sbind_ok in Hbase by (apply read_ok; exact Hxv).
  erewrite sbind_ok in Hbase by (apply read_ok; exact Hgrid).
  destruct (NpArr.interp _ grid _) as [jx|] eqn:Ejx; st_step Hbase; [|discriminate].
  destruct (St.take2 grid _) as [gb|] eqn:Egb; st_step Hbase; [|discriminate].
  apply (f_equal snd) in Hbase. cbn [snd] in Hbase.
  set (idx := map _ jx) in *.
  set (obs := map _ xv) in *.
  set (degk := match St.kw_degk kw with Some n => n | None => 3%nat end) in *.
  set (sig_k := match St.kw_sig_k kw with Some v0 => v0 | None => 1 end) in *.
  set (Bm := St.vander_rev (map (fun p => p - Np.sum xv / INR (length xv)) xv) degk) in *.
  assert (Hheap : St.heap s1 = St.heap s) by (now rewrite <- Hbase).
  assert (Hlj : St.lnwave_j (St.self s1) = St.lnwave_j (St.self s))
    by (now rewrite <- Hbase).
  assert (Hcj : St.spec_cell_j (St.self s1) = St.spec_cell_j (St.self s))
    by (now rewrite <- Hbase).
  assert (HSs : St.S_star (St.self s1) = St.S_star (St.self s))
    by (now rewrite <- Hbase).
  assert (Hbnd : St.bnd (St.self s1) = Some idx) by (now rewrite <- Hbase).
  assert (HBB : St.BBxjl (St.self s1) =
                Some (map (fun p : list R * R =>
                             map (fun g =>
                                    map (fun v => exp (- (g - snd p + sig_k * v) ^ 2
                                                       / sig_k ^ 2))
                                        [-1.4; -0.7; 0; 0.7; 1.4])
                                 (fst p))
                          (combine gb obs))) by (now rewrite <- Hbase).
  assert (HBk : St.Bxk (St.self s1) = Some Bm) by (now rewrite <- Hbase).
  clear Hbase.
  assert (Hjx : length jx = length xv).
  { unfold NpArr.interp in Ejx. destruct grid; [discriminate|].
    destruct (Nat.eqb _ _); [|discriminate]. injection Ejx as <-.
    unfold obs. now rewrite !length_map. }
  destruct (mapM_length _ _ (St.S_star (St.self s)) _ Hstar) as (starj & Hstarj & Hsl).
  rewrite length_map in Hsl.
  destruct (binop_same_length Rmult starj cell) as (prod & Hprod & Hpl); [congruence|].
  destruct (rows_of_spec 5 degk ak Hak) as (HK & HL & Hcat).
  assert (Hhd : length (hd [] (rows_of 5 degk ak)) = 5%nat).
  { destruct degk as [|n]; [lia|]. cbn [rows_of hd]. rewrite length_firstn. lia. }
  destruct (band_einsum_identity sig_k degk ak prod grid (rows_of 5 degk ak)
              ltac:(congruence) Hak Hcat HK HL Hhd idx gb obs Bm Egb)
    as (A & Axkl & fx & ip & HA & HE & HM & HI & Hfx & _ & HAl).
  { unfold obs, idx. now rewrite !length_map. }
  { unfold Bm, St.vander_rev, idx. now rewrite !length_map. }
  { unfold Bm, St.vander_rev. apply Forall_map. apply Forall_forall. intros b _.
    now rewrite length_map, length_seq. }
  { unfold idx. apply Forall_map. apply Forall_forall. intros u _.
    intros E. apply (f_equal (@length Z)) in E.
    rewrite length_map, arange_length in E. cbn [length] in E. lia. }
  assert (Hrows : St.reshape_rows Axkl = Some (map (@concat R) Axkl)).
  { apply reshape_rows_nonempty. intros ->. cbn [length] in HAl.
    unfold idx in HAl. rewrite length_map, Hjx in HAl.
    destruct xv; [easy|discriminate]. }
  assert (HhdB : length (hd [] Bm) = degk).
  { unfold Bm, St.vander_rev. destruct xv as [|x0 xv']; [easy|].
    cbn [map hd]. now rewrite length_map, length_seq. }
  assert (HAxk : St.Axk v no_kwargs s1 = (St.Ok Axkl, s1)).
  { unfold St.Axk.
    erewrite sbind_ok by reflexivity.
    erewrite sbind_ok by reflexivity.
    erewrite sbind_ok by (apply read_ok; rewrite Hheap, Hlj; exact Hgrid).
    rewrite HSs, Hstarj. erewrite sbind_ok by reflexivity.
    erewrite sbind_ok by (apply read_ok; rewrite Hheap, Hcj; exact Hcell).
    rewrite Hprod. erewrite sbind_ok by reflexivity.
    rewrite Hbnd. erewrite sbind_ok by reflexivity.
    rewrite HA. erewrite sbind_ok by reflexivity.
    rewrite HBB. erewrite sbind_ok by reflexivity.
    rewrite HBk. erewrite sbind_ok by reflexivity.
    rewrite HE. reflexivity. }
  assert (HIP : IPxj ak no_kwargs s1 = (St.Ok ip, s1)).
  { unfold IPxj.
    erewrite sbind_ok by reflexivity.
    erewrite sbind_ok by reflexivity.
    rewrite HBB. erewrite sbind_ok by reflexivity.
    rewrite HBk. erewrite sbind_ok by reflexivity.
    rewrite HhdB, (reshape_amplitudes degk ak Hdeg Hak).
    erewrite sbind_ok by reflexivity.
    rewrite HI. reflexivity. }
  destruct (alloc_ok fx s1) as (s2 & Hrun & _ & _ & Hnew).
  exists starj, prod, idx, A, ip, (length (St.heap s1)), fx, s2.
  split; [exact Hstarj|]. split; [exact Hprod|]. split; [exact Hbnd|].
  split; [exact HA|]. split; [exact HIP|]. split.
  { unfold St.call_bnd. cbn [no_kwargs St.kw_x]. erewrite sbind_ok by exact HAxk.
    rewrite Hrows. erewrite sbind_ok by reflexivity.
    rewrite HM. erewrite sbind_ok by reflexivity. exact Hrun. }
  split; [exact Hnew|exact Hfx].
Qed.

Lemma call_bnd_is_band_times_IPxj_witness :
  exists starj prod idx A ip l fx s2,
    mapM (St.S_star (St.self bnd_state_one_pixel))
      (map (fun g => g - 0 / c) [0; 1; 2]) = Some starj /\
    NpArr.binop Rmult starj [1; 1; 1] = Some prod /\
    St.bnd (St.self (snd (St.base kwargs_x bnd_state_one_pixel))) = Some idx /\
    St.take2 prod idx = Some A /\
    IPxj (repeat 1 15) no_kwargs (snd (St.base kwargs_x bnd_state_one_pixel)) =
    (St.Ok ip, snd (St.base kwargs_x bnd_state_one_pixel)) /\
    St.call_bnd 2%nat 0 (repeat 1 15) no_kwargs
      (snd (St.base kwargs_x bnd_state_one_pixel)) = (St.Ok l, s2) /\
    nth_error (St.heap s2) l = Some fx /\
    fx = map (fun p => Np.dot (fst p) (snd p)) (combine A ip).
Proof.
  pose proof base_one_pixel_returns as Hret.
  destruct (St.base kwargs_x bnd_state_one_pixel) as [o s1] eqn:Hbase.
  cbn [fst snd] in *. subst o.
  apply (call_bnd_is_band_times_IPxj bnd_state_one_pixel s1 kwargs_x 0 (repeat 1 15)
           2%nat 2%nat [0] [0; 1; 2] [1; 1; 1] Hbase).
  - cbn. lia.
  - reflexivity.
  - reflexivity.
  - discriminate.
  - reflexivity.
  - reflexivity.
  - reflexivity.
  - repeat constructor; discriminate.
  - cbn. lia.
  - reflexivity.
Defined.

(** ** Arguments on which the evaluator always raises *)

(** X21. Three ways to make every evaluation raise, whatever the other
    arguments: an empty [coeff_bkg] (its first element is read), an [IP]
    attribute that is an array instead of a kernel function (the
    band-matrix variant's use of the attribute), and more IP coefficients
    than the kernel has shape parameters (one for the Gaussian, two for the
    super-, asymmetric, bi- and two-component Gaussians; the multi-Gaussian
    takes any number). *)
Theorem evaluator_argument_errors (self : model.t) (pixel : list R) (v : R)
    (cn cw ci ca cb : list R) :
  (cb = [] -> model.call self pixel v cn cw ci ca cb = None) /\
  (forall bg, model.IP self = IP_array bg ->
              model.call self pixel v cn cw ci ca cb = None) /\
  (forall f, model.IP self = IP_function f -> f <> ip_mg ->
             (match f with ip_g => 1 | _ => 2 end < length ci)%nat ->
             model.call self pixel v cn cw ci ca cb = None).
Proof.
  unfold model.call, model.Sj_eff, model.kernel, call_IP.
  repeat split.
  - intros ->. destruct (model.spec_gas self ca); [|reflexivity]. cbn [bind].
    destruct (model.IP self) as [f|bg]; [|reflexivity].
    destruct (bind_kernel f ci); [|reflexivity]. cbn [bind].
    destruct (mapM _ _); reflexivity.
  - intros bg ->. destruct (model.spec_gas self ca); reflexivity.
  - intros f -> Hmg Hlen. destruct (model.spec_gas self ca); [|reflexivity].
    cbn [bind].
    assert (Hk : bind_kernel f ci = None).
    { destruct f; try easy;
        destruct ci as [|c0 [|c1 [|c2 ci]]]; cbn [length] in Hlen; try lia;
        reflexivity. }
    now rewrite Hk.
Qed.

Lemma evaluator_argument_errors_witness :
  model.call model_one_absorber [1; 2] 0 [1] [1; 1] [2.2; 1] [1] [0] = None.
Proof.
  apply (proj2 (proj2 (evaluator_argument_errors model_one_absorber [1; 2] 0
                         [1] [1; 1] [2.2; 1] [1] [0])) ip_g).
  - reflexivity.
  - discriminate.
  - cbn [length]. lia.
Defined.
